(** * Radio: the track queue and the broadcast engine

    A shallow embedding of [server/src/queue.ts] (class [TrackQueue]),
    [server/src/player.ts] (class [StreamService]) and of
    [normalizeYoutubeUrl] from [server/src/index.ts], with the properties the
    specification states about them.

    Conventions.  JavaScript numbers that hold indices, timestamps, process
    ids and status codes are integers [Z]; [undefined] and [null] are [None];
    a [Buffer] is a list of bytes; an array is a list.  The wall clock
    ([Date.now()]) and the id source ([randomUUID()]) are inputs of the
    operations that read them. *)

From Stdlib Require Import ZArith String Ascii List Bool Lia.
From Stdlib.Strings Require Import Byte.
From stdpp Require Import base option list strings.
From Equations Require Import Equations.
Import ListNotations.

Local Open Scope string_scope.
Local Open Scope list_scope.
Local Open Scope Z_scope.

(** ** JavaScript truthiness of the values the code tests *)

(** [if (x)] for [x : number | undefined | null]: absent and [0] are falsy. *)
Definition truthy_num (x : option Z) : bool :=
  match x with
  | Some n => negb (n =? 0)
  | None => false
  end.

(** [if (s)] for [s : string | undefined]: absent and empty are falsy. *)
Definition truthy_str (x : option string) : bool :=
  match x with
  | Some s => negb (s =? EmptyString)%string
  | None => false
  end.

(** ** Tracks (queue.ts, [interface Track]) *)

Inductive Source := youtube | soundcloud.

Record Requester := mkRequester {
  requester_id : string;
  displayName : string;
  avatar : option string
}.

Module Track.
Record t := mk {
  id : string;
  url : string;
  title : string;
  thumbnail : option string;
  duration : option Z;
  startedAt : option Z;
  source : Source;
  requestedBy : Requester
}.

(** [{ ...track, startedAt: s }] *)
Definition with_startedAt (s : Z) (tr : t) : t :=
  mk (id tr) (url tr) (title tr) (thumbnail tr) (duration tr) (Some s)
     (source tr) (requestedBy tr).
End Track.

(** [Omit<Track, 'id'>] *)
Record Payload := mkPayload {
  p_url : string;
  p_title : string;
  p_thumbnail : option string;
  p_duration : option Z;
  p_startedAt : option Z;
  p_source : Source;
  p_requestedBy : Requester
}.

(** ** Arrays *)

Section Arrays.
Context {A : Type}.

(** [Array.prototype.findIndex]: the first index whose element satisfies
    the predicate, [-1] when there is none. *)
Fixpoint findIndex_from (p : A -> bool) (i : Z) (l : list A) : Z :=
  match l with
  | [] => -1
  | x :: r => if p x then i else findIndex_from p (i + 1) r
  end.

Definition findIndex (p : A -> bool) (l : list A) : Z := findIndex_from p 0 l.

(** [l.splice(start, deleteCount, ...items)]: the removed elements and the
    array afterwards.  A negative [start] counts from the end, a [start]
    beyond the end is the end, and [deleteCount] is cut to what is there. *)
Definition splice (start deleteCount : Z) (items l : list A) : list A * list A :=
  let len := Z.of_nat (length l) in
  let s := if start <? 0 then Z.max (len + start) 0 else Z.min start len in
  let d := Z.min (Z.max deleteCount 0) (len - s) in
  (take (Z.to_nat d) (drop (Z.to_nat s) l),
   take (Z.to_nat s) l ++ items ++ drop (Z.to_nat (s + d)) l).
End Arrays.

(** ** The track queue (queue.ts, [class TrackQueue]) *)

Module TrackQueue.
Definition has_id (trackId : string) (tr : Track.t) : bool :=
  (Track.id tr =? trackId)%string.

(** [enqueue]: [uuid] is the value [randomUUID()] returns in this call. *)
Definition enqueue (uuid : string) (payload : Payload) (queue : list Track.t)
  : Track.t * list Track.t :=
  let track :=
    Track.mk uuid (p_url payload) (p_title payload) (p_thumbnail payload)
             (p_duration payload) (p_startedAt payload) (p_source payload)
             (p_requestedBy payload) in
  (track, queue ++ [track]).

(** [dequeue]: [Array.prototype.shift]. *)
Definition dequeue (queue : list Track.t) : option Track.t * list Track.t :=
  match queue with
  | [] => (None, [])
  | tr :: rest => (Some tr, rest)
  end.

Definition peek (queue : list Track.t) : option Track.t := head queue.

Definition snapshot (queue : list Track.t) : list Track.t := queue.

Definition clear (queue : list Track.t) : list Track.t := [].

Definition size (queue : list Track.t) : Z := Z.of_nat (length queue).

Definition remove (trackId : string) (queue : list Track.t) : bool * list Track.t :=
  let index := findIndex (has_id trackId) queue in
  if index =? -1 then (false, queue)
  else (true, snd (splice index 1 [] queue)).

Definition move (trackId : string) (newIndex : Z) (queue : list Track.t)
  : bool * list Track.t :=
  let currentIndex := findIndex (has_id trackId) queue in
  if currentIndex =? -1 then (false, queue)
  else
    let clampedIndex := Z.max 0 (Z.min newIndex (Z.of_nat (length queue) - 1)) in
    let '(removed, queue1) := splice currentIndex 1 [] queue in
    match removed with
    | track :: _ => (true, snd (splice clampedIndex 0 [track] queue1))
    | [] => (true, queue1)  (* nothing removed: not reached, [currentIndex] is in range *)
    end.
End TrackQueue.

(** ** Listener sinks and the silence frame (player.ts) *)

Definition Chunk := list byte.

(** A sink: the [PassThrough] created by [attachClient].  [written] lists the
    buffers passed to [tap.write], oldest first. *)
Record Tap := mkTap {
  tap_id : nat;
  destroyed : bool;
  written : list Chunk
}.

Definition tap_write (data : Chunk) (tap : Tap) : Tap :=
  mkTap (tap_id tap) (destroyed tap) (written tap ++ [data]).

(** [Buffer.from('fffbe400...00', 'hex')]: 36 bytes. *)
Definition SILENCE_FRAME : Chunk :=
  [xff; xfb; xe4; x00] ++ repeat x00 32.

(** [Buffer.concat(Array(100).fill(SILENCE_FRAME))] *)
Definition SILENCE_FLUSH : Chunk :=
  concat (repeat SILENCE_FRAME 100).

(** ** The engine and what surrounds it *)

Inductive Signal := SIGSTOP | SIGCONT.

(** The callbacks handed to [setTimeout]. *)
Inductive Timer :=
| TSkip                 (* skipCurrent: [skipping = false; playNext()], 150 ms *)
| TPlayNext (ms : Z)    (* [() => void this.playNext()] *)
| TSafety (pipe : nat). (* playTrack: the 30 s no-data check of a pipeline *)

(** A [playNext] call suspended at [await this.createAudioStream(track)];
    [awaited] holds when [ensurePlaying] waits for it. *)
Record Start := mkStart {
  s_track : Track.t;
  awaited : bool
}.

(** What [playTrack] closes over for the pipeline it builds. *)
Record Pipe := mkPipe {
  p_track : Track.t;     (* [track], of which [playingTrack] is a copy *)
  hasStarted : bool;
  killed : bool;         (* [command.kill('SIGKILL')] was called *)
  out_destroyed : bool   (* [output.destroy()] was called *)
}.

Record World := mkWorld {
  queue : list Track.t;  (* the [TrackQueue] the service was built with *)
  taps : list Tap;  (* the attached sinks, in insertion order *)
  playing : bool;
  starting : bool;
  paused : bool;
  pausedAt : option Z;
  totalPausedDuration : Z;
  stopCurrent : option nat;  (* the stopper closure, named by the pipeline it closes over *)
  currentFfmpegPid : option Z;
  skipping : bool;
  currentTrack : option Track.t;
  lastPlayedTrack : option Track.t;
  currentYoutubeThumbnail : option string;
  currentSoundcloudThumbnail : option string;
  taps_made : nat;  (* sinks created so far; names the next one *)
  signals : list (Z * Signal);  (* [process.kill] calls, oldest first *)
  timers : list Timer;  (* pending [setTimeout] callbacks *)
  starts : list Start;  (* [playNext] calls waiting in [createAudioStream] *)
  pipes : list Pipe  (* encoder pipelines built so far; the index names one *)
}.

(** Field assignments, [this.f = v]. *)

Definition set_queue (v : list Track.t) (w : World) : World :=
  mkWorld v (taps w) (playing w) (starting w) (paused w) (pausedAt w)
    (totalPausedDuration w) (stopCurrent w) (currentFfmpegPid w) (skipping w)
    (currentTrack w) (lastPlayedTrack w) (currentYoutubeThumbnail w)
    (currentSoundcloudThumbnail w) (taps_made w) (signals w) (timers w) (starts w)
    (pipes w).

Definition set_taps (v : list Tap) (w : World) : World :=
  mkWorld (queue w) v (playing w) (starting w) (paused w) (pausedAt w)
    (totalPausedDuration w) (stopCurrent w) (currentFfmpegPid w) (skipping w)
    (currentTrack w) (lastPlayedTrack w) (currentYoutubeThumbnail w)
    (currentSoundcloudThumbnail w) (taps_made w) (signals w) (timers w) (starts w)
    (pipes w).

Definition set_playing (v : bool) (w : World) : World :=
  mkWorld (queue w) (taps w) v (starting w) (paused w) (pausedAt w)
    (totalPausedDuration w) (stopCurrent w) (currentFfmpegPid w) (skipping w)
    (currentTrack w) (lastPlayedTrack w) (currentYoutubeThumbnail w)
    (currentSoundcloudThumbnail w) (taps_made w) (signals w) (timers w) (starts w)
    (pipes w).

Definition set_starting (v : bool) (w : World) : World :=
  mkWorld (queue w) (taps w) (playing w) v (paused w) (pausedAt w)
    (totalPausedDuration w) (stopCurrent w) (currentFfmpegPid w) (skipping w)
    (currentTrack w) (lastPlayedTrack w) (currentYoutubeThumbnail w)
    (currentSoundcloudThumbnail w) (taps_made w) (signals w) (timers w) (starts w)
    (pipes w).

Definition set_paused (v : bool) (w : World) : World :=
  mkWorld (queue w) (taps w) (playing w) (starting w) v (pausedAt w)
    (totalPausedDuration w) (stopCurrent w) (currentFfmpegPid w) (skipping w)
    (currentTrack w) (lastPlayedTrack w) (currentYoutubeThumbnail w)
    (currentSoundcloudThumbnail w) (taps_made w) (signals w) (timers w) (starts w)
    (pipes w).

Definition set_pausedAt (v : option Z) (w : World) : World :=
  mkWorld (queue w) (taps w) (playing w) (starting w) (paused w) v
    (totalPausedDuration w) (stopCurrent w) (currentFfmpegPid w) (skipping w)
    (currentTrack w) (lastPlayedTrack w) (currentYoutubeThumbnail w)
    (currentSoundcloudThumbnail w) (taps_made w) (signals w) (timers w) (starts w)
    (pipes w).

Definition set_totalPausedDuration (v : Z) (w : World) : World :=
  mkWorld (queue w) (taps w) (playing w) (starting w) (paused w) (pausedAt w) v
    (stopCurrent w) (currentFfmpegPid w) (skipping w) (currentTrack w)
    (lastPlayedTrack w) (currentYoutubeThumbnail w) (currentSoundcloudThumbnail w)
    (taps_made w) (signals w) (timers w) (starts w) (pipes w).

Definition set_stopCurrent (v : option nat) (w : World) : World :=
  mkWorld (queue w) (taps w) (playing w) (starting w) (paused w) (pausedAt w)
    (totalPausedDuration w) v (currentFfmpegPid w) (skipping w) (currentTrack w)
    (lastPlayedTrack w) (currentYoutubeThumbnail w) (currentSoundcloudThumbnail w)
    (taps_made w) (signals w) (timers w) (starts w) (pipes w).

Definition set_currentFfmpegPid (v : option Z) (w : World) : World :=
  mkWorld (queue w) (taps w) (playing w) (starting w) (paused w) (pausedAt w)
    (totalPausedDuration w) (stopCurrent w) v (skipping w) (currentTrack w)
    (lastPlayedTrack w) (currentYoutubeThumbnail w) (currentSoundcloudThumbnail w)
    (taps_made w) (signals w) (timers w) (starts w) (pipes w).

Definition set_skipping (v : bool) (w : World) : World :=
  mkWorld (queue w) (taps w) (playing w) (starting w) (paused w) (pausedAt w)
    (totalPausedDuration w) (stopCurrent w) (currentFfmpegPid w) v (currentTrack w)
    (lastPlayedTrack w) (currentYoutubeThumbnail w) (currentSoundcloudThumbnail w)
    (taps_made w) (signals w) (timers w) (starts w) (pipes w).

Definition set_currentTrack (v : option Track.t) (w : World) : World :=
  mkWorld (queue w) (taps w) (playing w) (starting w) (paused w) (pausedAt w)
    (totalPausedDuration w) (stopCurrent w) (currentFfmpegPid w) (skipping w) v
    (lastPlayedTrack w) (currentYoutubeThumbnail w) (currentSoundcloudThumbnail w)
    (taps_made w) (signals w) (timers w) (starts w) (pipes w).

Definition set_lastPlayedTrack (v : option Track.t) (w : World) : World :=
  mkWorld (queue w) (taps w) (playing w) (starting w) (paused w) (pausedAt w)
    (totalPausedDuration w) (stopCurrent w) (currentFfmpegPid w) (skipping w)
    (currentTrack w) v (currentYoutubeThumbnail w) (currentSoundcloudThumbnail w)
    (taps_made w) (signals w) (timers w) (starts w) (pipes w).

Definition set_currentYoutubeThumbnail (v : option string) (w : World) : World :=
  mkWorld (queue w) (taps w) (playing w) (starting w) (paused w) (pausedAt w)
    (totalPausedDuration w) (stopCurrent w) (currentFfmpegPid w) (skipping w)
    (currentTrack w) (lastPlayedTrack w) v (currentSoundcloudThumbnail w) (taps_made w)
    (signals w) (timers w) (starts w) (pipes w).

Definition set_currentSoundcloudThumbnail (v : option string) (w : World) : World :=
  mkWorld (queue w) (taps w) (playing w) (starting w) (paused w) (pausedAt w)
    (totalPausedDuration w) (stopCurrent w) (currentFfmpegPid w) (skipping w)
    (currentTrack w) (lastPlayedTrack w) (currentYoutubeThumbnail w) v (taps_made w)
    (signals w) (timers w) (starts w) (pipes w).

Definition set_taps_made (v : nat) (w : World) : World :=
  mkWorld (queue w) (taps w) (playing w) (starting w) (paused w) (pausedAt w)
    (totalPausedDuration w) (stopCurrent w) (currentFfmpegPid w) (skipping w)
    (currentTrack w) (lastPlayedTrack w) (currentYoutubeThumbnail w)
    (currentSoundcloudThumbnail w) v (signals w) (timers w) (starts w) (pipes w).

Definition set_signals (v : list (Z * Signal)) (w : World) : World :=
  mkWorld (queue w) (taps w) (playing w) (starting w) (paused w) (pausedAt w)
    (totalPausedDuration w) (stopCurrent w) (currentFfmpegPid w) (skipping w)
    (currentTrack w) (lastPlayedTrack w) (currentYoutubeThumbnail w)
    (currentSoundcloudThumbnail w) (taps_made w) v (timers w) (starts w) (pipes w).

Definition set_timers (v : list Timer) (w : World) : World :=
  mkWorld (queue w) (taps w) (playing w) (starting w) (paused w) (pausedAt w)
    (totalPausedDuration w) (stopCurrent w) (currentFfmpegPid w) (skipping w)
    (currentTrack w) (lastPlayedTrack w) (currentYoutubeThumbnail w)
    (currentSoundcloudThumbnail w) (taps_made w) (signals w) v (starts w) (pipes w).

Definition set_starts (v : list Start) (w : World) : World :=
  mkWorld (queue w) (taps w) (playing w) (starting w) (paused w) (pausedAt w)
    (totalPausedDuration w) (stopCurrent w) (currentFfmpegPid w) (skipping w)
    (currentTrack w) (lastPlayedTrack w) (currentYoutubeThumbnail w)
    (currentSoundcloudThumbnail w) (taps_made w) (signals w) (timers w) v (pipes w).

Definition set_pipes (v : list Pipe) (w : World) : World :=
  mkWorld (queue w) (taps w) (playing w) (starting w) (paused w) (pausedAt w)
    (totalPausedDuration w) (stopCurrent w) (currentFfmpegPid w) (skipping w)
    (currentTrack w) (lastPlayedTrack w) (currentYoutubeThumbnail w)
    (currentSoundcloudThumbnail w) (taps_made w) (signals w) (timers w) (starts w) v.

(** The service right after [new StreamService(queue)]. *)
Definition initial (q : list Track.t) : World :=
  mkWorld q [] false false false None 0 None None false None None None None
          0%nat [] [] [] [].

(** *** Silence and fan-out *)

Definition write_live (data : Chunk) (tap : Tap) : Tap :=
  if negb (destroyed tap) then tap_write data tap else tap.

Definition broadcastChunk (chunk : Chunk) (w : World) : World :=
  let dataToSend := if paused w then SILENCE_FRAME else chunk in
  set_taps (map (write_live dataToSend) (taps w)) w.

Definition flushWithSilence (w : World) : World :=
  set_taps (map (write_live SILENCE_FLUSH) (taps w)) w.

Definition sendSilence (w : World) : World :=
  if (0 <? Z.of_nat (length (taps w))) then broadcastChunk SILENCE_FRAME w else w.

(** The 50 ms interval callback of [startSilenceBroadcast]. *)
Definition silenceTick (w : World) : World :=
  if negb (playing w) && (0 <? Z.of_nat (length (taps w)))
  then broadcastChunk SILENCE_FRAME w else w.

(** [attachClient(res)]: the new sink joins the set and the first silence
    frame is written to it.  The response headers are not part of the model. *)
Definition attachClient (w : World) : World :=
  let tap := mkTap (taps_made w) false [] in
  let w := set_taps_made (S (taps_made w)) w in
  set_taps (taps w ++ [tap_write SILENCE_FRAME tap]) w.

(** The ['close'] callback of the response a sink pipes into:
    [tap.destroy(); this.taps.delete(tap)]. *)
Definition clientClose (tap : nat) (w : World) : World :=
  set_taps (filter (fun t => tap_id t ≠ tap) (taps w)) w.

(** *** State snapshot *)

Module StreamState.
Record t := mk {
  current : option Track.t;
  queue : list Track.t;
  listeners : nat;
  paused : bool
}.
End StreamState.

Definition getState (w : World) : StreamState.t :=
  let track :=
    match currentTrack w with
    | Some tr => Some tr
    | None => lastPlayedTrack w
    end in
  let adjustedTrack :=
    match track with
    | Some tr =>
        if truthy_num (Track.startedAt tr) then
          let currentPauseDuration := if paused w then 0 else 0 in
          let adjustedStartedAt :=
            default 0 (Track.startedAt tr) + totalPausedDuration w
            + currentPauseDuration in
          Some (Track.with_startedAt adjustedStartedAt tr)
        else track
    | None => track
    end in
  StreamState.mk adjustedTrack (TrackQueue.snapshot (queue w))
                 (length (taps w)) (paused w).

Definition isPaused (w : World) : bool := paused w.

(** *** Pause and resume *)

(** [process.kill(pid, sig)]: the call is recorded; whether the system
    refuses it only changes what is logged. *)
Definition process_kill (pid : Z) (sig : Signal) (w : World) : World :=
  set_signals (signals w ++ [(pid, sig)]) w.

Definition signal_encoder (sig : Signal) (w : World) : World :=
  if truthy_num (currentFfmpegPid w)
  then process_kill (default 0 (currentFfmpegPid w)) sig w
  else w.

(** [setPaused(paused)], with [now] the value of [Date.now()]. *)
Definition setPaused (p : bool) (now : Z) (w : World) : World :=
  if p && negb (paused w) then
    let w := set_pausedAt (Some now) w in
    let w := set_paused true w in
    let w := signal_encoder SIGSTOP w in
    flushWithSilence w
  else if negb p && paused w && truthy_num (pausedAt w) then
    let w := set_totalPausedDuration
               (totalPausedDuration w + (now - default 0 (pausedAt w))) w in
    let w := set_pausedAt None w in
    let w := set_paused false w in
    signal_encoder SIGCONT w
  else
    set_paused p w.

(** *** Playback *)

(** The result of an [async] call as its caller sees it at the next turn of
    the event loop: settled, or still waiting. *)
Inductive Outcome := Settled | Pending.

Definition add_timer (tm : Timer) (w : World) : World :=
  set_timers (timers w ++ [tm]) w.

(** The [catch] block of [playNext]. *)
Definition playNext_catch (w : World) : World :=
  let w := set_currentTrack None w in
  let w := set_lastPlayedTrack None w in
  let w := set_playing false w in
  add_timer (TPlayNext 1000) w.

(** [playNext] up to its first suspension.  [playTrack] throws at once on an
    empty url and otherwise waits in [createAudioStream]; [aw] tells whether
    [ensurePlaying] awaits this call. *)
Definition playNext (aw : bool) (w : World) : Outcome * World :=
  if playing w then (Settled, w)
  else
    let '(next, q) := TrackQueue.dequeue (queue w) in
    let w := set_queue q w in
    match next with
    | None =>
        let w := set_currentTrack None w in
        let w := set_lastPlayedTrack None w in
        let w := set_currentYoutubeThumbnail None w in
        let w := set_currentSoundcloudThumbnail None w in
        let w := set_playing false w in
        (Settled, w)
    | Some next =>
        if (Track.url next =? EmptyString)%string
        then (Settled, playNext_catch w)
        else (Pending, set_starts (starts w ++ [mkStart next aw]) w)
    end.

(** [playTrack] after [createAudioStream] has returned the input. *)
Definition playTrack_resume (track : Track.t) (w : World) : World :=
  let w := set_pausedAt None w in
  let w := set_totalPausedDuration 0 w in
  let playingTrack := track in
  let w := set_currentTrack (Some playingTrack) w in
  let w := set_lastPlayedTrack (Some playingTrack) w in
  let w := set_playing true w in
  let w :=
    match Track.source track with
    | youtube =>
        let w := set_currentYoutubeThumbnail (Track.thumbnail track) w in
        set_currentSoundcloudThumbnail None w
    | soundcloud =>
        let w := set_currentSoundcloudThumbnail (Track.thumbnail track) w in
        set_currentYoutubeThumbnail None w
    end in
  let pipe := length (pipes w) in
  let w := set_pipes (pipes w ++ [mkPipe track false false false]) w in
  let w := set_stopCurrent (Some pipe) w in
  add_timer (TSafety pipe) w.

(** The [finally] block of [ensurePlaying], run when the awaited call settles. *)
Definition finally_starting (aw : bool) (w : World) : World :=
  if aw then set_starting false w else w.

Definition ensurePlaying (w : World) : World :=
  if playing w || starting w then w
  else
    let w := set_starting true w in
    match playNext true w with
    | (Settled, w) => finally_starting true w
    | (Pending, w) => w
    end.

(** [createAudioStream] of the [n]-th waiting start returns. *)
Definition streamReady (n : nat) (w : World) : World :=
  match starts w !! n with
  | Some st =>
      let w := set_starts (delete n (starts w)) w in
      let w := playTrack_resume (s_track st) w in
      finally_starting (awaited st) w
  | None => w
  end.

(** [createAudioStream] of the [n]-th waiting start throws. *)
Definition streamFailed (n : nat) (w : World) : World :=
  match starts w !! n with
  | Some st =>
      let w := set_starts (delete n (starts w)) w in
      let w := playNext_catch w in
      finally_starting (awaited st) w
  | None => w
  end.

(** The stopper [playTrack] stores in [stopCurrent]. *)
Definition stop_pipe (pipe : nat) (w : World) : World :=
  set_pipes (alter (fun p => mkPipe (p_track p) (hasStarted p) true true)
                   pipe (pipes w)) w.

Definition skipCurrent (w : World) : World :=
  let w := set_skipping true w in
  let w :=
    match stopCurrent w with
    | Some pipe => set_stopCurrent None (stop_pipe pipe w)
    | None => w
    end in
  let w := set_currentFfmpegPid None w in
  let w := set_playing false w in
  let w := set_currentTrack None w in
  add_timer TSkip w.

(** *** Encoder callbacks registered by [playTrack] *)

Definition schedule_unless_skipping (w : World) : World :=
  if negb (skipping w) then add_timer (TPlayNext 100) w else w.

(** ['start']: [pid] is [command.ffmpegProc.pid], when there is one. *)
Definition on_start (pid : option Z) (w : World) : World :=
  if truthy_num pid then set_currentFfmpegPid pid w else w.

(** ['error'] of the command. *)
Definition on_error (w : World) : World :=
  let w := set_playing false w in
  let w := set_stopCurrent None w in
  let w := set_currentFfmpegPid None w in
  schedule_unless_skipping w.

(** ['end'] of the command. *)
Definition on_end (w : World) : World :=
  let w := set_playing false w in
  let w := set_stopCurrent None w in
  let w := set_currentFfmpegPid None w in
  let w := sendSilence w in
  schedule_unless_skipping w.

(** ['error'] of the output stream. *)
Definition on_output_error (w : World) : World :=
  let w := set_playing false w in
  let w := set_stopCurrent None w in
  schedule_unless_skipping w.

Definition same_timer (a b : Timer) : bool :=
  match a, b with
  | TSkip, TSkip => true
  | TPlayNext x, TPlayNext y => x =? y
  | TSafety p, TSafety q => (p =? q)%nat
  | _, _ => false
  end.

(** ['data'] of the output stream of pipeline [pipe]; a destroyed stream
    emits none.  The second listener, [output.once('data', ...)], clears the
    safety timeout. *)
Definition on_data (pipe : nat) (chunk : Chunk) (now : Z) (w : World) : World :=
  match pipes w !! pipe with
  | Some p =>
      if out_destroyed p then w
      else
        let w :=
          if negb (hasStarted p) then
            let w := set_pipes
                       (<[pipe := mkPipe (p_track p) true (killed p) (out_destroyed p)]>
                          (pipes w)) w in
            let playingTrack := p_track p in
            let w := set_currentTrack (Some (Track.with_startedAt now playingTrack)) w in
            set_lastPlayedTrack (currentTrack w) w
          else w in
        let w := broadcastChunk chunk w in
        set_timers (List.filter (fun tm => negb (same_timer tm (TSafety pipe)))
                                (timers w)) w
  | None => w
  end.

(** The 30 s safety timeout of pipeline [pipe]. *)
Definition on_safety_timeout (pipe : nat) (w : World) : World :=
  match pipes w !! pipe with
  | Some p =>
      let same_track :=
        match currentTrack w with
        | Some cur => (Track.id cur =? Track.id (p_track p))%string
        | None => false
        end in
      if negb (hasStarted p) && same_track then
        let w := set_pipes
                   (<[pipe := mkPipe (p_track p) (hasStarted p) (killed p) true]>
                      (pipes w)) w in
        let w := set_playing false w in
        add_timer (TPlayNext 100) w
      else w
  | None => w
  end.

(** *** Timers *)

Definition run_timer (tm : Timer) (w : World) : World :=
  match tm with
  | TSkip =>
      let w := set_skipping false w in
      snd (playNext false w)
  | TPlayNext _ => snd (playNext false w)
  | TSafety pipe => on_safety_timeout pipe w
  end.

(** The [n]-th pending timer fires. *)
Definition fire (n : nat) (w : World) : World :=
  match timers w !! n with
  | Some tm => run_timer tm (set_timers (delete n (timers w)) w)
  | None => w
  end.

(** *** The event loop

    One constructor per thing that can happen to the service between two
    turns of the event loop: a call from a request handler, a timer, a
    settled promise or an encoder event. *)

Inductive Event :=
| Enqueue (uuid : string) (payload : Payload)
| Dequeue
| Remove (trackId : string)
| Move (trackId : string) (newIndex : Z)
| Clear
| EnsurePlaying
| PlayNext
| SkipCurrent
| SetPaused (p : bool) (now : Z)
| AttachClient
| ClientClose (tap : nat)
| SilenceTick
| Fire (n : nat)
| StreamReady (n : nat)
| StreamFailed (n : nat)
| FfmpegStart (pipe : nat) (pid : option Z)
| FfmpegError (pipe : nat)
| FfmpegEnd (pipe : nat)
| OutputError (pipe : nat)
| OutputData (pipe : nat) (chunk : Chunk) (now : Z).

(** An encoder event of a pipeline that was never built does not happen. *)
Definition of_pipe (pipe : nat) (f : World -> World) (w : World) : World :=
  match pipes w !! pipe with
  | Some _ => f w
  | None => w
  end.

Definition exec (e : Event) (w : World) : World :=
  match e with
  | Enqueue uuid payload => set_queue (snd (TrackQueue.enqueue uuid payload (queue w))) w
  | Dequeue => set_queue (snd (TrackQueue.dequeue (queue w))) w
  | Remove trackId => set_queue (snd (TrackQueue.remove trackId (queue w))) w
  | Move trackId newIndex => set_queue (snd (TrackQueue.move trackId newIndex (queue w))) w
  | Clear => set_queue (TrackQueue.clear (queue w)) w
  | EnsurePlaying => ensurePlaying w
  | PlayNext => snd (playNext false w)
  | SkipCurrent => skipCurrent w
  | SetPaused p now => setPaused p now w
  | AttachClient => attachClient w
  | ClientClose tap => clientClose tap w
  | SilenceTick => silenceTick w
  | Fire n => fire n w
  | StreamReady n => streamReady n w
  | StreamFailed n => streamFailed n w
  | FfmpegStart pipe pid => of_pipe pipe (on_start pid) w
  | FfmpegError pipe => of_pipe pipe on_error w
  | FfmpegEnd pipe => of_pipe pipe on_end w
  | OutputError pipe => of_pipe pipe on_output_error w
  | OutputData pipe chunk now => on_data pipe chunk now w
  end.

(** The events in order, oldest first. *)
Definition run (es : list Event) (w : World) : World :=
  fold_left (fun w e => exec e w) es w.

(** The ids [randomUUID()] returned during a run. *)
Fixpoint uuids (es : list Event) : list string :=
  match es with
  | [] => []
  | Enqueue uuid _ :: r => uuid :: uuids r
  | _ :: r => uuids r
  end.

(** ** Strings

    A string is a sequence of 8-bit characters.  [toLowerCase] is modelled on
    the letters A to Z; the patterns the code looks for are ASCII. *)

Definition lower_ascii (c : ascii) : ascii :=
  let n := nat_of_ascii c in
  if ((65 <=? n) && (n <=? 90))%nat then ascii_of_nat (n + 32) else c.

Fixpoint toLowerCase (s : string) : string :=
  match s with
  | EmptyString => EmptyString
  | String c r => String (lower_ascii c) (toLowerCase r)
  end.

(** [s.startsWith(p)] *)
Definition startsWith (p s : string) : bool := String.prefix p s.

(** [s.includes(p)] *)
Fixpoint includes (p s : string) : bool :=
  startsWith p s ||
  match s with
  | EmptyString => false
  | String _ r => includes p r
  end.

(** ** The generic HTTP fetch (player.ts, [fetchRemoteStream]) *)

(** The response handed to the callback of [http.get]. *)
Record Response := mkResponse {
  statusCode : option Z;
  location : option string;       (* [headers.location] *)
  content_type : option string;   (* [headers['content-type']] *)
  body : list byte
}.

(** What a request comes to: the ['error'] event of the request, which the
    10 s timeout also raises by destroying it, or a response. *)
Inductive Hop :=
| RequestFailed (message : string)
| Answer (res : Response).

Inductive FetchError :=
| TooManyRedirects
| UpstreamStatus (status : option Z)
| NonAudioContentType (contentType : string)
| RequestError (message : string).

(** How the promise ends.  [Uncaught]: [new URL(location, target)] throws
    inside the response callback, and the promise is never settled. *)
Inductive Fetched :=
| Resolved (res : Response)
| Rejected (err : FetchError)
| Uncaught.

Definition is_redirect (res : Response) : bool :=
  match statusCode res with
  | Some status =>
      negb (status =? 0) && (300 <=? status) && (status <? 400)
      && truthy_str (location res)
  | None => false
  end.

Definition is_failure_status (res : Response) : bool :=
  match statusCode res with
  | Some status => (status =? 0) || (400 <=? status)
  | None => true
  end.

Definition contentType_of (res : Response) : string :=
  toLowerCase (default EmptyString (content_type res)).

Definition isAudio (contentType : string) : bool :=
  startsWith "audio/" contentType.

Definition isHls (contentType : string) : bool :=
  includes "application/vnd.apple.mpegurl" contentType
  || includes "application/x-mpegurl" contentType.

(** The response callback once the redirect case is set aside. *)
Definition settle (res : Response) : Fetched :=
  if is_failure_status res then Rejected (UpstreamStatus (statusCode res))
  else
    let contentType := contentType_of res in
    if negb (isAudio contentType) && negb (isHls contentType)
    then Rejected (NonAudioContentType contentType)
    else Resolved res.

Section FetchRemoteStream.
(** [get secure target headers hop]: what [https.get] ([secure]) or
    [http.get] comes to for the request made at redirect depth [hop]. *)
Variable get : bool -> string -> list (string * string) -> nat -> Hop.
(** [new URL(location, target).toString()], [None] when it throws. *)
Variable resolve_location : string -> string -> option string.

(** The targets requested, in order, and how the promise ends. *)
Equations? fetchRemoteStream (target : string) (headers : list (string * string))
  (redirects : nat) : list string * Fetched by wf (6 - redirects)%nat lt :=
  fetchRemoteStream target headers redirects with le_lt_dec redirects 5 => {
    | right _ := ([], Rejected TooManyRedirects)
    | left _ with get (startsWith "https:" target) target headers redirects => {
        | RequestFailed message := ([target], Rejected (RequestError message))
        | Answer res with is_redirect res => {
            | false := ([target], settle res)
            | true with resolve_location (default EmptyString (location res)) target => {
                | None := ([target], Uncaught)
                | Some nextUrl :=
                    let '(log, r) := fetchRemoteStream nextUrl headers (S redirects) in
                    (target :: log, r) } } } }.
Proof. lia. Qed.
End FetchRemoteStream.

(** ** URL normalization (index.ts, [normalizeYoutubeUrl]) *)

(** The parts of a parsed [URL] object.  [searchParams] is the list behind
    [parsed.searchParams]; [fragment] is absent when the URL has none. *)
Module Url.
Record t := mk {
  protocol : string;                      (* without the colon *)
  hostname : string;
  port : option string;
  pathname : string;
  searchParams : list (string * string);
  fragment : option string
}.

(** [parsed.searchParams.delete(name)] *)
Definition searchParams_delete (name : string) (u : t) : t :=
  mk (protocol u) (hostname u) (port u) (pathname u)
     (List.filter (fun kv => negb (fst kv =? name)%string) (searchParams u))
     (fragment u).

(** The getter [parsed.hash]: empty, or [#] and the fragment. *)
Definition hash (u : t) : string :=
  match fragment u with
  | Some f => if (f =? EmptyString)%string then EmptyString else ("#" ++ f)%string
  | None => EmptyString
  end.

(** The setter, for [parsed.hash = '']. *)
Definition clear_hash (u : t) : t :=
  mk (protocol u) (hostname u) (port u) (pathname u) (searchParams u) None.
End Url.

(** [s.replace(/^#/, '')] *)
Definition strip_hash_sign (s : string) : string :=
  match s with
  | String "#" r => r
  | _ => s
  end.

Definition timeParams : list string := ["t"; "start"; "time_continue"; "timestamp"].

Definition isYoutubeHost (host : string) : bool :=
  includes "youtube.com" host || includes "youtu.be" host
  || includes "music.youtube.com" host.

Section NormalizeYoutubeUrl.
(** [new URL(url)], [None] when it throws, and [parsed.toString()]. *)
Variable parse : string -> option Url.t.
Variable serialize : Url.t -> string.

Definition normalizeYoutubeUrl (url : string) : string :=
  match parse url with
  | Some parsed =>
      let host := toLowerCase (Url.hostname parsed) in
      let isYoutube := isYoutubeHost host in
      if negb isYoutube then url
      else
        let parsed := fold_left (fun u param => Url.searchParams_delete param u)
                                timeParams parsed in
        let hash := strip_hash_sign (Url.hash parsed) in
        let parsed :=
          if startsWith "t=" hash || startsWith "time_continue=" hash
          then Url.clear_hash parsed else parsed in
        serialize parsed
  | None => url
  end.
End NormalizeYoutubeUrl.

(** *** A reading of the URL parser for plain absolute URLs

    [scheme://host[:port][/path][?query][#fragment]], enough to run
    [normalizeYoutubeUrl] on the addresses the specification names.  No
    credentials, no percent-decoding, no IPv6 literals. *)

(** The text before the first [c], and the text after it when [c] occurs. *)
Fixpoint cut (c : ascii) (s : string) : string * option string :=
  match s with
  | EmptyString => (EmptyString, None)
  | String a r =>
      if Ascii.eqb a c then (EmptyString, Some r)
      else let '(h, t) := cut c r in (String a h, t)
  end.

Fixpoint split_on (fuel : nat) (c : ascii) (s : string) : list string :=
  match fuel with
  | O => [s]
  | S fuel =>
      match cut c s with
      | (h, Some r) => h :: split_on fuel c r
      | (h, None) => [h]
      end
  end.

Definition parse_pair (kv : string) : string * string :=
  let '(k, v) := cut "=" kv in (k, default EmptyString v).

Definition parse_query (q : string) : list (string * string) :=
  map parse_pair
      (List.filter (fun kv => negb (kv =? EmptyString)%string)
                   (split_on (String.length q) "&" q)).

Definition plain_parse (url : string) : option Url.t :=
  let '(before_hash, fragment) := cut "#" url in
  let '(before_query, query) := cut "?" before_hash in
  match cut ":" before_query with
  | (scheme, Some rest) =>
      if (scheme =? EmptyString)%string || negb (startsWith "//" rest) then None
      else
        let '(authority, path) := cut "/" (String.substring 2 (String.length rest) rest) in
        let '(host, port) := cut ":" authority in
        if (host =? EmptyString)%string then None
        else Some (Url.mk (toLowerCase scheme) (toLowerCase host) port
                          ("/" ++ default EmptyString path)%string
                          (parse_query (default EmptyString query)) fragment)
  | (_, None) => None
  end.

Definition serialize_pair (kv : string * string) : string :=
  (fst kv ++ "=" ++ snd kv)%string.

Definition plain_serialize (u : Url.t) : string :=
  (Url.protocol u ++ "://" ++ Url.hostname u
   ++ match Url.port u with Some p => ":" ++ p | None => EmptyString end
   ++ Url.pathname u
   ++ match Url.searchParams u with
      | [] => EmptyString
      | kvs => "?" ++ String.concat "&" (map serialize_pair kvs)
      end
   ++ match Url.fragment u with Some f => "#" ++ f | None => EmptyString end)%string.

Definition normalize : string -> string :=
  normalizeYoutubeUrl plain_parse plain_serialize.

(** ** What the properties are stated with *)

(** Events that only concern the sinks: the 50 ms silence timer, a listener
    attaching, a listener going away. *)
Definition sink_event (e : Event) : bool :=
  match e with
  | SilenceTick | AttachClient | ClientClose _ => true
  | _ => false
  end.

(** The fields [getState] derives [current] from. *)
Definition timeline (w : World) : option Track.t * option Track.t * Z * bool :=
  (currentTrack w, lastPlayedTrack w, totalPausedDuration w, paused w).

Definition is_timeParam (name : string) : bool :=
  existsb (String.eqb name) timeParams.

Definition strip_timeParams (u : Url.t) : Url.t :=
  fold_left (fun u param => Url.searchParams_delete param u) timeParams u.

(** No sink of the set is destroyed. *)
Definition sinks_live (w : World) : Prop :=
  Forall (fun tap => destroyed tap = false) (taps w).

(** The [ensurePlaying] calls still waiting for their [playNext]. *)
Definition awaited_starts (w : World) : nat :=
  length (List.filter awaited (starts w)).

(** [starting] is set exactly while one [ensurePlaying] call waits. *)
Definition starting_tracks_await (w : World) : Prop :=
  awaited_starts w = if starting w then 1%nat else 0%nat.

(** *** Who holds a track *)

(** The ids waiting in the queue. *)
Definition queued_ids (w : World) : list string := Track.id <$> queue w.

Definition start_id (st : Start) : string := Track.id (s_track st).
Definition pipe_id (p : Pipe) : string := Track.id (p_track p).

(** [x] is the id of a track the engine has taken from the queue: the current
    or last-played one, one whose stream is being opened, or one a pipeline
    was built for. *)
Definition taken_id (w : World) (x : string) : Prop :=
  (exists tr, currentTrack w = Some tr /\ Track.id tr = x)
  \/ (exists tr, lastPlayedTrack w = Some tr /\ Track.id tr = x)
  \/ x ∈ start_id <$> starts w
  \/ x ∈ pipe_id <$> pipes w.

(** The ids in use are [used]; no id is queued twice; an id the engine has
    taken is not queued. *)
Record owned (used : list string) (w : World) : Prop := mkOwned {
  queued_once : NoDup (queued_ids w);
  queued_used : forall x, x ∈ queued_ids w -> x ∈ used;
  taken_used : forall x, taken_id w x -> x ∈ used;
  taken_apart : forall x, taken_id w x -> x ∉ queued_ids w
}.

(** [w'] queues no id that [w] does not, and takes only ids that [w] has
    taken or that have left the queue. *)
Definition hands_over (w w' : World) : Prop :=
  queued_ids w' ⊆+ queued_ids w
  /\ (NoDup (queued_ids w) ->
      forall x, taken_id w' x ->
                taken_id w x \/ (x ∈ queued_ids w /\ x ∉ queued_ids w')).

(** ** Proof support *)

(** Reduces a field read after a sequence of field assignments. *)
Ltac fields :=
  unfold add_timer, stop_pipe, process_kill in *; simpl in *.

(** Proves [hands_over w w'] for a step that leaves the queue alone and
    takes no new track. *)
Ltac frame :=
  split;
  [ unfold queued_ids; fields; done
  | intros _ ?; unfold taken_id; fields; naive_solver ].

(** Proves that a step which touches neither [starts] nor [starting] keeps
    [starting_tracks_await]. *)
Ltac unchanged :=
  unfold starting_tracks_await, awaited_starts in *;
  fields; repeat case_match; fields; congruence.

(** ** Sample data and sessions *)

Definition ann : Requester := mkRequester "76561198000000001" "Ann" None.

Definition payload_a : Payload :=
  mkPayload "https://youtu.be/X" "Song A" None (Some 60) None youtube ann.
Definition payload_b : Payload :=
  mkPayload "https://youtu.be/Y" "Song B" None (Some 90) None youtube ann.
Definition payload_c : Payload :=
  mkPayload "https://soundcloud.com/artist/c" "Song C" None None None soundcloud ann.

Definition T1 : Track.t := fst (TrackQueue.enqueue "id-1" payload_a []).
Definition T2 : Track.t := fst (TrackQueue.enqueue "id-2" payload_b []).
Definition T3 : Track.t := fst (TrackQueue.enqueue "id-3" payload_c []).

Definition three_tracks : list Track.t := [T1; T2; T3].

Definition audio : Chunk := [x49; x44; x33].

(** One track queued and started, one listener, first audio at 1000 ms. *)
Definition session_started : list Event :=
  [Enqueue "id-1" payload_a; EnsurePlaying; StreamReady 0; FfmpegStart 0 (Some 4242);
   AttachClient; OutputData 0 audio 1000].

Definition session_paused : list Event := session_started ++ [SetPaused true 11000].

Definition session_resumed : list Event := session_paused ++ [SetPaused false 26000].

(** Paused while idle; a track is queued and started afterwards. *)
Definition session_paused_before_start : list Event :=
  [SetPaused true 1000; Enqueue "id-1" payload_a; EnsurePlaying; StreamReady 0;
   FfmpegStart 0 (Some 4242)].

(** Two requests queue a track each; the first stream is still being opened. *)
Definition session_starting : list Event :=
  [Enqueue "id-1" payload_a; EnsurePlaying; Enqueue "id-2" payload_b].

(** The first of two queued tracks could not be opened: nothing plays, the
    second track waits in the queue. *)
Definition session_failed : list Event :=
  session_starting ++ [EnsurePlaying; StreamFailed 0].

(** Skip is called while the stream of the first track is still being
    opened: nothing is playing and there is no current track.  The stream
    opens before the 150 ms timer of the skip fires. *)
Definition session_skip_while_loading : list Event :=
  session_starting ++ [SkipCurrent; StreamReady 0].

Definition hls_response : Response :=
  mkResponse (Some 200) None (Some "application/x-mpegURL") [].

Definition not_modified : Response :=
  mkResponse (Some 304) None (Some "audio/mpeg") [].

Definition redirect_to (url : string) : Response :=
  mkResponse (Some 302) (Some url) None [].

(** Upstream that answers every request with a redirect to the same place. *)
Definition redirect_loop : bool -> string -> list (string * string) -> nat -> Hop :=
  fun _ _ _ _ => Answer (redirect_to "http://a.example/next").

(** Upstream that redirects twice and then serves MP3. *)
Definition two_hops : bool -> string -> list (string * string) -> nat -> Hop :=
  fun _ _ _ hop =>
    if (hop <? 2)%nat then Answer (redirect_to "http://b.example/audio")
    else Answer (mkResponse (Some 200) None (Some "Audio/MPEG") [x49; x44; x33]).

Definition absolute_location (location target : string) : option string := Some location.

(** ** Sequences of queue calls *)

(** The payload of an [enqueue] call together with the id drawn for it,
    as a track. *)
Definition track_of (entry : string * Payload) : Track.t :=
  Track.mk (fst entry) (p_url (snd entry)) (p_title (snd entry))
           (p_thumbnail (snd entry)) (p_duration (snd entry)) (p_startedAt (snd entry))
           (p_source (snd entry)) (p_requestedBy (snd entry)).

(** [enqueue] called once per entry, in order. *)
Definition enqueue_all (entries : list (string * Payload)) (queue : list Track.t)
  : list Track.t :=
  fold_left (fun q entry => snd (TrackQueue.enqueue (fst entry) (snd entry) q))
            entries queue.

(** [n] calls of [dequeue]: what each returned, and the queue left. *)
Fixpoint dequeue_n (n : nat) (queue : list Track.t)
  : list (option Track.t) * list Track.t :=
  match n with
  | O => ([], queue)
  | S n =>
      let '(first, queue) := TrackQueue.dequeue queue in
      let '(others, queue) := dequeue_n n queue in
      (first :: others, queue)
  end.

(** ** What holds in every state the service reaches *)

(** [getCurrentThumbnail(source)] (player.ts). *)
Definition getCurrentThumbnail (source : Source) (w : World) : option string :=
  match source with
  | youtube => currentYoutubeThumbnail w
  | soundcloud => currentSoundcloudThumbnail w
  end.

(** While [playing] holds there is a current track, and a current track is
    also the last-played one. *)
Definition current_known (w : World) : Prop :=
  (playing w = true -> is_Some (currentTrack w))
  /\ (forall tr, currentTrack w = Some tr -> lastPlayedTrack w = Some tr).

(** At most one of the two thumbnail fields is set. *)
Definition one_thumbnail (w : World) : Prop :=
  currentYoutubeThumbnail w = None \/ currentSoundcloudThumbnail w = None.

(** While [skipping] holds, the timer that clears it is pending. *)
Definition skip_pending (w : World) : Prop :=
  skipping w = true -> TSkip ∈ timers w.

(** A pending safety timeout belongs to a pipeline that has produced no
    data yet. *)
Definition safety_unstarted (w : World) : Prop :=
  forall pipe : nat,
    TSafety pipe ∈ timers w ->
    exists p : Pipe, pipes w !! pipe = Some p /\ hasStarted p = false.

(** Sink ids are pairwise distinct and below the counter that names the
    next sink. *)
Definition sinks_distinct (w : World) : Prop :=
  NoDup (tap_id <$> taps w)
  /\ Forall (fun tap => (tap_id tap < taps_made w)%nat) (taps w).

(** What [later] was sent after its first frame is the end of what [earlier]
    was sent after its first frame. *)
Definition in_step (earlier later : Tap) : Prop :=
  tail (written later) `suffix_of` tail (written earlier).

(** Every sink has been sent something, and is in step with every sink
    attached before it. *)
Fixpoint sinks_in_step (l : list Tap) : Prop :=
  match l with
  | [] => True
  | tap :: rest => written tap <> [] /\ Forall (in_step tap) rest /\ sinks_in_step rest
  end.

(** The sinks of the set are live and in step. *)
Definition fanout_synced (w : World) : Prop :=
  sinks_live w /\ sinks_in_step (taps w).

(** A chunk of the two silence buffers. *)
Definition silence (c : Chunk) : Prop := c = SILENCE_FRAME \/ c = SILENCE_FLUSH.

(** What a step did to the sink [tap'] of the state after it: it was
    attached before the step and got [extra] appended, or the step attached
    it and wrote [extra] to it. *)
Definition sink_got (e : Event) (w : World) (tap' : Tap) (extra : list Chunk) : Prop :=
  (exists tap : Tap,
     tap ∈ taps w /\ tap_id tap = tap_id tap' /\ written tap' = written tap ++ extra)
  \/ (e = AttachClient /\ tap_id tap' = taps_made w /\ written tap' = extra).

(** ** The HTTP interface (index.ts) *)

(** What an [await] comes to: the value, or the error thrown. *)
Inductive Await (A : Type) :=
| Returned (value : A)
| Thrown (error : string).
Arguments Returned {A} value.
Arguments Thrown {A} error.

(** [s.trim()], with the white space of the 8-bit characters: tab, line
    feed, vertical tab, form feed, carriage return and space. *)
Definition is_space (c : ascii) : bool :=
  let n := nat_of_ascii c in
  ((9 <=? n) && (n <=? 13) || (n =? 32))%nat.

Fixpoint trimStart (s : string) : string :=
  match s with
  | EmptyString => EmptyString
  | String c r => if is_space c then trimStart r else s
  end.

Fixpoint trimEnd (s : string) : string :=
  match s with
  | EmptyString => EmptyString
  | String c r =>
      match trimEnd r with
      | EmptyString => if is_space c then EmptyString else String c EmptyString
      | kept => String c kept
      end
  end.

Definition trim (s : string) : string := trimEnd (trimStart s).

(** [list.includes(x)] for an array of strings. *)
Definition Array_includes (x : string) (l : list string) : bool :=
  existsb (String.eqb x) l.

(** [Boolean(x)] for [x : boolean | undefined]. *)
Definition Boolean (x : option bool) : bool := default false x.

(** The fields of [config] (config.ts) that the handlers and the player read. *)
Record Config := mkConfig {
  adminSteamIds : list string;
  allowedSteamIds : list string;
  soundcloudClientId : string;
  disableYtDlp : bool;
  ytdlpFirst : bool
}.

(** [Express.User] (types/express.d.ts). *)
Record User := mkUser {
  user_id : string;
  user_displayName : string;
  user_avatar : option string;
  isAdmin : option bool
}.

(** The Steam profile passport hands to the verify callback; [photos] lists
    the [value] of each photo. *)
Record Profile := mkProfile {
  profile_id : string;
  profile_displayName : string;
  photos : list string
}.

(** A JSON value read from [req.body], as far as [typeof] and truthiness
    tell values apart. *)
Inductive JsValue :=
| JsUndefined
| JsNull
| JsBool (b : bool)
| JsNumber (n : Z)
| JsString (s : string).

Inductive Kind := yt_video | so_track | other_kind.

(** What [fetchYoutubeMetadata] returns. *)
Record YoutubeInfo := mkYoutubeInfo {
  yt_title : option string;
  yt_duration : option Z;
  yt_thumbnail : option string
}.

(** What [play.soundcloud] returns: a track, which has [durationInSec], or
    something else, a playlist. *)
Record SoundCloudTrack := mkSoundCloudTrack {
  sc_name : option string;
  sc_durationInSec : option Z;
  sc_thumbnail : option string;
  sc_user_thumbnail : option string
}.

Inductive SoundCloudInfo :=
| ScTrack (scTrack : SoundCloudTrack)
| ScPlaylist.

(** What is sent back: [res.status(s).json(b)], [res.send(buffer)], or the
    response becoming a sink of the stream. *)
Inductive Body :=
| JsonMessage (message : string)
| JsonOk
| JsonPaused (paused : bool)
| JsonTrack (track : Track.t)
| JsonState (state : StreamState.t)
| JsonMe (user : option User) (canQueue : bool)
| PngImage (image : list byte)
| AudioStream (tap : nat).

Record Reply := mkReply {
  reply_status : Z;
  reply_body : Body
}.

Inductive Route :=
| GetMe                                            (* GET /api/me *)
| GetStatus                                        (* GET /api/status *)
| PostPause (paused : JsValue)                     (* POST /api/pause *)
| PostSkip                                         (* POST /api/skip *)
| DeleteQueue (trackId : string)                   (* DELETE /api/queue/:trackId *)
| PatchQueue (trackId : string) (index : JsValue)  (* PATCH /api/queue/:trackId *)
| PostQueue (url : JsValue)                        (* POST /api/queue *)
| GetStream                                        (* GET /stream *)
| GetThumbnail (source : Source).                  (* GET /<source>/thumbnail.png *)

(** A request: the user of the session, when there is one, and the route
    with what the handler reads from the body and the path. *)
Record Request := mkRequest {
  req_user : option User;
  req_route : Route
}.

(** The routes registered with [requireAuth]. *)
Definition guarded (route : Route) : bool :=
  match route with
  | PostPause _ | PostSkip | DeleteQueue _ | PatchQueue _ _ | PostQueue _ => true
  | GetMe | GetStatus | GetStream | GetThumbnail _ => false
  end.

(** What the handlers read and call outside the service: [config], the
    clock, [randomUUID()], [play.validate], [fetchYoutubeMetadata],
    [play.soundcloud], [new URL(url)] with [parsed.toString()], [fetch] with
    [upstream.ok] and the body, and the [sharp] pipeline that makes the PNG. *)
Record Env := mkEnv {
  env_config : Config;
  env_now : Z;
  env_uuid : string;
  play_validate : string -> Await Kind;
  fetchYoutubeMetadata : string -> Await YoutubeInfo;
  play_soundcloud : string -> Await SoundCloudInfo;
  url_parse : string -> option Url.t;
  url_serialize : Url.t -> string;
  fetch_image : string -> Await (bool * list byte);
  sharp_png : Source -> list byte -> Await (list byte)
}.

Definition hasStreamAccess (config : Config) (steamId : string) (isAdmin : bool) : bool :=
  if isAdmin then true else Array_includes steamId (allowedSteamIds config).

(** The verify callback of the Steam strategy; [done(null, false)] is [None]. *)
Definition verify (config : Config) (profile : Profile) : option User :=
  let avatar := head (photos profile) in
  let isAdmin := Array_includes (profile_id profile) (adminSteamIds config) in
  if negb (hasStreamAccess config (profile_id profile) isAdmin) then None
  else Some (mkUser (profile_id profile) (profile_displayName profile) avatar
                    (Some isAdmin)).

(** [requireAuth]: the reply it sends, or [next()] with the user of the
    session.  [req.isAuthenticated()] holds when the session has a user. *)
Definition requireAuth (config : Config) (user : option User) : Reply + User :=
  match user with
  | None => inl (mkReply 401 (JsonMessage "Steam login required"))
  | Some user =>
      if negb (hasStreamAccess config (user_id user) (Boolean (isAdmin user)))
      then inl (mkReply 403 (JsonMessage "Account not allowed"))
      else inr user
  end.

(** The error middleware, reached through [next(error)]. *)
Definition unexpected : Reply := mkReply 500 (JsonMessage "Unexpected server error").

(** A double quote, for the messages that quote a field name. *)
Definition dquote : string := String (ascii_of_nat 34) EmptyString.

(** GET /api/me *)
Definition getMe (config : Config) (user : option User) : Reply :=
  let canQueue :=
    match user with
    | Some u => hasStreamAccess config (user_id u) (Boolean (isAdmin u))
    | None => false
    end in
  mkReply 200 (JsonMe user canQueue).

(** POST /api/pause *)
Definition postPause (env : Env) (paused : JsValue) (w : World) : Reply * World :=
  match paused with
  | JsBool paused =>
      let w := setPaused paused (env_now env) w in
      (mkReply 200 (JsonPaused (isPaused w)), w)
  | _ =>
      (mkReply 400 (JsonMessage ("Missing or invalid " ++ dquote ++ "paused" ++ dquote
                                 ++ " boolean")%string), w)
  end.

(** POST /api/skip *)
Definition postSkip (w : World) : Reply * World :=
  (mkReply 200 JsonOk, skipCurrent w).

(** DELETE /api/queue/:trackId *)
Definition deleteQueue (trackId : string) (w : World) : Reply * World :=
  let '(removed, q) := TrackQueue.remove trackId (queue w) in
  let w := set_queue q w in
  if negb removed then (mkReply 404 (JsonMessage "Track not found in queue"), w)
  else (mkReply 200 JsonOk, w).

(** PATCH /api/queue/:trackId *)
Definition patchQueue (trackId : string) (index : JsValue) (w : World) : Reply * World :=
  match index with
  | JsNumber index =>
      let '(moved, q) := TrackQueue.move trackId index (queue w) in
      let w := set_queue q w in
      if negb moved then (mkReply 404 (JsonMessage "Track not found in queue"), w)
      else (mkReply 200 JsonOk, w)
  | _ =>
      (mkReply 400 (JsonMessage ("Missing or invalid " ++ dquote ++ "index" ++ dquote
                                 ++ " number")%string), w)
  end.

(** [queue.enqueue(payload)], [await stream.ensurePlaying()] and the 201
    reply, the end of POST /api/queue. *)
Definition enqueue_and_play (env : Env) (payload : Payload) (w : World) : Reply * World :=
  let '(track, q) := TrackQueue.enqueue (env_uuid env) payload (queue w) in
  let w := set_queue q w in
  let w := ensurePlaying w in
  (mkReply 201 (JsonTrack track), w).

(** POST /api/queue.  The handler waits for [play.validate] and for the
    metadata before it touches the queue; [w] is the service when it does. *)
Definition postQueue (env : Env) (user : User) (url : JsValue) (w : World)
  : Reply * World :=
  match url with
  | JsUndefined | JsNull | JsBool false => (mkReply 400 (JsonMessage "Missing url"), w)
  | JsBool true => (unexpected, w)         (* [url.trim] is not a function *)
  | JsNumber n =>
      if n =? 0 then (mkReply 400 (JsonMessage "Missing url"), w) else (unexpected, w)
  | JsString url =>
      if (url =? EmptyString)%string then (mkReply 400 (JsonMessage "Missing url"), w)
      else
        let trimmed := trim url in
        match play_validate env trimmed with
        | Thrown _ => (unexpected, w)
        | Returned kind =>
            let requester :=
              mkRequester (user_id user) (user_displayName user) (user_avatar user) in
            match kind with
            | yt_video =>
                let normalizedUrl :=
                  normalizeYoutubeUrl (url_parse env) (url_serialize env) trimmed in
                match fetchYoutubeMetadata env normalizedUrl with
                | Thrown _ => (unexpected, w)
                | Returned info =>
                    enqueue_and_play env
                      (mkPayload normalizedUrl (default "YouTube track" (yt_title info))
                                 (yt_thumbnail info) (yt_duration info) None youtube
                                 requester) w
                end
            | so_track =>
                if negb (truthy_str (Some (soundcloudClientId (env_config env)))) then
                  (mkReply 503
                     (JsonMessage "SoundCloud support is disabled on this server."), w)
                else
                  match play_soundcloud env trimmed with
                  | Thrown _ => (unexpected, w)
                  | Returned ScPlaylist =>
                      (mkReply 422
                         (JsonMessage "Only individual SoundCloud tracks are supported."), w)
                  | Returned (ScTrack scTrack) =>
                      enqueue_and_play env
                        (mkPayload trimmed (default "SoundCloud track" (sc_name scTrack))
                                   (match sc_thumbnail scTrack with
                                    | Some t => Some t
                                    | None => sc_user_thumbnail scTrack
                                    end)
                                   (sc_durationInSec scTrack) None soundcloud requester) w
                  end
            | other_kind =>
                (mkReply 422
                   (JsonMessage "Only YouTube videos or SoundCloud tracks are supported."), w)
            end
        end
  end.

(** [serveThumbnail(source)] *)
Definition serveThumbnail (env : Env) (source : Source) (w : World) : Reply :=
  let thumbnailUrl := getCurrentThumbnail source w in
  if negb (truthy_str thumbnailUrl) then
    mkReply 404 (JsonMessage
                   (match source with
                    | youtube => "No youtube track currently playing"
                    | soundcloud => "No soundcloud track currently playing"
                    end))
  else
    match fetch_image env (default EmptyString thumbnailUrl) with
    | Thrown _ => mkReply 500 (JsonMessage "Failed to fetch thumbnail")
    | Returned (ok, bytes) =>
        if negb ok then mkReply 502 (JsonMessage "Failed to fetch thumbnail from upstream")
        else
          match sharp_png env source bytes with
          | Thrown _ => mkReply 500 (JsonMessage "Failed to fetch thumbnail")
          | Returned image => mkReply 200 (PngImage image)
          end
    end.

(** A route registered with [requireAuth]. *)
Definition authorized (config : Config) (user : option User)
    (handler : User -> World -> Reply * World) (w : World) : Reply * World :=
  match requireAuth config user with
  | inl reply => (reply, w)
  | inr user => handler user w
  end.

(** The application: what a request is answered with and what it does to
    the service. *)
Definition handle (env : Env) (req : Request) (w : World) : Reply * World :=
  match req_route req with
  | GetMe => (getMe (env_config env) (req_user req), w)
  | GetStatus => (mkReply 200 (JsonState (getState w)), w)
  | PostPause paused =>
      authorized (env_config env) (req_user req) (fun _ => postPause env paused) w
  | PostSkip => authorized (env_config env) (req_user req) (fun _ => postSkip) w
  | DeleteQueue trackId =>
      authorized (env_config env) (req_user req) (fun _ => deleteQueue trackId) w
  | PatchQueue trackId index =>
      authorized (env_config env) (req_user req) (fun _ => patchQueue trackId index) w
  | PostQueue url =>
      authorized (env_config env) (req_user req) (fun user => postQueue env user url) w
  | GetStream => (mkReply 200 (AudioStream (taps_made w)), attachClient w)
  | GetThumbnail source => (serveThumbnail env source w, w)
  end.

(** ** Opening the audio stream (player.ts, [createAudioStream]) *)

(** The three ways the player has of opening a stream: [streamWithSoundCloud],
    [streamWithYtdl] and [streamWithYtDlp]. *)
Inductive Opener := WithSoundCloud | WithYtdl | WithYtDlp.

Section CreateAudioStream.
(** The streams the openers return. *)
Context {Readable : Type}.
Variable config : Config.
Variable streamWithSoundCloud : string -> Await Readable.
Variable streamWithYtdl : string -> Await Readable.
Variable streamWithYtDlp : string -> Await Readable.

(** The openers called, in order, and what the call comes to. *)
Definition createAudioStream (track : Track.t) : list Opener * Await Readable :=
  match Track.source track with
  | soundcloud =>
      match streamWithSoundCloud (Track.url track) with
      | Returned input => ([WithSoundCloud], Returned input)
      | Thrown _ => ([WithSoundCloud; WithYtDlp], streamWithYtDlp (Track.url track))
      end
  | youtube =>
      if ytdlpFirst config then ([WithYtDlp], streamWithYtDlp (Track.url track))
      else if disableYtDlp config then ([WithYtdl], streamWithYtdl (Track.url track))
      else
        match streamWithYtdl (Track.url track) with
        | Returned input => ([WithYtdl], Returned input)
        | Thrown _ => ([WithYtdl; WithYtDlp], streamWithYtDlp (Track.url track))
        end
  end.

(** What an opener comes to on its own. *)
Definition open_with (opener : Opener) (url : string) : Await Readable :=
  match opener with
  | WithSoundCloud => streamWithSoundCloud url
  | WithYtdl => streamWithYtdl url
  | WithYtDlp => streamWithYtDlp url
  end.
End CreateAudioStream.

Definition threw {A : Type} (r : Await A) : bool :=
  match r with
  | Returned _ => false
  | Thrown _ => true
  end.

(** ** Reading the environment (config.ts) *)

(** [value.split(',')] *)
Definition split_commas (value : string) : list string :=
  split_on (String.length value) "," value.

(** [parseIdList(value)]: [value] is absent when the variable is not set. *)
Definition parseIdList (value : option string) : list string :=
  match value with
  | Some value =>
      List.filter (fun entry => negb (entry =? EmptyString)%string)
                  (map trim (split_commas value))
  | None => []
  end.

(** A string without a comma. *)
Fixpoint comma_free (s : string) : bool :=
  match s with
  | EmptyString => true
  | String c r => negb (Ascii.eqb c ",") && comma_free r
  end.

(** A string without white space. *)
Fixpoint space_free (s : string) : bool :=
  match s with
  | EmptyString => true
  | String c r => negb (is_space c) && space_free r
  end.

(** What a Steam id is, as far as [parseIdList] is concerned: not empty, no
    comma, no white space. *)
Definition plain_id (s : string) : Prop :=
  s <> EmptyString /\ comma_free s = true /\ space_free s = true.

(** The string is empty or begins with something else than white space. *)
Definition starts_plain (s : string) : bool :=
  match s with
  | EmptyString => true
  | String c _ => negb (is_space c)
  end.

(** ** More proof support *)

(** Unfolds the operations of the service down to field assignments. *)
Ltac open_ops :=
  unfold ensurePlaying, skipCurrent, setPaused, signal_encoder, flushWithSilence,
    attachClient, clientClose, silenceTick, sendSilence, broadcastChunk, fire,
    run_timer, streamReady, streamFailed, playTrack_resume, playNext_catch,
    finally_starting, of_pipe, on_start, on_error, on_end, on_output_error,
    schedule_unless_skipping, on_data, on_safety_timeout, playNext,
    TrackQueue.dequeue in *.

(** Takes a step of the service apart, case by case. *)
Ltac crunch :=
  repeat open_ops; fields; repeat (case_match; simplify_eq/=); fields.

(** Membership in a list that is written out. *)
Ltac listed := repeat first [apply list_elem_of_here | apply list_elem_of_further].

(** ** More sample data *)

(** A YouTube track with a thumbnail, queued and waiting for its stream. *)
Definition payload_d : Payload :=
  mkPayload "https://youtu.be/Z" "Song D" (Some "https://i.ytimg.com/vi/Z/default.jpg")
            (Some 200) None youtube ann.

Definition session_with_thumbnail : list Event :=
  [Enqueue "id-4" payload_d; EnsurePlaying].

Definition ann_user : User := mkUser "76561198000000001" "Ann" None None.
Definition bob_user : User := mkUser "76561198000000002" "Bob" None None.

(** A server on which Ann is allowed, SoundCloud is not configured, and
    YouTube answers with a title and a thumbnail. *)
Definition radio_env : Env :=
  mkEnv (mkConfig [] ["76561198000000001"] EmptyString false false) 11000 "id-9"
        (fun url => if includes "youtu" url then Returned yt_video
                    else if includes "soundcloud" url then Returned so_track
                    else Returned other_kind)
        (fun _ => Returned (mkYoutubeInfo (Some "Song X") (Some 60)
                                          (Some "https://i.ytimg.com/vi/X/default.jpg")))
        (fun _ => Thrown "offline")
        plain_parse plain_serialize
        (fun _ => Returned (true, [x89; x50; x4e; x47]))
        (fun _ bytes => Returned bytes).

(** A SoundCloud track that opens only through yt-dlp, on a server where
    yt-dlp is disabled. *)
Definition no_ytdlp : Config := mkConfig [] [] "client-id" true false.

(** * Properties *)

Local Set Warnings "-clear-no-such-hyp".

(** ** Arrays and the track queue *)

Section ArrayFacts.
Context {A : Type}.
Implicit Types (p : A -> bool) (l : list A).

Lemma findIndex_from_found p l i :
  findIndex_from p i l <> -1 -> 0 <= i ->
  exists (n : nat) (x : A),
    findIndex_from p i l = i + Z.of_nat n /\ l !! n = Some x /\ p x = true /\
    forall (j : nat) (y : A), (j < n)%nat -> l !! j = Some y -> p y = false.
Proof.
  revert i. induction l as [|a l IH]; intros i Hne Hi; simpl in *; [congruence|].
  destruct (p a) eqn:Hpa.
  - exists 0%nat, a. split_and!; [lia | done | done | intros; lia].
  - destruct (IH (i + 1)) as (n & x & Hn & Hx & Hpx & Hfirst); [done | lia |].
    exists (S n), x. split_and!; [lia | done | done |].
    intros [|j] y Hj Hy; simpl in Hy; [congruence|].
    apply (Hfirst j y); [lia | done].
Qed.

Lemma findIndex_from_absent p l i :
  0 <= i -> (forall x, x ∈ l -> p x = false) -> findIndex_from p i l = -1.
Proof.
  revert i. induction l as [|a l IH]; intros i Hi Hall; simpl; [done|].
  rewrite (Hall a) by constructor. apply IH; [lia|].
  intros x Hx. apply Hall. by constructor.
Qed.

Lemma findIndex_from_range p l i :
  0 <= i -> findIndex_from p i l = -1 \/ i <= findIndex_from p i l.
Proof.
  revert i. induction l as [|a l IH]; intros i Hi; simpl; [by left|].
  destruct (p a); [right; lia|].
  destruct (IH (i + 1)); [lia | by left | right; lia].
Qed.

Lemma findIndex_from_some p l i x :
  0 <= i -> x ∈ l -> p x = true -> findIndex_from p i l <> -1.
Proof.
  revert i. induction l as [|a l IH]; intros i Hi Hx Hp; simpl.
  - by apply elem_of_nil in Hx.
  - destruct (p a) eqn:Hpa; [lia|].
    apply elem_of_cons in Hx as [->|Hx]; [congruence|].
    apply IH; [lia | done | done].
Qed.

(** [l.splice(n, 1)] at an index in range takes out that element. *)
Lemma splice_remove_one l (n : nat) x :
  l !! n = Some x -> splice (Z.of_nat n) 1 [] l = ([x], delete n l).
Proof.
  intros Hx. pose proof (lookup_lt_Some _ _ _ Hx) as Hlt.
  unfold splice.
  replace (Z.of_nat n <? 0) with false by (symmetry; apply Z.ltb_ge; lia).
  rewrite Z.min_l by lia. rewrite Z.max_l by lia.
  rewrite Z.min_l by lia. rewrite Nat2Z.id.
  replace (Z.to_nat (Z.of_nat n + 1)) with (S n) by lia.
  change (Z.to_nat 1) with 1%nat. f_equal.
  - rewrite (drop_S _ _ _ Hx). done.
  - simpl. by rewrite delete_take_drop.
Qed.

(** [l.splice(c, 0, x)] at a position up to the length inserts there. *)
Lemma splice_insert_at l (c : Z) x :
  0 <= c <= Z.of_nat (length l) ->
  snd (splice c 0 [x] l) = take (Z.to_nat c) l ++ x :: drop (Z.to_nat c) l.
Proof.
  intros Hc. unfold splice; simpl.
  replace (c <? 0) with false by (symmetry; apply Z.ltb_ge; lia).
  rewrite Z.min_l by lia. rewrite Z.min_l by lia.
  by rewrite Z.add_0_r.
Qed.

Lemma lookup_inserted l (c : nat) x :
  (c <= length l)%nat -> (take c l ++ x :: drop c l) !! c = Some x.
Proof.
  intros Hc. rewrite lookup_app_r; rewrite length_take, Nat.min_l by lia; [|lia].
  by rewrite Nat.sub_diag.
Qed.

Lemma delete_inserted l (c : nat) x :
  (c <= length l)%nat -> delete c (take c l ++ x :: drop c l) = l.
Proof.
  intros Hc. rewrite delete_take_drop.
  rewrite take_app_le; rewrite ?length_take, ?Nat.min_l by lia; [|lia].
  rewrite take_take, Nat.min_id.
  rewrite drop_app_ge; rewrite ?length_take, ?Nat.min_l by lia; [|lia].
  replace (S c - c)%nat with 1%nat by lia. simpl. rewrite drop_0.
  apply take_drop.
Qed.

Lemma take_drop_sublist l (a b : nat) :
  (a <= b)%nat -> take a l ++ drop b l `sublist_of` l.
Proof.
  intros Hab. rewrite <- (take_drop a l) at 3.
  apply sublist_app; [done|].
  replace b with (a + (b - a))%nat by lia. rewrite <- drop_drop. apply sublist_drop.
Qed.

(** [splice] without new items leaves a sublist. *)
Lemma splice_sublist (start deleteCount : Z) l :
  snd (splice start deleteCount [] l) `sublist_of` l.
Proof.
  unfold splice. simpl. apply take_drop_sublist.
  destruct (Z.ltb_spec start 0); lia.
Qed.

End ArrayFacts.

Lemma has_id_true trackId tr : TrackQueue.has_id trackId tr = true <-> Track.id tr = trackId.
Proof. unfold TrackQueue.has_id. apply String.eqb_eq. Qed.

Lemma has_id_false trackId tr : TrackQueue.has_id trackId tr = false <-> Track.id tr <> trackId.
Proof. unfold TrackQueue.has_id. apply String.eqb_neq. Qed.

(** What [move] does when [findIndex] finds the track at [i]. *)
Lemma move_found (queue : list Track.t) trackId (k : Z) (i : nat) track :
  findIndex (TrackQueue.has_id trackId) queue = Z.of_nat i ->
  queue !! i = Some track ->
  let c := Z.to_nat (Z.max 0 (Z.min k (Z.of_nat (length queue) - 1))) in
  TrackQueue.move trackId k queue
  = (true, take c (delete i queue) ++ track :: drop c (delete i queue)).
Proof.
  intros Hi Htrack c. unfold TrackQueue.move. rewrite Hi.
  replace (Z.of_nat i =? -1) with false by (symmetry; apply Z.eqb_neq; lia).
  rewrite (splice_remove_one _ _ _ Htrack).
  pose proof (lookup_lt_Some _ _ _ Htrack) as Hlt.
  rewrite splice_insert_at; [done|].
  rewrite length_delete by eauto. lia.
Qed.

(** C3.  For every queue and every id present in it, [move(id, k)] returns
    [true] and puts the first track with that id at index
    [max(0, min(k, size - 1))], with [size] the length before the removal;
    the other tracks keep their order.  So [k < 0] moves the track to index 0
    and [k >= size] to the last index.  With an absent id, [move] returns
    [false] and leaves the queue as it is.  The index is an integer, as the
    PATCH handler's callers send it. *)
Theorem move_clamps_destination (queue : list Track.t) (trackId : string) (k : Z) :
  (trackId ∈ map Track.id queue ->
   exists (i : nat) (track : Track.t) (queue' : list Track.t),
     queue !! i = Some track /\ Track.id track = trackId /\
     (forall (j : nat) (x : Track.t),
        (j < i)%nat -> queue !! j = Some x -> Track.id x <> trackId) /\
     TrackQueue.move trackId k queue = (true, queue') /\
     queue' !! Z.to_nat (Z.max 0 (Z.min k (TrackQueue.size queue - 1))) = Some track /\
     delete (Z.to_nat (Z.max 0 (Z.min k (TrackQueue.size queue - 1)))) queue'
       = delete i queue /\
     (k < 0 -> queue' !! 0%nat = Some track) /\
     (TrackQueue.size queue <= k -> queue' !! (length queue - 1)%nat = Some track))
  /\ (trackId ∉ map Track.id queue ->
      TrackQueue.move trackId k queue = (false, queue)).
Proof.
  split.
  - intros Hin. apply list_elem_of_fmap in Hin as (tr & Hid & Htr).
    destruct (findIndex_from_found (TrackQueue.has_id trackId) queue 0)
      as (i & track & Hi & Htrack & Hp & Hfirst); [|lia|].
    { eapply findIndex_from_some; [lia | exact Htr |]. by apply has_id_true. }
    pose proof (lookup_lt_Some _ _ _ Htrack) as Hlt.
    unfold TrackQueue.size.
    set (c := Z.to_nat (Z.max 0 (Z.min k (Z.of_nat (length queue) - 1)))).
    assert (Hc : (c <= length (delete i queue))%nat).
    { rewrite length_delete by eauto. subst c. lia. }
    exists i, track, (take c (delete i queue) ++ track :: drop c (delete i queue)).
    assert (Hat : (take c (delete i queue) ++ track :: drop c (delete i queue)) !! c
                  = Some track) by by apply lookup_inserted.
    split_and!.
    + done.
    + by apply has_id_true.
    + intros j x Hj Hx. apply has_id_false. by apply (Hfirst j x).
    + by apply move_found.
    + done.
    + by apply delete_inserted.
    + intros Hk. replace 0%nat with c by (subst c; lia). done.
    + intros Hk. replace (length queue - 1)%nat with c by (subst c; lia). done.
  - intros Hnot. unfold TrackQueue.move.
    fold (findIndex (TrackQueue.has_id trackId) queue).
    unfold findIndex. rewrite findIndex_from_absent; [done | lia |].
    intros x Hx. apply has_id_false. intros Hid. apply Hnot.
    apply list_elem_of_fmap. by exists x.
Qed.

Lemma move_clamps_destination_witness :
  (exists queue' : list Track.t,
     TrackQueue.move "id-3" (-5) three_tracks = (true, queue')
     /\ queue' !! 0%nat = Some T3)
  /\ TrackQueue.move "id-9" 1 three_tracks = (false, three_tracks).
Proof.
  split.
  - destruct (proj1 (move_clamps_destination three_tracks "id-3" (-5)))
      as (i & track & queue' & Hi & Hid & _ & Hmove & _ & _ & Hfront & _).
    { apply (bool_decide_unpack _). vm_compute. exact I. }
    exists queue'. split; [exact Hmove|].
    assert (Htrack : track = T3).
    { destruct i as [|[|[|i]]]; simpl in Hi; try discriminate;
        injection Hi as <-; try reflexivity; discriminate Hid. }
    rewrite <- Htrack. apply Hfront. lia.
  - apply (proj2 (move_clamps_destination three_tracks "id-9" 1)).
    apply (bool_decide_unpack _). vm_compute. exact I.
Defined.

Example queue_reorder :
  snd (TrackQueue.move "id-3" 0 three_tracks) = [T3; T1; T2]
  /\ snd (TrackQueue.remove "id-1" [T3; T1; T2]) = [T3; T2].
Proof. split; reflexivity. Qed.

Lemma remove_sublist trackId (q : list Track.t) :
  snd (TrackQueue.remove trackId q) `sublist_of` q.
Proof.
  unfold TrackQueue.remove. destruct (_ =? -1); simpl; [done|]. apply splice_sublist.
Qed.

Lemma move_permutation trackId k (q : list Track.t) :
  snd (TrackQueue.move trackId k q) ≡ₚ q.
Proof.
  destruct (Z.eq_dec (findIndex (TrackQueue.has_id trackId) q) (-1)) as [Hidx|Hidx].
  - unfold TrackQueue.move. rewrite Hidx. done.
  - destruct (findIndex_from_found _ q 0 Hidx) as (i & track & Hi & Htrack & _); [lia|].
    rewrite (move_found q trackId k i track) by done. simpl.
    rewrite <- Permutation_middle, take_drop.
    symmetry. by apply delete_Permutation.
Qed.

(** ** The state snapshot *)

Lemma truthy_num_some (n : Z) : n <> 0 -> truthy_num (Some n) = true.
Proof. intros Hn. simpl. by apply negb_true_iff, Z.eqb_neq. Qed.

Lemma getState_current_timeline (w w' : World) :
  timeline w' = timeline w ->
  StreamState.current (getState w') = StreamState.current (getState w).
Proof.
  unfold timeline, getState. intros [= Hc Hl Ht Hp]. simpl.
  by rewrite Hc, Hl, Ht, Hp.
Qed.

Lemma sink_event_timeline (e : Event) (w : World) :
  sink_event e = true -> timeline (exec e w) = timeline w.
Proof.
  destruct e; try discriminate; intros _; simpl; [done | done |].
  unfold silenceTick.
  by destruct (negb (playing w) && (0 <? Z.of_nat (length (taps w)))).
Qed.

Lemma sink_events_timeline (es : list Event) (w : World) :
  forallb sink_event es = true -> timeline (run es w) = timeline w.
Proof.
  revert w. induction es as [|e es IH]; intros w Hes; [done|].
  apply andb_true_iff in Hes as [He Hes]. simpl.
  unfold run in IH. rewrite IH by done. by apply sink_event_timeline.
Qed.

(** C1.  When the current track (or, between tracks, the last-played one)
    carries a [startedAt] stamp [s], which [Date.now()] never makes [0],
    [getState] reports a track whose [startedAt] is [s + totalPausedDuration]
    and whose other fields are those of that track.  [pausedAt] does not
    enter: whatever it holds, the report is the same, so a pause in progress
    adds nothing.  While [paused] holds and only the silence timer and
    listeners act on the service, every later [getState] reports the same
    [current], with the same [startedAt]. *)
Theorem getState_shifts_startedAt (w : World) (tr : Track.t) (s : Z) :
  match currentTrack w with Some cur => Some cur | None => lastPlayedTrack w end = Some tr ->
  Track.startedAt tr = Some s ->
  s <> 0 ->
  StreamState.current (getState w)
    = Some (Track.mk (Track.id tr) (Track.url tr) (Track.title tr) (Track.thumbnail tr)
                     (Track.duration tr) (Some (s + totalPausedDuration w))
                     (Track.source tr) (Track.requestedBy tr))
  /\ Track.startedAt <$> StreamState.current (getState w)
     = Some (Some (s + totalPausedDuration w))
  /\ (forall at_ : option Z,
        StreamState.current (getState (set_pausedAt at_ w))
        = StreamState.current (getState w))
  /\ forall es : list Event,
       forallb sink_event es = true ->
       paused w = true ->
       StreamState.paused (getState (run es w)) = true
       /\ StreamState.current (getState (run es w)) = StreamState.current (getState w)
       /\ Track.startedAt <$> StreamState.current (getState (run es w))
          = Some (Some (s + totalPausedDuration w)).
Proof.
  intros Htrack Hs Hne.
  assert (Hnow : StreamState.current (getState w)
                 = Some (Track.mk (Track.id tr) (Track.url tr) (Track.title tr)
                                  (Track.thumbnail tr) (Track.duration tr)
                                  (Some (s + totalPausedDuration w))
                                  (Track.source tr) (Track.requestedBy tr))).
  { unfold getState. rewrite Htrack. simpl. rewrite Hs, truthy_num_some by done.
    simpl. destruct (paused w); unfold Track.with_startedAt; do 3 f_equal; lia. }
  split_and!.
  - exact Hnow.
  - by rewrite Hnow.
  - intros at_. by apply getState_current_timeline.
  - intros es Hes Hp. pose proof (sink_events_timeline es w Hes) as Ht.
    assert (Hsame : StreamState.current (getState (run es w))
                    = StreamState.current (getState w))
      by (by apply getState_current_timeline).
    split_and!.
    + injection Ht as _ _ _ Hp'. simpl. congruence.
    + exact Hsame.
    + by rewrite Hsame, Hnow.
Qed.

Lemma getState_shifts_startedAt_witness :
  Track.startedAt <$> StreamState.current (getState (run session_resumed (initial [])))
  = Some (Some 16000)
  /\ StreamState.current (getState (run session_resumed (initial [])))
     = Some (Track.mk "id-1" "https://youtu.be/X" "Song A" None (Some 60) (Some 16000)
                      youtube ann)
  /\ Track.startedAt
       <$> StreamState.current
             (getState (run [SilenceTick; AttachClient; SilenceTick]
                            (run session_paused (initial []))))
     = Some (Some 1000).
Proof.
  destruct (getState_shifts_startedAt (run session_resumed (initial []))
              (Track.mk "id-1" "https://youtu.be/X" "Song A" None (Some 60) (Some 1000)
                        youtube ann) 1000)
    as (Hreport & Hstamp & _); [reflexivity | reflexivity | lia |].
  destruct (getState_shifts_startedAt (run session_paused (initial []))
              (Track.mk "id-1" "https://youtu.be/X" "Song A" None (Some 60) (Some 1000)
                        youtube ann) 1000)
    as (_ & _ & _ & Hlater); [reflexivity | reflexivity | lia |].
  destruct (Hlater [SilenceTick; AttachClient; SilenceTick]) as (_ & _ & Hfrozen);
    [reflexivity | reflexivity |].
  split_and!; [exact Hstamp | exact Hreport | exact Hfrozen].
Defined.

(** ** Fan-out *)

Lemma lookup_write_live (data : Chunk) (l : list Tap) (i : nat) (tap : Tap) :
  l !! i = Some tap -> destroyed tap = false ->
  map (write_live data) l !! i = Some (tap_write data tap).
Proof.
  intros Hi Hlive. change (map (write_live data) l) with (write_live data <$> l).
  rewrite list_lookup_fmap, Hi. simpl. unfold write_live. by rewrite Hlive.
Qed.

(** Only the sinks change when a buffer is fanned out. *)
Lemma broadcastChunk_taps chunk w :
  taps (broadcastChunk chunk w)
  = map (write_live (if paused w then SILENCE_FRAME else chunk)) (taps w).
Proof. reflexivity. Qed.

Lemma on_data_taps pipe chunk now w p :
  pipes w !! pipe = Some p -> out_destroyed p = false ->
  taps (on_data pipe chunk now w)
  = map (write_live (if paused w then SILENCE_FRAME else chunk)) (taps w).
Proof.
  intros Hp Hopen. unfold on_data. rewrite Hp, Hopen.
  by destruct (hasStarted p).
Qed.

(** C6.  [broadcastChunk] appends to every attached sink that is not
    destroyed the silence frame when [paused] holds and the chunk itself
    otherwise; this is what each ['data'] event of a live encoder output
    does with its chunk. *)
Theorem broadcastChunk_substitutes_silence (w : World) (chunk : Chunk) (i : nat) (tap : Tap) :
  taps w !! i = Some tap ->
  destroyed tap = false ->
  taps (broadcastChunk chunk w) !! i
    = Some (mkTap (tap_id tap) false
                  (written tap ++ [if paused w then SILENCE_FRAME else chunk]))
  /\ (paused w = true ->
      taps (broadcastChunk chunk w) !! i = Some (tap_write SILENCE_FRAME tap))
  /\ (paused w = false ->
      taps (broadcastChunk chunk w) !! i = Some (tap_write chunk tap))
  /\ (forall (pipe : nat) (p : Pipe) (now : Z),
        pipes w !! pipe = Some p -> out_destroyed p = false ->
        taps (on_data pipe chunk now w) !! i
        = Some (tap_write (if paused w then SILENCE_FRAME else chunk) tap)).
Proof.
  intros Hi Hlive. rewrite broadcastChunk_taps.
  rewrite (lookup_write_live _ _ _ _ Hi Hlive).
  split_and!.
  - unfold tap_write. by rewrite Hlive.
  - by intros ->.
  - by intros ->.
  - intros pipe p now Hp Hopen. rewrite (on_data_taps pipe chunk now w p) by done.
    by apply lookup_write_live.
Qed.

Lemma broadcastChunk_substitutes_silence_witness :
  taps (broadcastChunk audio (run session_paused (initial []))) !! 0%nat
  = Some (mkTap 0 false [SILENCE_FRAME; audio; SILENCE_FLUSH; SILENCE_FRAME])
  /\ taps (broadcastChunk audio (run session_started (initial []))) !! 0%nat
     = Some (mkTap 0 false [SILENCE_FRAME; audio; audio]).
Proof.
  split.
  - apply (proj1 (broadcastChunk_substitutes_silence
                    (run session_paused (initial [])) audio 0
                    (mkTap 0 false [SILENCE_FRAME; audio; SILENCE_FLUSH])
                    eq_refl eq_refl)).
  - apply (proj1 (broadcastChunk_substitutes_silence
                    (run session_started (initial [])) audio 0
                    (mkTap 0 false [SILENCE_FRAME; audio])
                    eq_refl eq_refl)).
Defined.

Lemma write_live_keeps (data : Chunk) (l : list Tap) :
  Forall (fun tap => destroyed tap = false) l ->
  Forall (fun tap => destroyed tap = false) (map (write_live data) l).
Proof.
  intros Hl. change (map (write_live data) l) with (write_live data <$> l).
  apply Forall_fmap. eapply Forall_impl; [exact Hl|].
  intros tap Htap. simpl. unfold write_live. by rewrite Htap.
Qed.

Lemma broadcastChunk_live chunk w : sinks_live w -> sinks_live (broadcastChunk chunk w).
Proof. apply write_live_keeps. Qed.

Lemma playNext_taps aw w : taps (snd (playNext aw w)) = taps w.
Proof.
  unfold playNext. destruct (playing w); [done|].
  destruct (queue w) as [|tr rest]; simpl; [done|].
  by destruct (Track.url tr =? EmptyString)%string.
Qed.

Lemma exec_sinks_live (e : Event) (w : World) : sinks_live w -> sinks_live (exec e w).
Proof.
  intros Hlive. destruct e; simpl; try exact Hlive.
  - unfold ensurePlaying. destruct (playing w || starting w); [done|].
    pose proof (playNext_taps true (set_starting true w)) as Htaps.
    destruct (playNext true (set_starting true w)) as [[] w1]; simpl in Htaps;
      unfold sinks_live; simpl; by rewrite Htaps.
  - unfold sinks_live. by rewrite playNext_taps.
  - unfold skipCurrent, sinks_live. fields. by destruct (stopCurrent w).
  - unfold setPaused, signal_encoder, flushWithSilence, sinks_live.
    repeat case_match; fields; try done; by apply write_live_keeps.
  - unfold attachClient, sinks_live. fields. apply Forall_app. split; [done|].
    by apply Forall_singleton.
  - unfold clientClose, sinks_live. fields.
    apply Forall_forall. intros t [_ Ht]%list_elem_of_filter.
    revert t Ht. by apply Forall_forall.
  - unfold silenceTick. case_match; [by apply broadcastChunk_live | done].
  - unfold fire. destruct (timers w !! n) as [[| |pipe]|]; simpl; try done.
    + unfold sinks_live. by rewrite playNext_taps.
    + unfold sinks_live. by rewrite playNext_taps.
    + unfold on_safety_timeout, sinks_live. fields. by repeat case_match.
  - unfold streamReady, playTrack_resume, finally_starting, sinks_live.
    destruct (starts w !! n) as [[tr []]|]; fields; try done;
      by destruct (Track.source tr).
  - unfold streamFailed, playNext_catch, finally_starting, sinks_live.
    by destruct (starts w !! n) as [[tr []]|]; fields.
  - unfold of_pipe, on_start, sinks_live. by repeat case_match.
  - unfold of_pipe, on_error, schedule_unless_skipping, sinks_live.
    fields. by repeat case_match.
  - unfold of_pipe, on_end, schedule_unless_skipping, sendSilence, sinks_live.
    fields. repeat case_match; try done; by apply write_live_keeps.
  - unfold of_pipe, on_output_error, schedule_unless_skipping, sinks_live.
    fields. by repeat case_match.
  - unfold on_data, sinks_live. fields.
    repeat case_match; fields; try done; by apply write_live_keeps.
Qed.

(** Whatever happens to a service, the sinks in its set are not destroyed:
    the only [tap.destroy()] is followed by [taps.delete(tap)]. *)
Lemma attached_sinks_live (es : list Event) (q : list Track.t) :
  sinks_live (run es (initial q)).
Proof.
  assert (Hgen : forall w, sinks_live w -> sinks_live (run es w)).
  { induction es as [|e es IH]; intros w Hw; [done|].
    simpl. apply IH. by apply exec_sinks_live. }
  apply Hgen. by apply Forall_nil.
Qed.

(** ** Pause and resume *)

Lemma set_paused_same (w : World) : set_paused (paused w) w = w.
Proof. by destruct w. Qed.

Lemma setPaused_same (w : World) (p : bool) (now : Z) :
  paused w = p -> setPaused p now w = w.
Proof.
  intros Hp. unfold setPaused. rewrite Hp. destruct p; simpl.
  - rewrite <- Hp. apply set_paused_same.
  - rewrite <- Hp. apply set_paused_same.
Qed.

Lemma signal_encoder_fields sig w :
  paused (signal_encoder sig w) = paused w
  /\ pausedAt (signal_encoder sig w) = pausedAt w
  /\ totalPausedDuration (signal_encoder sig w) = totalPausedDuration w
  /\ taps (signal_encoder sig w) = taps w.
Proof. unfold signal_encoder. by destruct (truthy_num _). Qed.

Lemma signal_encoder_known sig w pid :
  currentFfmpegPid w = Some pid -> pid <> 0 ->
  signals (signal_encoder sig w) = signals w ++ [(pid, sig)].
Proof.
  intros Hpid Hne. unfold signal_encoder.
  by rewrite Hpid, truthy_num_some.
Qed.

Lemma setPaused_true_paused now w : paused (setPaused true now w) = true.
Proof.
  unfold setPaused. simpl. destruct (paused w) eqn:Hp; simpl; [done|].
  by destruct (signal_encoder_fields SIGSTOP
                 (set_paused true (set_pausedAt (Some now) w))) as [-> _].
Qed.

(** C9.  [setPaused(p)] in a state whose [paused] flag already is [p]
    changes nothing: [pausedAt], [totalPausedDuration], the signals sent and
    the sinks are as before.  A second [setPaused(true)] right after a first
    one is such a call, whatever the state before the first, and so is
    [setPaused(false)] while not paused. *)
Theorem setPaused_same_flag_is_noop (w : World) (p : bool) (now : Z) :
  (paused w = p ->
   setPaused p now w = w
   /\ pausedAt (setPaused p now w) = pausedAt w
   /\ totalPausedDuration (setPaused p now w) = totalPausedDuration w
   /\ signals (setPaused p now w) = signals w
   /\ taps (setPaused p now w) = taps w)
  /\ (forall later : Z,
        setPaused true later (setPaused true now w) = setPaused true now w)
  /\ (paused w = false -> setPaused false now w = w).
Proof.
  split_and!.
  - intros Hp. by rewrite (setPaused_same w p now Hp).
  - intros later. apply setPaused_same, setPaused_true_paused.
  - apply setPaused_same.
Qed.

Lemma setPaused_same_flag_is_noop_witness :
  setPaused true 12000 (run session_paused (initial [])) = run session_paused (initial [])
  /\ setPaused false 12000 (run session_started (initial []))
     = run session_started (initial [])
  /\ setPaused true 12000 (setPaused true 11000 (run session_started (initial [])))
     = setPaused true 11000 (run session_started (initial [])).
Proof.
  split; [|split].
  - apply (proj1 (setPaused_same_flag_is_noop (run session_paused (initial [])) true 12000)).
    reflexivity.
  - apply (proj2 (proj2 (setPaused_same_flag_is_noop
                           (run session_started (initial [])) false 12000))).
    reflexivity.
  - apply (proj1 (proj2 (setPaused_same_flag_is_noop
                           (run session_started (initial [])) true 11000))).
Defined.

(** C5, amended.  [setPaused(true)] while not paused records
    [pausedAt = now], sets [paused] before anything is signalled or written,
    sends SIGSTOP to the encoder when its pid is known, and writes the flush
    block, 100 silence frames, to every attached sink that is not destroyed,
    which in a state the service can reach is every attached sink.
    [setPaused(false)] while paused with a recorded [pausedAt] adds
    [now - pausedAt] to [totalPausedDuration], clears [pausedAt] and
    [paused], and sends SIGCONT when the pid is known.  While paused with no
    recorded [pausedAt] (a track started during the pause) it only clears
    [paused]. *)
Theorem setPaused_pause_and_resume (w : World) (now : Z) :
  (paused w = false ->
   let w' := setPaused true now w in
   pausedAt w' = Some now /\ paused w' = true
   /\ totalPausedDuration w' = totalPausedDuration w
   /\ (exists w1 : World,
         paused w1 = true /\ pausedAt w1 = Some now
         /\ taps w1 = taps w /\ signals w1 = signals w
         /\ w' = flushWithSilence (signal_encoder SIGSTOP w1))
   /\ (forall pid : Z, currentFfmpegPid w = Some pid -> pid <> 0 ->
         signals w' = signals w ++ [(pid, SIGSTOP)])
   /\ (forall (i : nat) (tap : Tap), taps w !! i = Some tap -> destroyed tap = false ->
         taps w' !! i = Some (tap_write (concat (repeat SILENCE_FRAME 100)) tap))
   /\ (forall (es : list Event) (q : list Track.t), w = run es (initial q) ->
       forall (i : nat) (tap : Tap), taps w !! i = Some tap ->
         taps w' !! i = Some (tap_write (concat (repeat SILENCE_FRAME 100)) tap)))
  /\ (forall at_ : Z, paused w = true -> pausedAt w = Some at_ -> at_ <> 0 ->
      let w' := setPaused false now w in
      totalPausedDuration w' = totalPausedDuration w + (now - at_)
      /\ pausedAt w' = None /\ paused w' = false
      /\ taps w' = taps w
      /\ (forall pid : Z, currentFfmpegPid w = Some pid -> pid <> 0 ->
            signals w' = signals w ++ [(pid, SIGCONT)]))
  /\ (paused w = true -> truthy_num (pausedAt w) = false ->
      setPaused false now w = set_paused false w).
Proof.
  split_and!.
  - intros Hp. unfold setPaused. rewrite Hp. simpl.
    set (w1 := set_paused true (set_pausedAt (Some now) w)).
    destruct (signal_encoder_fields SIGSTOP w1) as (Hp1 & Hat1 & Htot1 & Htaps1).
    split_and!.
    + by rewrite Hat1.
    + by rewrite Hp1.
    + by rewrite Htot1.
    + by exists w1.
    + intros pid Hpid Hne. by rewrite (signal_encoder_known SIGSTOP w1 pid).
    + intros i tap Hi Hlive. rewrite Htaps1. by apply lookup_write_live.
    + intros es q Hw i tap Hi. rewrite Htaps1. apply lookup_write_live; [done|].
      pose proof (attached_sinks_live es q) as Hlive. rewrite <- Hw in Hlive.
      by apply (proj1 (Forall_lookup _ _) Hlive i tap).
  - intros at_ Hp Hat Hne. unfold setPaused. rewrite Hp, Hat, truthy_num_some by done.
    simpl.
    set (w1 := set_paused false (set_pausedAt None (set_totalPausedDuration _ w))).
    destruct (signal_encoder_fields SIGCONT w1) as (Hp1 & Hat1 & Htot1 & Htaps1).
    split_and!; [by rewrite Htot1 | by rewrite Hat1 | by rewrite Hp1 | by rewrite Htaps1 |].
    intros pid Hpid Hne'. by rewrite (signal_encoder_known SIGCONT w1 pid).
  - intros Hp Hat. unfold setPaused. by rewrite Hp, Hat.
Qed.

Lemma setPaused_pause_and_resume_witness :
  (pausedAt (setPaused true 11000 (run session_started (initial []))) = Some 11000
   /\ paused (setPaused true 11000 (run session_started (initial []))) = true
   /\ signals (setPaused true 11000 (run session_started (initial [])))
      = [(4242, SIGSTOP)]
   /\ taps (setPaused true 11000 (run session_started (initial []))) !! 0%nat
      = Some (mkTap 0 false [SILENCE_FRAME; audio; SILENCE_FLUSH]))
  /\ (totalPausedDuration (setPaused false 26000 (run session_paused (initial [])))
      = 15000
      /\ pausedAt (setPaused false 26000 (run session_paused (initial []))) = None
      /\ paused (setPaused false 26000 (run session_paused (initial []))) = false
      /\ signals (setPaused false 26000 (run session_paused (initial [])))
         = [(4242, SIGSTOP); (4242, SIGCONT)])
  /\ setPaused false 5000 (run session_paused_before_start (initial []))
     = set_paused false (run session_paused_before_start (initial [])).
Proof.
  split; [|split].
  - destruct (proj1 (setPaused_pause_and_resume (run session_started (initial [])) 11000))
      as (Hat & Hflag & _ & _ & Hstop & Hflush & _); [reflexivity|].
    split; [exact Hat|]. split; [exact Hflag|]. split.
    + apply (Hstop 4242); [reflexivity | lia].
    + apply (Hflush 0%nat (mkTap 0 false [SILENCE_FRAME; audio])); reflexivity.
  - destruct (proj1 (proj2 (setPaused_pause_and_resume
                              (run session_paused (initial [])) 26000)) 11000)
      as (Htotal & Hat & Hflag & _ & Hcont); [reflexivity | reflexivity | lia |].
    split; [exact Htotal|]. split; [exact Hat|]. split; [exact Hflag|].
    apply (Hcont 4242); [reflexivity | lia].
  - apply (proj2 (proj2 (setPaused_pause_and_resume
                           (run session_paused_before_start (initial [])) 5000)));
      reflexivity.
Defined.

(** The claim as the specification words it fails here: the service is
    paused, the encoder's pid is known, and [setPaused(false)] neither adds
    to [totalPausedDuration] nor sends SIGCONT. *)
Lemma resume_without_pausedAt_only_clears_flag :
  let w := run session_paused_before_start (initial []) in
  paused w = true /\ currentFfmpegPid w = Some 4242 /\ pausedAt w = None
  /\ totalPausedDuration (setPaused false 5000 w) = totalPausedDuration w
  /\ signals (setPaused false 5000 w) = []
  /\ signals (setPaused false 5000 w) <> signals w ++ [(4242, SIGCONT)].
Proof. vm_compute. split_and!; try reflexivity. discriminate. Qed.

(** ** Starting playback *)

Lemma finally_starting_clears (w : World) : starting (finally_starting true w) = false.
Proof. reflexivity. Qed.

Lemma playNext_pending (aw : bool) (w w1 : World) :
  playNext aw w = (Pending, w1) ->
  exists (tr : Track.t) (rest : list Track.t),
    queue w = tr :: rest /\ queue w1 = rest /\ Track.url tr <> EmptyString
    /\ starts w1 = starts w ++ [mkStart tr aw]
    /\ starting w1 = starting w /\ playing w1 = false /\ playing w = false.
Proof.
  unfold playNext. destruct (playing w) eqn:Hplaying; [discriminate|].
  destruct (queue w) as [|tr rest] eqn:Hq; simpl; [discriminate|].
  destruct (Track.url tr =? EmptyString)%string eqn:Hurl; [discriminate|].
  intros [= <-]. exists tr, rest. simpl.
  split_and!; try done. by apply String.eqb_neq.
Qed.

Lemma filter_delete_length {A} (f : A -> bool) (l : list A) (n : nat) (x : A) :
  l !! n = Some x ->
  length (List.filter f l)
  = (length (List.filter f (delete n l)) + if f x then 1 else 0)%nat.
Proof.
  revert n. induction l as [|a l IH]; intros [|n] Hx; simpl in *; try discriminate.
  - injection Hx as ->. destruct (f x); simpl; lia.
  - specialize (IH n Hx). destruct (f a); simpl; lia.
Qed.

Lemma playNext_starting (aw : bool) (w : World) :
  starting (snd (playNext aw w)) = starting w
  /\ (fst (playNext aw w) = Settled -> starts (snd (playNext aw w)) = starts w)
  /\ (fst (playNext aw w) = Pending ->
      exists tr, starts (snd (playNext aw w)) = starts w ++ [mkStart tr aw]).
Proof.
  unfold playNext. destruct (playing w); [done|].
  destruct (queue w) as [|tr rest]; simpl; [done|].
  destruct (Track.url tr =? EmptyString)%string; simpl; [done|].
  split_and!; [done | done | by exists tr].
Qed.

Lemma awaited_starts_app (w : World) (l : list Start) (tr : Track.t) (aw : bool) :
  length (List.filter awaited (l ++ [mkStart tr aw]))
  = (length (List.filter awaited l) + if aw then 1 else 0)%nat.
Proof. rewrite List.filter_app, length_app. by destruct aw. Qed.

Lemma playNext_unawaited_keeps (w : World) :
  starting_tracks_await w -> starting_tracks_await (snd (playNext false w)).
Proof.
  unfold starting_tracks_await, awaited_starts. intros Hw.
  destruct (playNext_starting false w) as (Hst & Hsettled & Hpending).
  rewrite Hst. destruct (fst (playNext false w)) eqn:Hout.
  - by rewrite Hsettled.
  - destruct Hpending as [tr ->]; [done|].
    rewrite (awaited_starts_app w). simpl. lia.
Qed.

Lemma settle_start_keeps (w : World) (n : nat) (st : Start) (f : World -> World) :
  starts w !! n = Some st ->
  (forall w0, starts (f w0) = starts w0 /\ starting (f w0) = starting w0) ->
  starting_tracks_await w ->
  starting_tracks_await
    (finally_starting (awaited st) (f (set_starts (delete n (starts w)) w))).
Proof.
  unfold starting_tracks_await, awaited_starts. intros Hst Hf Hw.
  rewrite (filter_delete_length awaited _ n st Hst) in Hw.
  destruct (Hf (set_starts (delete n (starts w)) w)) as [Hstarts Hstarting].
  unfold finally_starting. destruct (awaited st); simpl in *.
  - rewrite Hstarts. simpl. destruct (starting w); lia.
  - rewrite Hstarts, Hstarting. simpl. lia.
Qed.

Lemma exec_starting_tracks_await (e : Event) (w : World) :
  starting_tracks_await w -> starting_tracks_await (exec e w).
Proof.
  intros Hw. destruct e; simpl; try exact Hw.
  - unfold ensurePlaying. destruct (playing w || starting w) eqn:Hbusy; [done|].
    apply orb_false_iff in Hbusy as [_ Hidle].
    unfold starting_tracks_await, awaited_starts in *. rewrite Hidle in Hw.
    destruct (playNext_starting true (set_starting true w)) as (Hst & Hsettled & Hpending).
    destruct (playNext true (set_starting true w)) as [[] w1]; simpl in *.
    + by rewrite Hsettled.
    + destruct Hpending as [tr ->]; [done|].
      rewrite Hst, (awaited_starts_app w). simpl. lia.
  - by apply playNext_unawaited_keeps.
  - unfold skipCurrent. unchanged.
  - unfold setPaused, signal_encoder, flushWithSilence. unchanged.
  - unfold silenceTick. by case_match.
  - unfold fire. destruct (timers w !! n) as [[| |pipe]|]; simpl; try done.
    + by apply (playNext_unawaited_keeps
                  (set_skipping false (set_timers (delete n (timers w)) w))).
    + by apply (playNext_unawaited_keeps (set_timers (delete n (timers w)) w)).
    + unfold on_safety_timeout. unchanged.
  - unfold streamReady. destruct (starts w !! n) as [st|] eqn:Hst; [|done].
    apply (settle_start_keeps w n st (playTrack_resume (s_track st))); [done| |done].
    intros w0. unfold playTrack_resume. fields. by destruct (Track.source _).
  - unfold streamFailed. destruct (starts w !! n) as [st|] eqn:Hst; [|done].
    by apply (settle_start_keeps w n st playNext_catch).
  - unfold of_pipe, on_start. unchanged.
  - unfold of_pipe, on_error, schedule_unless_skipping. unchanged.
  - unfold of_pipe, on_end, schedule_unless_skipping, sendSilence. unchanged.
  - unfold of_pipe, on_output_error, schedule_unless_skipping. unchanged.
  - unfold on_data. unchanged.
Qed.

(** In every state the service reaches, [starting] is set exactly while the
    [playNext] of one [ensurePlaying] call has not settled. *)
Lemma starting_while_awaited (es : list Event) (q : list Track.t) :
  starting_tracks_await (run es (initial q)).
Proof.
  assert (Hgen : forall w, starting_tracks_await w -> starting_tracks_await (run es w)).
  { induction es as [|e es IH]; intros w Hw; [done|].
    simpl. apply IH. by apply exec_starting_tracks_await. }
  by apply Hgen.
Qed.

(** C7.  With [playing] or [starting] set, [ensurePlaying] returns the
    state it was given, so calling it again changes nothing either.  With
    both flags clear it sets [starting] and runs [playNext]: when that call
    settles at once, [starting] is clear on return; when it waits for the
    stream, [starting] stays set and the waiting start is marked as awaited,
    and [starting] is cleared when the stream opens or fails.  In every state
    the service reaches, [starting] is set exactly while one such call
    waits. *)
Theorem ensurePlaying_guarded (w : World) :
  (playing w || starting w = true ->
   ensurePlaying w = w /\ ensurePlaying (ensurePlaying w) = ensurePlaying w)
  /\ (playing w = false -> starting w = false ->
      forall (o : Outcome) (w1 : World),
        playNext true (set_starting true w) = (o, w1) ->
        match o with
        | Settled =>
            ensurePlaying w = set_starting false w1
            /\ starting (ensurePlaying w) = false
        | Pending =>
            ensurePlaying w = w1 /\ starting w1 = true
            /\ exists tr : Track.t, starts w1 = starts w ++ [mkStart tr true]
        end)
  /\ (forall (n : nat) (st : Start),
        starts w !! n = Some st -> awaited st = true ->
        starting (streamReady n w) = false /\ starting (streamFailed n w) = false)
  /\ (forall (es : list Event) (q : list Track.t),
        w = run es (initial q) ->
        length (List.filter awaited (starts w)) = if starting w then 1%nat else 0%nat).
Proof.
  split_and!.
  - intros Hbusy. assert (Hsame : ensurePlaying w = w).
    { unfold ensurePlaying. by rewrite Hbusy. }
    by rewrite !Hsame.
  - intros Hplaying Hstarting o w1 Hnext. unfold ensurePlaying.
    rewrite Hplaying, Hstarting. simpl. rewrite Hnext. destruct o; [done|].
    apply playNext_pending in Hnext as (tr & rest & _ & _ & _ & Hstarts & Hst & _).
    split_and!; [done | by rewrite Hst | by exists tr].
  - intros n st Hn Haw. unfold streamReady, streamFailed. rewrite Hn, Haw. done.
  - intros es q ->. apply starting_while_awaited.
Qed.

Lemma ensurePlaying_guarded_witness :
  ensurePlaying (run session_starting (initial [])) = run session_starting (initial [])
  /\ starts (ensurePlaying (run [Enqueue "id-1" payload_a] (initial [])))
     = [mkStart T1 true]
  /\ starting (ensurePlaying (run [Enqueue "id-1" payload_a] (initial []))) = true
  /\ starting (streamReady 0 (run session_starting (initial []))) = false
  /\ starting (ensurePlaying (initial [])) = false.
Proof.
  split; [|split; [|split; [|split]]].
  - apply (proj1 (ensurePlaying_guarded (run session_starting (initial [])))).
    reflexivity.
  - destruct (proj1 (proj2 (ensurePlaying_guarded
                              (run [Enqueue "id-1" payload_a] (initial []))))
                eq_refl eq_refl Pending
                (run [Enqueue "id-1" payload_a; EnsurePlaying] (initial [])) eq_refl)
      as (Hsame & _ & _).
    rewrite Hsame. reflexivity.
  - destruct (proj1 (proj2 (ensurePlaying_guarded
                              (run [Enqueue "id-1" payload_a] (initial []))))
                eq_refl eq_refl Pending
                (run [Enqueue "id-1" payload_a; EnsurePlaying] (initial [])) eq_refl)
      as (Hsame & Hflag & _).
    rewrite Hsame. exact Hflag.
  - apply (proj1 (proj2 (proj2 (ensurePlaying_guarded
                                  (run session_starting (initial [])))))
             0%nat (mkStart T1 true)); reflexivity.
  - destruct (proj1 (proj2 (ensurePlaying_guarded (initial [])))
                eq_refl eq_refl Settled (set_starting true (initial [])) eq_refl)
      as (_ & Hflag).
    exact Hflag.
Defined.

Lemma playNext_head (aw : bool) (w : World) (tr : Track.t) (rest : list Track.t) :
  playing w = false -> queue w = tr :: rest -> Track.url tr <> EmptyString ->
  playNext aw w = (Pending, set_starts (starts w ++ [mkStart tr aw]) (set_queue rest w)).
Proof.
  intros Hplaying Hq Hurl. unfold playNext. rewrite Hplaying, Hq. simpl.
  apply String.eqb_neq in Hurl. by rewrite Hurl.
Qed.

(** C10, amended.  [skipCurrent] with no current track and [playing] clear
    still changes the state: it sets [skipping], clears [stopCurrent] and the
    encoder pid, and schedules the deferred [playNext].  When that timer
    fires with nothing playing and a track with a url at the head of the
    queue, the head is dequeued, and it is the current track once its stream
    has opened; this is so when the timer is the next thing to happen after
    the skip.  When it fires while [playing] holds, the deferred [playNext]
    returns at once: [skipping] is cleared and nothing else changes. *)
Theorem skipCurrent_from_idle_starts_playback (w : World) :
  currentTrack w = None ->
  playing w = false ->
  (skipCurrent w <> w
   /\ skipping (skipCurrent w) = true
   /\ stopCurrent (skipCurrent w) = None
   /\ currentFfmpegPid (skipCurrent w) = None
   /\ queue (skipCurrent w) = queue w
   /\ playing (skipCurrent w) = false
   /\ timers (skipCurrent w) = timers w ++ [TSkip])
  /\ (forall (w2 : World) (n : nat) (tr : Track.t) (rest : list Track.t),
        timers w2 !! n = Some TSkip ->
        playing w2 = false ->
        queue w2 = tr :: rest ->
        Track.url tr <> EmptyString ->
        let w3 := fire n w2 in
        queue w3 = rest /\ skipping w3 = false
        /\ starts w3 = starts w2 ++ [mkStart tr false]
        /\ currentTrack (streamReady (length (starts w2)) w3) = Some tr
        /\ playing (streamReady (length (starts w2)) w3) = true)
  /\ (forall (tr : Track.t) (rest : list Track.t),
        queue w = tr :: rest ->
        Track.url tr <> EmptyString ->
        let w3 := fire (length (timers w)) (skipCurrent w) in
        queue w3 = rest /\ skipping w3 = false
        /\ starts w3 = starts w ++ [mkStart tr false]
        /\ currentTrack (streamReady (length (starts w)) w3) = Some tr
        /\ playing (streamReady (length (starts w)) w3) = true)
  /\ (forall (w2 : World) (n : nat),
        timers w2 !! n = Some TSkip ->
        playing w2 = true ->
        fire n w2 = set_skipping false (set_timers (delete n (timers w2)) w2)
        /\ queue (fire n w2) = queue w2
        /\ currentTrack (fire n w2) = currentTrack w2
        /\ starts (fire n w2) = starts w2).
Proof.
  intros Hcur Hplaying.
  assert (Hfields : skipping (skipCurrent w) = true
                    /\ stopCurrent (skipCurrent w) = None
                    /\ currentFfmpegPid (skipCurrent w) = None
                    /\ queue (skipCurrent w) = queue w
                    /\ playing (skipCurrent w) = false
                    /\ timers (skipCurrent w) = timers w ++ [TSkip]
                    /\ starts (skipCurrent w) = starts w).
  { unfold skipCurrent. fields. by destruct (stopCurrent w) eqn:Hstop; fields. }
  assert (Hfires : forall (w2 : World) (n : nat) (tr : Track.t) (rest : list Track.t),
            timers w2 !! n = Some TSkip ->
            playing w2 = false ->
            queue w2 = tr :: rest ->
            Track.url tr <> EmptyString ->
            queue (fire n w2) = rest /\ skipping (fire n w2) = false
            /\ starts (fire n w2) = starts w2 ++ [mkStart tr false]
            /\ currentTrack (streamReady (length (starts w2)) (fire n w2)) = Some tr
            /\ playing (streamReady (length (starts w2)) (fire n w2)) = true).
  { intros w2 n tr rest Hn Hp2 Hq2 Hurl.
    unfold fire. rewrite Hn. simpl.
    rewrite (playNext_head false _ tr rest) by done. simpl.
    split_and!; try done.
    + unfold streamReady. simpl. rewrite lookup_app_r by lia.
      rewrite Nat.sub_diag. simpl. by destruct (Track.source tr).
    + unfold streamReady. simpl. rewrite lookup_app_r by lia.
      rewrite Nat.sub_diag. simpl. by destruct (Track.source tr). }
  destruct Hfields as (Hskipping & Hstop & Hpid & Hqueue & Hidle & Htimers & Hstarts).
  split_and!; try done.
  - intros Heq. rewrite Heq in Htimers. apply (f_equal length) in Htimers.
    rewrite length_app in Htimers. simpl in Htimers. lia.
  - intros tr rest Hq Hurl. simpl. rewrite <- Hstarts.
    apply Hfires; [|done | congruence | done].
    rewrite Htimers, lookup_app_r by lia. by rewrite Nat.sub_diag.
  - intros w2 n Hn Hp2. unfold fire. rewrite Hn. simpl.
    unfold playNext. simpl. rewrite Hp2. done.
Qed.

Lemma skipCurrent_from_idle_starts_playback_witness :
  timers (skipCurrent (run session_failed (initial []))) = [TPlayNext 1000; TSkip]
  /\ queue (fire 1 (skipCurrent (run session_failed (initial [])))) = []
  /\ currentTrack
       (streamReady 0 (fire 1 (skipCurrent (run session_failed (initial [])))))
     = Some T2
  /\ queue (fire 0 (run session_skip_while_loading (initial []))) = [T2].
Proof.
  destruct (skipCurrent_from_idle_starts_playback (run session_failed (initial [])))
    as ((_ & _ & _ & _ & _ & _ & Htimers) & _ & Hnext & Hbusy);
    [reflexivity | reflexivity |].
  split; [exact Htimers|].
  destruct (Hnext T2 []) as (Hqueue & _ & _ & Hcurrent & _);
    [reflexivity | discriminate |].
  split; [exact Hqueue|]. split; [exact Hcurrent|].
  destruct (Hbusy (run session_skip_while_loading (initial [])) 0%nat)
    as (_ & Hkept & _); [reflexivity | reflexivity |].
  rewrite Hkept. reflexivity.
Defined.

(** The claim as the specification words it fails here.  Skip is called
    with no current track and nothing playing, while the stream of the first
    track is being opened.  The stream opens before the timer of the
    skip fires, so the deferred [playNext] finds [playing] set and returns:
    the queue is not empty, and its head is neither dequeued nor made the
    current track, then or once every stream has opened. *)
Lemma deferred_playNext_returns_while_playing :
  currentTrack (run session_starting (initial [])) = None
  /\ playing (run session_starting (initial [])) = false
  /\ timers (run session_skip_while_loading (initial [])) !! 0%nat = Some TSkip
  /\ queue (run session_skip_while_loading (initial [])) = [T2]
  /\ queue (fire 0 (run session_skip_while_loading (initial []))) = [T2]
  /\ starts (fire 0 (run session_skip_while_loading (initial []))) = []
  /\ currentTrack (fire 0 (run session_skip_while_loading (initial []))) = Some T1
  /\ currentTrack (fire 0 (run session_skip_while_loading (initial []))) <> Some T2.
Proof. split_and!; try reflexivity. discriminate. Qed.

(** ** The current track is not in the queue *)

Lemma NoDup_submseteq_inv {A} (l k : list A) : l ⊆+ k -> NoDup k -> NoDup l.
Proof.
  intros Hsub Hnd. apply submseteq_Permutation in Hsub as [k' Hk].
  rewrite Hk in Hnd. by apply NoDup_app in Hnd as [? _].
Qed.

Lemma hands_over_refl w : hands_over w w.
Proof. split; [done | by left]. Qed.

Lemma hands_over_trans w1 w2 w3 :
  hands_over w1 w2 -> hands_over w2 w3 -> hands_over w1 w3.
Proof.
  intros [Hq12 Ht12] [Hq23 Ht23]. split; [by etrans|].
  intros Hnd x Hx.
  destruct (Ht23 (NoDup_submseteq_inv _ _ Hq12 Hnd) x Hx) as [Hx2 | [Hx2 Hx3]].
  - destruct (Ht12 Hnd x Hx2) as [? | [? Hnot]]; [by left | right].
    split; [done|]. intros Hin. apply Hnot. by eapply elem_of_submseteq.
  - right. split; [|done]. by eapply elem_of_submseteq.
Qed.

Lemma hands_over_owned used w w' :
  hands_over w w' -> owned used w -> owned used w'.
Proof.
  intros [Hq Ht] [Hnd Hqu Htu Hta]. split.
  - by eapply NoDup_submseteq_inv.
  - intros x Hx. apply Hqu. by eapply elem_of_submseteq.
  - intros x Hx. destruct (Ht Hnd x Hx) as [? | [? _]]; auto.
  - intros x Hx. destruct (Ht Hnd x Hx) as [Hold | [_ ?]]; [|done].
    intros Hin. apply (Hta x Hold). by eapply elem_of_submseteq.
Qed.

(** A step that leaves the queue alone and takes nothing new. *)
Lemma hands_over_frame w w' :
  queue w' = queue w -> (forall x, taken_id w' x -> taken_id w x) -> hands_over w w'.
Proof.
  intros Hq Ht. split; [unfold queued_ids; by rewrite Hq|]. intros _ x Hx. left. auto.
Qed.

Lemma hands_over_set_queue w (q : list Track.t) :
  Track.id <$> q ⊆+ queued_ids w -> hands_over w (set_queue q w).
Proof. intros Hq. split; [done|]. intros _ x Hx. by left. Qed.

Lemma exec_queue_hands_over (e : Event) (w : World) :
  match e with
  | Dequeue | Remove _ | Move _ _ | Clear => hands_over w (exec e w)
  | _ => True
  end.
Proof.
  destruct e; try done; simpl; apply hands_over_set_queue; unfold queued_ids.
  - apply fmap_submseteq, sublist_submseteq.
    destruct (queue w); simpl; [done|]. by apply sublist_cons.
  - apply fmap_submseteq, sublist_submseteq, remove_sublist.
  - apply fmap_submseteq, Permutation_submseteq, move_permutation.
  - apply submseteq_nil_l.
Qed.

Lemma taken_id_current w tr : currentTrack w = Some tr -> taken_id w (Track.id tr).
Proof. intros H. left. eauto. Qed.

Lemma playNext_hands_over aw w : hands_over w (snd (playNext aw w)).
Proof.
  unfold playNext. destruct (playing w); [apply hands_over_refl|].
  destruct (queue w) as [|tr rest] eqn:Hq; simpl.
  - apply hands_over_frame; [by fields|].
    unfold taken_id. fields. naive_solver.
  - assert (Hsub : queued_ids (set_queue rest w) ⊆+ queued_ids w).
    { unfold queued_ids. rewrite Hq. simpl. by apply submseteq_cons. }
    destruct (Track.url tr =? EmptyString)%string.
    + split; [done|]. intros _ x Hx. left. revert Hx.
      unfold taken_id, playNext_catch. fields. naive_solver.
    + split; [done|]. intros Hnd x Hx.
      unfold queued_ids in *. rewrite Hq in *. simpl in *.
      apply NoDup_cons in Hnd as [Hnot _].
      revert Hx. unfold taken_id. fields.
      rewrite fmap_app, elem_of_app. simpl. rewrite list_elem_of_singleton.
      intros [?|[?|[[?| ->]|?]]];
        [left; by left | left; right; by left | left; right; right; by left |
        | left; by do 3 right].
      right. split; [by left | done].
Qed.

Lemma fmap_alter_same {A B} (g : A -> B) (f : A -> A) (i : nat) (l : list A) :
  (forall x, g (f x) = g x) -> g <$> alter f i l = g <$> l.
Proof.
  intros Hg. revert i. induction l as [|a l IH]; intros [|i]; simpl; [done..| |].
  - by rewrite Hg.
  - f_equal. apply IH.
Qed.

Lemma fmap_insert_same {A B} (g : A -> B) (i : nat) (l : list A) (y old : A) :
  l !! i = Some old -> g y = g old -> g <$> <[i:=y]> l = g <$> l.
Proof.
  intros Hold Hg. rewrite list_fmap_insert. apply list_insert_id.
  by rewrite list_lookup_fmap, Hold, Hg.
Qed.

Lemma elem_of_fmap_delete {A B} (g : A -> B) (i : nat) (l : list A) (x : B) :
  x ∈ g <$> delete i l -> x ∈ g <$> l.
Proof.
  intros Hx. eapply elem_of_sublist; [exact Hx|].
  apply fmap_sublist, sublist_delete.
Qed.

Lemma setPaused_hands_over p now w : hands_over w (setPaused p now w).
Proof.
  unfold setPaused, signal_encoder, flushWithSilence.
  repeat case_match; frame.
Qed.

Lemma sink_hands_over w :
  hands_over w (attachClient w)
  /\ (forall tap, hands_over w (clientClose tap w))
  /\ hands_over w (silenceTick w)
  /\ hands_over w (sendSilence w).
Proof.
  unfold attachClient, clientClose, silenceTick, sendSilence, broadcastChunk.
  split_and!; intros; repeat case_match; frame.
Qed.

Lemma skipCurrent_hands_over w : hands_over w (skipCurrent w).
Proof.
  unfold skipCurrent. fields. destruct (stopCurrent w).
  - apply hands_over_frame; [done|]. unfold taken_id. simpl.
    rewrite fmap_alter_same by done. naive_solver.
  - frame.
Qed.

Lemma ensurePlaying_hands_over w : hands_over w (ensurePlaying w).
Proof.
  unfold ensurePlaying. destruct (playing w || starting w); [apply hands_over_refl|].
  apply (hands_over_trans _ (set_starting true w)); [frame|].
  pose proof (playNext_hands_over true (set_starting true w)) as Hnext.
  destruct (playNext true (set_starting true w)) as [[] w1]; simpl in Hnext; [|done].
  apply (hands_over_trans _ w1); [done|]. unfold finally_starting. frame.
Qed.

Lemma finally_hands_over aw w : hands_over w (finally_starting aw w).
Proof. unfold finally_starting. destruct aw; [frame | apply hands_over_refl]. Qed.

Lemma streamReady_hands_over n w : hands_over w (streamReady n w).
Proof.
  unfold streamReady. destruct (starts w !! n) as [st|] eqn:Hst; [|apply hands_over_refl].
  eapply hands_over_trans; [|apply finally_hands_over].
  apply hands_over_frame; [unfold playTrack_resume; fields; by destruct (Track.source _)|].
  assert (Hin : start_id st ∈ start_id <$> starts w).
  { apply list_elem_of_fmap_2. by eapply list_elem_of_lookup_2. }
  intros x. unfold taken_id, playTrack_resume. fields.
  destruct (Track.source (s_track st)); simpl;
    rewrite fmap_app, elem_of_app; simpl; rewrite list_elem_of_singleton;
    (intros [(? & [= <-] & <-)|[(? & [= <-] & <-)|[?|[?| ->]]]];
     [by do 2 right; left | by do 2 right; left
     | do 2 right; left; by eapply elem_of_fmap_delete
     | by do 3 right | by do 2 right; left]).
Qed.

Lemma streamFailed_hands_over n w : hands_over w (streamFailed n w).
Proof.
  unfold streamFailed. destruct (starts w !! n) as [st|] eqn:Hst; [|apply hands_over_refl].
  eapply hands_over_trans; [|apply finally_hands_over].
  apply hands_over_frame; [by unfold playNext_catch; fields|].
  intros x. unfold taken_id, playNext_catch. fields.
  intros [(? & [=] & _)|[(? & [=] & _)|[?|?]]]; auto.
  right; right; left; by eapply elem_of_fmap_delete.
Qed.

Lemma encoder_hands_over w :
  (forall pid, hands_over w (on_start pid w))
  /\ hands_over w (on_error w)
  /\ hands_over w (on_end w)
  /\ hands_over w (on_output_error w).
Proof.
  unfold on_start, on_error, on_end, on_output_error, schedule_unless_skipping,
    sendSilence, broadcastChunk.
  split_and!; intros; fields; repeat case_match; frame.
Qed.

Lemma of_pipe_hands_over pipe f w :
  hands_over w (f w) -> hands_over w (of_pipe pipe f w).
Proof. unfold of_pipe. destruct (pipes w !! pipe); [done | intros; apply hands_over_refl]. Qed.

Lemma on_data_hands_over pipe chunk now w : hands_over w (on_data pipe chunk now w).
Proof.
  unfold on_data. destruct (pipes w !! pipe) as [p|] eqn:Hp; [|apply hands_over_refl].
  destruct (out_destroyed p); [apply hands_over_refl|].
  assert (Hin : pipe_id p ∈ pipe_id <$> pipes w).
  { apply list_elem_of_fmap_2. by eapply list_elem_of_lookup_2. }
  destruct (hasStarted p); simpl.
  - unfold broadcastChunk. frame.
  - unfold broadcastChunk. apply hands_over_frame; [by fields|].
    intros x. unfold taken_id. fields.
    rewrite (fmap_insert_same pipe_id pipe (pipes w) _ p) by done.
    intros [(? & [= <-] & <-)|[(? & [= <-] & <-)|[?|?]]]; auto.
Qed.

Lemma on_safety_timeout_hands_over pipe w : hands_over w (on_safety_timeout pipe w).
Proof.
  unfold on_safety_timeout. destruct (pipes w !! pipe) as [p|] eqn:Hp; [|apply hands_over_refl].
  case_match; [|apply hands_over_refl].
  apply hands_over_frame; [by fields|].
  intros x. unfold taken_id. fields.
  rewrite (fmap_insert_same pipe_id pipe (pipes w) _ p) by done. naive_solver.
Qed.

Lemma fire_hands_over n w : hands_over w (fire n w).
Proof.
  unfold fire. destruct (timers w !! n) as [tm|]; [|apply hands_over_refl].
  apply (hands_over_trans _ (set_timers (delete n (timers w)) w)); [frame|].
  destruct tm; simpl.
  - eapply hands_over_trans; [|apply playNext_hands_over]. frame.
  - apply playNext_hands_over.
  - apply on_safety_timeout_hands_over.
Qed.

Lemma exec_hands_over (e : Event) (w : World) :
  match e with
  | Enqueue _ _ => True
  | _ => hands_over w (exec e w)
  end.
Proof.
  destruct e; try done; simpl.
  - apply (exec_queue_hands_over Dequeue).
  - apply (exec_queue_hands_over (Remove trackId)).
  - apply (exec_queue_hands_over (Move trackId newIndex)).
  - apply (exec_queue_hands_over Clear).
  - apply ensurePlaying_hands_over.
  - apply playNext_hands_over.
  - apply skipCurrent_hands_over.
  - apply setPaused_hands_over.
  - apply sink_hands_over.
  - apply sink_hands_over.
  - apply sink_hands_over.
  - apply fire_hands_over.
  - apply streamReady_hands_over.
  - apply streamFailed_hands_over.
  - apply of_pipe_hands_over, encoder_hands_over.
  - apply of_pipe_hands_over, encoder_hands_over.
  - apply of_pipe_hands_over, encoder_hands_over.
  - apply of_pipe_hands_over, encoder_hands_over.
  - apply on_data_hands_over.
Qed.

Lemma enqueue_owned used uuid payload w :
  uuid ∉ used -> owned used w -> owned (uuid :: used) (exec (Enqueue uuid payload) w).
Proof.
  intros Hfresh [Hnd Hqu Htu Hta]. split.
  - unfold queued_ids. simpl. rewrite fmap_app. simpl.
    apply NoDup_app. split_and!; [done | | apply NoDup_singleton].
    intros x Hx ->%list_elem_of_singleton. by apply Hfresh, Hqu.
  - intros x. unfold queued_ids. simpl. rewrite fmap_app, elem_of_app. simpl.
    rewrite list_elem_of_singleton. intros [Hx| ->]; [right; by apply Hqu | by left].
  - intros x Hx. right. by apply Htu.
  - intros x Hx. unfold queued_ids. simpl. rewrite fmap_app, elem_of_app. simpl.
    rewrite list_elem_of_singleton. intros [Hq| ->]; [by apply (Hta x Hx)|].
    by apply Hfresh, Htu.
Qed.

Lemma initial_owned : owned [] (initial []).
Proof.
  split; try done.
  - apply NoDup_nil_2.
  - intros x [(? & [=] & _)|[(? & [=] & _)|[Hx|Hx]]]; by apply elem_of_nil in Hx.
  - intros x [(? & [=] & _)|[(? & [=] & _)|[Hx|Hx]]]; by apply elem_of_nil in Hx.
Qed.

Lemma run_owned (es : list Event) (used : list string) (w : World) :
  owned used w -> NoDup (uuids es) -> (forall x, x ∈ uuids es -> x ∉ used) ->
  exists used', owned used' (run es w).
Proof.
  revert used w. induction es as [|e es IH]; intros used w Hown Hnd Hfresh.
  - by exists used.
  - pose proof (exec_hands_over e w) as Hstep.
    destruct e; simpl in Hnd, Hfresh;
      try (apply (IH used); [by eapply hands_over_owned | done | done]).
    apply NoDup_cons in Hnd as [Hnot Hnd].
    apply (IH (uuid :: used)); [|done|].
    + apply enqueue_owned; [|done]. apply Hfresh. by left.
    + intros x Hx [->|Hin]%elem_of_cons; [done|]. apply (Hfresh x); [by right | done].
Qed.

Lemma getState_current_taken (w : World) (tr : Track.t) :
  StreamState.current (getState w) = Some tr -> taken_id w (Track.id tr).
Proof.
  unfold getState. simpl. intros Hcur.
  assert (Hsrc : exists tr0,
            match currentTrack w with Some c => Some c | None => lastPlayedTrack w end
            = Some tr0 /\ Track.id tr0 = Track.id tr).
  { destruct (match currentTrack w with Some c => Some c | None => lastPlayedTrack w end)
      as [tr0|]; [|done].
    exists tr0. split; [done|]. destruct (truthy_num _); by injection Hcur as <-. }
  destruct Hsrc as (tr0 & Hsrc & Hid). unfold taken_id.
  destruct (currentTrack w) as [c|]; [left | right; left]; eauto.
Qed.

(** C2.  After any sequence of events on a service built with an empty
    queue, in which [randomUUID()] never returned the same id twice, the
    track [getState] reports as [current] has an id that no track of the
    reported [queue] has. *)
Theorem current_track_is_not_queued (es : list Event) (tr : Track.t) :
  NoDup (uuids es) ->
  StreamState.current (getState (run es (initial []))) = Some tr ->
  Track.id tr ∉ map Track.id (StreamState.queue (getState (run es (initial [])))).
Proof.
  intros Hnd Hcur.
  destruct (run_owned es [] (initial []) initial_owned Hnd) as [used Hown].
  { intros x _ Hx. by apply elem_of_nil in Hx. }
  apply (taken_apart _ _ Hown). by apply getState_current_taken.
Qed.

Lemma current_track_is_not_queued_witness :
  "id-1" ∉ map Track.id
    (StreamState.queue
       (getState (run (session_started
                       ++ [Enqueue "id-2" payload_b; Enqueue "id-3" payload_c;
                           Move "id-3" 0])
                      (initial [])))).
Proof.
  apply (current_track_is_not_queued
           (session_started
            ++ [Enqueue "id-2" payload_b; Enqueue "id-3" payload_c; Move "id-3" 0])
           (Track.with_startedAt 1000 T1)).
  - apply (bool_decide_unpack _). vm_compute. exact I.
  - reflexivity.
Defined.

(** ** The generic HTTP fetch *)

Section FetchFacts.
Variable get : bool -> string -> list (string * string) -> nat -> Hop.
Variable resolve_location : string -> string -> option string.

Abbreviation fetch := (fetchRemoteStream get resolve_location).

Lemma settle_resolved (res res' : Response) :
  settle res = Resolved res' ->
  res' = res /\ is_failure_status res = false
  /\ isAudio (contentType_of res) || isHls (contentType_of res) = true.
Proof.
  unfold settle. destruct (is_failure_status res); [discriminate|].
  destruct (isAudio _), (isHls _); simpl; try discriminate; by intros [= ->].
Qed.

Lemma fetch_too_deep target headers (redirects : nat) :
  (5 < redirects)%nat -> fetch target headers redirects = ([], Rejected TooManyRedirects).
Proof.
  intros Hdeep. simp fetchRemoteStream.
  destruct (le_lt_dec redirects 5); [lia|]. done.
Qed.

Lemma fetch_answer target headers (redirects : nat) (res : Response) :
  (redirects <= 5)%nat ->
  get (startsWith "https:" target) target headers redirects = Answer res ->
  is_redirect res = false ->
  fetch target headers redirects = ([target], settle res).
Proof.
  intros Hdepth Hget Hred. simp fetchRemoteStream.
  destruct (le_lt_dec redirects 5); [|lia]. simpl.
  rewrite Hget. simpl. rewrite Hred. done.
Qed.

Lemma fetch_redirect target headers (redirects : nat) (res : Response) (nextUrl : string) :
  (redirects <= 5)%nat ->
  get (startsWith "https:" target) target headers redirects = Answer res ->
  is_redirect res = true ->
  resolve_location (default EmptyString (location res)) target = Some nextUrl ->
  fetch target headers redirects
  = (target :: fst (fetch nextUrl headers (S redirects)),
     snd (fetch nextUrl headers (S redirects))).
Proof.
  intros Hdepth Hget Hred Hnext.
  remember (fetch nextUrl headers (S redirects)) as next eqn:Hfollowed.
  simp fetchRemoteStream.
  destruct (le_lt_dec redirects 5); [|lia]. simpl.
  rewrite Hget. simpl. rewrite Hred. simpl. rewrite Hnext. simpl.
  rewrite <- Hfollowed. by destruct next.
Qed.

Lemma fetch_request_failed target headers (redirects : nat) (message : string) :
  (redirects <= 5)%nat ->
  get (startsWith "https:" target) target headers redirects = RequestFailed message ->
  fetch target headers redirects = ([target], Rejected (RequestError message)).
Proof.
  intros Hdepth Hget. simp fetchRemoteStream.
  destruct (le_lt_dec redirects 5); [|lia]. simpl. by rewrite Hget.
Qed.

Lemma fetch_bounded target headers (redirects : nat) :
  (length (fst (fetch target headers redirects)) <= 6 - redirects)%nat
  /\ forall res, snd (fetch target headers redirects) = Resolved res ->
       is_redirect res = false /\ is_failure_status res = false
       /\ isAudio (contentType_of res) || isHls (contentType_of res) = true.
Proof.
  funelim (fetch target headers redirects).
  all: try (simpl; split; [lia | discriminate]).
  - simpl. split; [lia|]. intros res' Hres.
    apply settle_resolved in Hres as (-> & ? & ?). done.
  - destruct (fetchRemoteStream get resolve_location nextUrl headers (S redirects))
      as [log r]. simpl in *. destruct H as [Hlen Hres]. split; [lia | done].
Qed.

End FetchFacts.

Lemma is_redirect_spelled_out (res : Response) :
  is_redirect res = true
  <-> exists (status : Z) (nextLocation : string),
        statusCode res = Some status /\ 300 <= status < 400
        /\ location res = Some nextLocation /\ nextLocation <> EmptyString.
Proof.
  unfold is_redirect, truthy_str. split.
  - destruct (statusCode res) as [status|]; [|discriminate].
    destruct (location res) as [nextLocation|];
      [|by rewrite andb_false_r].
    rewrite !andb_true_iff, !negb_true_iff, Z.leb_le, Z.ltb_lt, String.eqb_neq.
    intros [[[_ Hlow] Hhigh] Hloc]. by exists status, nextLocation.
  - intros (status & nextLocation & -> & [Hlow Hhigh] & -> & Hloc).
    rewrite !andb_true_iff, !negb_true_iff, Z.leb_le, Z.ltb_lt, String.eqb_neq, Z.eqb_neq.
    split_and!; [lia | done | done | done].
Qed.




(** ** URL normalization *)

Lemma strip_timeParams_fields (u : Url.t) :
  Url.searchParams (strip_timeParams u)
    = List.filter (fun kv => negb (is_timeParam (fst kv))) (Url.searchParams u)
  /\ Url.protocol (strip_timeParams u) = Url.protocol u
  /\ Url.hostname (strip_timeParams u) = Url.hostname u
  /\ Url.port (strip_timeParams u) = Url.port u
  /\ Url.pathname (strip_timeParams u) = Url.pathname u
  /\ Url.fragment (strip_timeParams u) = Url.fragment u.
Proof.
  split_and!; try done.
  unfold strip_timeParams. simpl.
  induction (Url.searchParams u) as [|[k v] l IH]; [done|].
  unfold is_timeParam in *. simpl in *.
  destruct (k =? "t")%string eqn:E1; simpl; [done|].
  destruct (k =? "start")%string eqn:E2; simpl; [done|].
  destruct (k =? "time_continue")%string eqn:E3; simpl; [done|].
  destruct (k =? "timestamp")%string eqn:E4; simpl; [done|].
  by rewrite IH.
Qed.

Lemma filter_timeParams_sound (l : list (string * string)) (k v : string) :
  In (k, v) (List.filter (fun kv => negb (is_timeParam (fst kv))) l) ->
  ~ In k timeParams.
Proof.
  intros Hin%filter_In Hk. destruct Hin as [_ Hkeep]. simpl in Hkeep.
  apply negb_true_iff in Hkeep. unfold is_timeParam in Hkeep.
  assert (Hex : existsb (String.eqb k) timeParams = true).
  { apply existsb_exists. exists k. split; [done | apply String.eqb_refl]. }
  congruence.
Qed.

(** C4, amended.  When the lower-cased host name of the address contains
    [youtube.com] or [youtu.be], as the three hosts the specification lists
    do, the result is the serialization of the parsed address without its
    [t], [start], [time_continue] and [timestamp] parameters, and without its
    fragment when that begins with [t=] or [time_continue=]; the rest of the
    address is as parsed.  An address whose host name contains neither, and
    a string that does not parse, is returned as it is.
    [normalize("https://youtu.be/X?t=42")] is ["https://youtu.be/X"]. *)
Theorem normalizeYoutubeUrl_strips_timestamps
  (parse : string -> option Url.t) (serialize : Url.t -> string) (url : string) :
  (forall parsed : Url.t,
     parse url = Some parsed ->
     isYoutubeHost (toLowerCase (Url.hostname parsed)) = true ->
     exists out : Url.t,
       normalizeYoutubeUrl parse serialize url = serialize out
       /\ Url.searchParams out
          = List.filter (fun kv => negb (is_timeParam (fst kv))) (Url.searchParams parsed)
       /\ (forall k v, In (k, v) (Url.searchParams out) -> ~ In k timeParams)
       /\ Url.fragment out
          = (if startsWith "t=" (strip_hash_sign (Url.hash parsed))
                || startsWith "time_continue=" (strip_hash_sign (Url.hash parsed))
             then None else Url.fragment parsed)
       /\ Url.protocol out = Url.protocol parsed
       /\ Url.hostname out = Url.hostname parsed
       /\ Url.port out = Url.port parsed
       /\ Url.pathname out = Url.pathname parsed)
  /\ (forall parsed : Url.t,
        parse url = Some parsed ->
        isYoutubeHost (toLowerCase (Url.hostname parsed)) = false ->
        normalizeYoutubeUrl parse serialize url = url)
  /\ (parse url = None -> normalizeYoutubeUrl parse serialize url = url)
  /\ (isYoutubeHost "youtube.com" = true /\ isYoutubeHost "youtu.be" = true
      /\ isYoutubeHost "music.youtube.com" = true)
  /\ normalize "https://youtu.be/X?t=42" = "https://youtu.be/X".
Proof.
  split_and!.
  - intros parsed Hparse Hyt. unfold normalizeYoutubeUrl. rewrite Hparse, Hyt.
    cbn [negb]. change (fold_left _ timeParams parsed) with (strip_timeParams parsed).
    destruct (strip_timeParams_fields parsed) as (Hq & Hproto & Hhost & Hport & Hpath & Hfrag).
    assert (Hhash : Url.hash (strip_timeParams parsed) = Url.hash parsed).
    { unfold Url.hash. by rewrite Hfrag. }
    rewrite Hhash.
    eexists. split; [reflexivity|].
    destruct (startsWith "t=" _ || startsWith "time_continue=" _);
      unfold Url.clear_hash;
      cbn [Url.searchParams Url.fragment Url.protocol Url.hostname Url.port
           Url.pathname];
      rewrite Hq; split_and!; try done;
      intros k v; apply filter_timeParams_sound.
  - intros parsed Hparse Hyt. unfold normalizeYoutubeUrl. by rewrite Hparse, Hyt.
  - intros Hparse. unfold normalizeYoutubeUrl. by rewrite Hparse.
  - reflexivity.
  - reflexivity.
  - reflexivity.
  - reflexivity.
Qed.

Lemma normalizeYoutubeUrl_strips_timestamps_witness :
  normalize "https://www.youtube.com/watch?v=X&t=42&start=7#t=90"
  = "https://www.youtube.com/watch?v=X"
  /\ normalize "https://soundcloud.com/artist/c?t=1" = "https://soundcloud.com/artist/c?t=1"
  /\ normalize "no address" = "no address".
Proof.
  split; [|split].
  - destruct (proj1 (normalizeYoutubeUrl_strips_timestamps plain_parse plain_serialize
                       "https://www.youtube.com/watch?v=X&t=42&start=7#t=90")
                (Url.mk "https" "www.youtube.com" None "/watch"
                        [("v", "X"); ("t", "42"); ("start", "7")] (Some "t=90")))
      as (out & Hout & Hparams & _ & Hfragment & Hprotocol & Hhost & Hport & Hpath);
      [reflexivity | reflexivity |].
    unfold normalize. rewrite Hout. destruct out; simpl in *.
    by rewrite Hparams, Hfragment, Hprotocol, Hhost, Hport, Hpath.
  - apply (proj1 (proj2 (normalizeYoutubeUrl_strips_timestamps plain_parse plain_serialize
                           "https://soundcloud.com/artist/c?t=1"))
             (Url.mk "https" "soundcloud.com" None "/artist/c" [("t", "1")] None));
      reflexivity.
  - apply (proj1 (proj2 (proj2 (normalizeYoutubeUrl_strips_timestamps
                                  plain_parse plain_serialize "no address")))).
    reflexivity.
Defined.

(** The claim as the specification words it fails here: the host is not a
    YouTube host, and the address comes back without its [t] parameter. *)
Lemma normalize_rewrites_lookalike_host :
  Url.hostname <$> plain_parse "https://notyoutube.com/a?t=1" = Some "notyoutube.com"
  /\ normalize "https://notyoutube.com/a?t=1" = "https://notyoutube.com/a"
  /\ normalize "https://notyoutube.com/a?t=1" <> "https://notyoutube.com/a?t=1".
Proof. split; [reflexivity | split; [reflexivity | discriminate]]. Qed.

(** * Properties of sequences of calls, of reachable states and of the HTTP interface *)

(** ** Sequences of queue calls *)

Lemma remove_found (queue : list Track.t) trackId (i : nat) track :
  findIndex (TrackQueue.has_id trackId) queue = Z.of_nat i ->
  queue !! i = Some track ->
  TrackQueue.remove trackId queue = (true, delete i queue).
Proof.
  intros Hi Htrack. unfold TrackQueue.remove. rewrite Hi.
  replace (Z.of_nat i =? -1) with false by (symmetry; apply Z.eqb_neq; lia).
  by rewrite (splice_remove_one _ _ _ Htrack).
Qed.

Lemma remove_first_match (queue : list Track.t) (trackId : string) :
  trackId ∈ map Track.id queue ->
  exists (i : nat) (track : Track.t),
    queue !! i = Some track /\ Track.id track = trackId
    /\ (forall (j : nat) (x : Track.t),
          (j < i)%nat -> queue !! j = Some x -> Track.id x <> trackId)
    /\ TrackQueue.remove trackId queue = (true, delete i queue).
Proof.
  intros Hin. apply list_elem_of_fmap in Hin as (tr & Hid & Htr).
  destruct (findIndex_from_found (TrackQueue.has_id trackId) queue 0)
    as (i & track & Hi & Htrack & Hp & Hfirst); [|lia|].
  { eapply findIndex_from_some; [lia | exact Htr |]. by apply has_id_true. }
  apply has_id_true in Hp.
  exists i, track. rewrite (remove_found queue trackId i track) by done.
  split_and!; try done.
  intros j x Hj Hx. apply has_id_false. by apply (Hfirst j x).
Qed.

Lemma remove_absent (queue : list Track.t) (trackId : string) :
  trackId ∉ map Track.id queue -> TrackQueue.remove trackId queue = (false, queue).
Proof.
  intros Hnot. unfold TrackQueue.remove, findIndex.
  rewrite findIndex_from_absent; [done | lia |].
  intros x Hx. apply has_id_false. intros Hid. apply Hnot.
  apply list_elem_of_fmap. by exists x.
Qed.

Lemma remove_distinct (queue : list Track.t) (trackId : string) :
  NoDup (map Track.id queue) ->
  trackId ∉ map Track.id (snd (TrackQueue.remove trackId queue)).
Proof.
  intros Hnd. destruct (decide (trackId ∈ map Track.id queue)) as [Hin|Hout].
  - destruct (remove_first_match queue trackId Hin) as (i & track & Htrack & Hp & _ & ->).
    simpl. intros Hstill.
    change (map Track.id) with (fmap (M:=list) Track.id) in *.
    rewrite list_fmap_delete in Hstill.
    assert (Hat : (Track.id <$> queue) !! i = Some trackId).
    { by rewrite list_lookup_fmap, Htrack, <- Hp. }
    rewrite (delete_take_drop (Track.id <$> queue) i) in Hstill.
    rewrite <- (take_drop_middle _ _ _ Hat) in Hnd.
    apply NoDup_app in Hnd as (_ & Hleft & Hright).
    apply NoDup_cons in Hright as [Hright _].
    apply elem_of_app in Hstill as [Hstill|Hstill]; [|done].
    apply (Hleft trackId Hstill). by left.
  - by rewrite (remove_absent queue trackId Hout).
Qed.

(** X1.  [remove(id)] takes out the first track with that id and nothing
    else: it returns [true], the queue is the old one without the element at
    the first matching index, and its size is one less.  With an id that no
    queued track has it returns [false] and leaves the queue as it is.  When
    the queued ids are pairwise distinct, the id is not in the queue
    afterwards. *)
Theorem remove_takes_first_match (queue : list Track.t) (trackId : string) :
  (trackId ∈ map Track.id queue ->
   exists (i : nat) (track : Track.t),
     queue !! i = Some track /\ Track.id track = trackId
     /\ (forall (j : nat) (x : Track.t),
           (j < i)%nat -> queue !! j = Some x -> Track.id x <> trackId)
     /\ TrackQueue.remove trackId queue = (true, delete i queue)
     /\ TrackQueue.size (snd (TrackQueue.remove trackId queue))
        = TrackQueue.size queue - 1)
  /\ (trackId ∉ map Track.id queue ->
      TrackQueue.remove trackId queue = (false, queue))
  /\ (NoDup (map Track.id queue) ->
      trackId ∉ map Track.id (snd (TrackQueue.remove trackId queue))).
Proof.
  split_and!.
  - intros Hin.
    destruct (remove_first_match queue trackId Hin) as (i & track & Htrack & Hp & Hfirst & Hrm).
    exists i, track. split_and!; try done.
    rewrite Hrm. unfold TrackQueue.size. simpl.
    pose proof (lookup_lt_Some _ _ _ Htrack) as Hlt.
    rewrite length_delete by eauto. lia.
  - apply remove_absent.
  - apply remove_distinct.
Qed.

Lemma remove_takes_first_match_witness :
  (exists (i : nat) (track : Track.t),
     [T1; T2; T1] !! i = Some track /\ Track.id track = "id-1"
     /\ (forall (j : nat) (x : Track.t),
           (j < i)%nat -> [T1; T2; T1] !! j = Some x -> Track.id x <> "id-1")
     /\ TrackQueue.remove "id-1" [T1; T2; T1] = (true, delete i [T1; T2; T1])
     /\ TrackQueue.size (snd (TrackQueue.remove "id-1" [T1; T2; T1]))
        = TrackQueue.size [T1; T2; T1] - 1)
  /\ TrackQueue.remove "id-9" three_tracks = (false, three_tracks)
  /\ "id-2" ∉ map Track.id (snd (TrackQueue.remove "id-2" three_tracks)).
Proof.
  destruct (remove_takes_first_match [T1; T2; T1] "id-1") as (Hfound & _ & _).
  destruct (remove_takes_first_match three_tracks "id-9") as (_ & Habsent & _).
  destruct (remove_takes_first_match three_tracks "id-2") as (_ & _ & Hgone).
  split_and!.
  - apply Hfound. vm_compute. apply list_elem_of_here.
  - apply Habsent. vm_compute. intros Hin.
    repeat (apply elem_of_cons in Hin as [Hin|Hin]; [discriminate|]).
    by apply elem_of_nil in Hin.
  - apply Hgone. vm_compute.
    repeat (apply NoDup_cons; split;
            [intros Hin; repeat (apply elem_of_cons in Hin as [Hin|Hin]; [discriminate|]);
             by apply elem_of_nil in Hin|]).
    apply NoDup_nil_2.
Defined.

Lemma enqueue_all_app (entries : list (string * Payload)) (queue : list Track.t) :
  enqueue_all entries queue = queue ++ map track_of entries.
Proof.
  revert queue. induction entries as [|e entries IH]; intros queue; simpl.
  - by rewrite app_nil_r.
  - unfold enqueue_all in *. simpl. rewrite IH. by rewrite <- app_assoc.
Qed.

Lemma dequeue_n_all (queue : list Track.t) (extra : nat) :
  dequeue_n (length queue + extra) queue
  = (map Some queue ++ repeat None extra, []).
Proof.
  induction queue as [|tr queue IH]; simpl.
  - induction extra as [|extra IH]; simpl; [done|]. by rewrite IH.
  - by rewrite IH.
Qed.

(** X2.  The queue is first in, first out.  [enqueue] called once per
    entry appends the tracks in call order behind what was queued, each with
    the id drawn for it and the fields of its payload; [dequeue] called
    repeatedly then returns the tracks in that order, leaves the queue empty,
    and returns [undefined] on every further call. *)
Theorem queue_is_first_in_first_out
    (entries : list (string * Payload)) (queue : list Track.t) (extra : nat) :
  enqueue_all entries queue = queue ++ map track_of entries
  /\ map Track.id (map track_of entries) = map fst entries
  /\ dequeue_n (length queue + length entries + extra) (enqueue_all entries queue)
     = (map Some (queue ++ map track_of entries) ++ repeat None extra, []).
Proof.
  split_and!.
  - apply enqueue_all_app.
  - induction entries as [|e entries IH]; simpl; [done|]. by rewrite IH.
  - rewrite enqueue_all_app.
    replace (length queue + length entries)%nat
      with (length (queue ++ map track_of entries))
      by (rewrite length_app, length_map; done).
    apply dequeue_n_all.
Qed.

Lemma move_finds_what_remove_finds (queue : list Track.t) (trackId : string) (k : Z) :
  fst (TrackQueue.move trackId k queue) = fst (TrackQueue.remove trackId queue).
Proof.
  unfold TrackQueue.move, TrackQueue.remove.
  destruct (findIndex (TrackQueue.has_id trackId) queue =? -1); [done|].
  destruct (splice _ 1 [] queue) as [[|track removed] queue1]; done.
Qed.

(** X3.  [move] only reorders: the queue afterwards is a permutation of the
    queue before and has the same size.  [move] and [remove] find an id in
    the same cases, and [remove] leaves the other tracks in their order. *)
Theorem move_and_remove_keep_the_tracks
    (queue : list Track.t) (trackId : string) (k : Z) :
  snd (TrackQueue.move trackId k queue) ≡ₚ queue
  /\ TrackQueue.size (snd (TrackQueue.move trackId k queue)) = TrackQueue.size queue
  /\ fst (TrackQueue.move trackId k queue) = fst (TrackQueue.remove trackId queue)
  /\ snd (TrackQueue.remove trackId queue) `sublist_of` queue.
Proof.
  split_and!.
  - apply move_permutation.
  - unfold TrackQueue.size. by rewrite (Permutation_length (move_permutation trackId k queue)).
  - apply move_finds_what_remove_finds.
  - apply remove_sublist.
Qed.

(** ** Invariants of the engine *)

(** A property the constructor establishes and every event keeps holds
    after every run. *)
Lemma run_invariant (P : World -> Prop) (q : list Track.t) :
  P (initial q) -> (forall e w, P w -> P (exec e w)) ->
  forall es, P (run es (initial q)).
Proof.
  intros Hinit Hstep es.
  assert (Hgen : forall w, P w -> P (run es w)).
  { induction es as [|e es IH]; intros w Hw; [done|]. simpl. apply IH. by apply Hstep. }
  by apply Hgen.
Qed.

Lemma exec_current_known (e : Event) (w : World) : current_known w -> current_known (exec e w).
Proof.
  unfold current_known. intros [Hplay Hlast].
  destruct e; simpl; try (split; assumption); crunch;
    (split; [first [done | intros _; by eexists | intros; congruence | auto]
            | first [done | congruence]]).
Qed.

Lemma exec_one_thumbnail (e : Event) (w : World) : one_thumbnail w -> one_thumbnail (exec e w).
Proof.
  unfold one_thumbnail. intros Hone.
  destruct e; simpl; try assumption; crunch; first [done | by left | by right].
Qed.

Lemma elem_of_delete_other {A} (l : list A) (n : nat) (x y : A) :
  l !! n = Some y -> x <> y -> x ∈ l -> x ∈ delete n l.
Proof.
  intros Hy Hne Hx. apply list_elem_of_lookup in Hx as [i Hi].
  destruct (decide (i < n)%nat) as [Hlt|Hge].
  - apply (list_elem_of_lookup_2 _ i). by rewrite list_lookup_delete_lt.
  - assert (i <> n) by congruence.
    apply (list_elem_of_lookup_2 _ (i - 1)).
    rewrite list_lookup_delete_ge by lia. rewrite <- Hi. f_equal. lia.
Qed.

Lemma elem_of_filter_bool {A} (f : A -> bool) (l : list A) (x : A) :
  x ∈ List.filter f l <-> f x = true /\ x ∈ l.
Proof. rewrite !list_elem_of_In, filter_In. tauto. Qed.

(** Closes a goal [x ∈ timers'] from a hypothesis [x ∈ timers]. *)
Ltac timer_kept :=
  repeat (rewrite elem_of_app || rewrite list_elem_of_singleton
          || rewrite elem_of_filter_bool);
  first [ by auto
        | by left
        | by right
        | by (eapply elem_of_delete_other; eauto)
        | left; by (eapply elem_of_delete_other; eauto)
        | by (split; [reflexivity | auto]) ].

Lemma exec_skip_pending (e : Event) (w : World) : skip_pending w -> skip_pending (exec e w).
Proof.
  unfold skip_pending. intros Hskip.
  destruct e; simpl; try assumption; crunch;
    try done; try (intros; congruence);
    first [ intros Hs; specialize (Hskip Hs); timer_kept | intros _; timer_kept ].
Qed.

(** A step whose safety timers were pending before and which keeps every
    unstarted pipeline unstarted. *)
Lemma safety_kept (w w' : World) :
  (forall pipe, TSafety pipe ∈ timers w' -> TSafety pipe ∈ timers w) ->
  (forall i p, pipes w !! i = Some p -> hasStarted p = false ->
     exists p', pipes w' !! i = Some p' /\ hasStarted p' = false) ->
  safety_unstarted w -> safety_unstarted w'.
Proof.
  intros Htimers Hpipes Hsafe pipe Hin.
  destruct (Hsafe pipe (Htimers pipe Hin)) as (p & Hp & Hs). eauto.
Qed.

Lemma pipes_alter_unstarted (f : Pipe -> Pipe) (n : nat) (l : list Pipe) i p :
  (forall q, hasStarted (f q) = hasStarted q) ->
  l !! i = Some p -> hasStarted p = false ->
  exists p', alter f n l !! i = Some p' /\ hasStarted p' = false.
Proof.
  intros Hf Hp Hs. destruct (decide (n = i)) as [->|Hne].
  - exists (f p). rewrite list_lookup_alter_eq, Hp. split; [done|]. by rewrite Hf.
  - exists p. by rewrite list_lookup_alter_ne.
Qed.

Lemma pipes_insert_unstarted (n : nat) (l : list Pipe) (y old : Pipe) i p :
  l !! n = Some old -> hasStarted y = hasStarted old ->
  l !! i = Some p -> hasStarted p = false ->
  exists p', <[n:=y]> l !! i = Some p' /\ hasStarted p' = false.
Proof.
  intros Hold Hy Hp Hs. destruct (decide (n = i)) as [->|Hne].
  - exists y. rewrite list_lookup_insert_eq by (by eapply lookup_lt_Some).
    split; [done|]. congruence.
  - exists p. by rewrite list_lookup_insert_ne.
Qed.

Lemma elem_of_delete_inv {A} (l : list A) (n : nat) (x : A) :
  x ∈ delete n l -> x ∈ l.
Proof. intros Hx. eapply elem_of_sublist; [exact Hx | apply sublist_delete]. Qed.

(** Turns a hypothesis [tm ∈ timers'] into [tm ∈ timers] where the step
    only added other timers or took timers away. *)
Ltac old_timer H :=
  repeat (rewrite elem_of_app in H || rewrite list_elem_of_singleton in H
          || rewrite elem_of_filter_bool in H);
  destruct_or?; destruct_and?; try discriminate;
  try apply elem_of_delete_inv in H;
  try assumption.

Lemma streamReady_safety_unstarted n w :
  safety_unstarted w -> safety_unstarted (streamReady n w).
Proof.
  intros Hsafe. unfold streamReady. destruct (starts w !! n) as [st|]; [|done].
  assert (Hresume : safety_unstarted
                      (playTrack_resume (s_track st)
                         (set_starts (delete n (starts w)) w))).
  { intros pipe. unfold playTrack_resume. fields.
    assert (Htimers : timers (match Track.source (s_track st) with
                              | youtube | soundcloud => w end) = timers w)
      by by destruct (Track.source _).
    destruct (Track.source (s_track st)); fields;
      rewrite elem_of_app, list_elem_of_singleton;
      (intros [Hold|[= ->]];
       [ destruct (Hsafe pipe Hold) as (p & Hp & Hs); exists p;
         split; [by apply lookup_app_l_Some | done]
       | eexists; split; [by apply list_lookup_middle | done] ]). }
  unfold finally_starting. by destruct (awaited st).
Qed.

Lemma on_data_safety_unstarted pipe chunk now w :
  safety_unstarted w -> safety_unstarted (on_data pipe chunk now w).
Proof.
  intros Hsafe. unfold on_data. destruct (pipes w !! pipe) as [p|] eqn:Hp; [|done].
  destruct (out_destroyed p); [done|].
  intros pipe0 Hin. destruct (hasStarted p) eqn:Hstarted; fields.
  - apply elem_of_filter_bool in Hin as [_ Hin]. by apply Hsafe.
  - apply elem_of_filter_bool in Hin as [Hother Hin].
    destruct (Hsafe pipe0 Hin) as (p0 & Hp0 & Hs0). exists p0. split; [|done].
    rewrite list_lookup_insert_ne; [done|]. intros <-.
    simpl in Hother. by rewrite Nat.eqb_refl in Hother.
Qed.

Lemma exec_safety_unstarted (e : Event) (w : World) :
  safety_unstarted w -> safety_unstarted (exec e w).
Proof.
  intros Hsafe.
  destruct e; simpl; try assumption;
    try (by apply streamReady_safety_unstarted);
    try (by apply on_data_safety_unstarted);
    crunch; try assumption;
    (apply (safety_kept w); [| |assumption]; fields;
     [ intros pipe0 Hin; old_timer Hin
     | intros i p0 Hp0 Hs0;
       first [ by eauto
             | by (eapply pipes_alter_unstarted; [done | eauto | done])
             | by eapply pipes_insert_unstarted; eauto ] ]).
Qed.

(** ** The sinks *)

Lemma sinks_in_step_written (l : list Tap) :
  sinks_in_step l -> Forall (fun tap => written tap <> []) l.
Proof.
  induction l as [|tap rest IH]; simpl; [done|].
  intros (Hne & _ & Hrest). constructor; auto.
Qed.

Lemma in_step_write (data : Chunk) (earlier later : Tap) :
  written earlier <> [] -> written later <> [] ->
  destroyed earlier = false -> destroyed later = false ->
  in_step earlier later ->
  in_step (write_live data earlier) (write_live data later).
Proof.
  unfold in_step, write_live. intros Hne' Hne -> ->. simpl.
  destruct (written later) as [|first others]; [done|].
  destruct (written earlier) as [|first' others']; [done|]. simpl.
  apply suffix_app.
Qed.

Lemma sinks_in_step_write (data : Chunk) (l : list Tap) :
  Forall (fun tap => destroyed tap = false) l ->
  sinks_in_step l -> sinks_in_step (map (write_live data) l).
Proof.
  induction l as [|tap rest IH]; simpl; [done|].
  intros Hlive (Hne & Hsteps & Hrest).
  apply Forall_cons in Hlive as [Htap Hlive].
  split_and!.
  - unfold write_live. rewrite Htap. simpl. by destruct (written tap).
  - change (map (write_live data) rest) with (write_live data <$> rest).
    apply Forall_fmap, Forall_forall. intros later Hlater. simpl.
    apply in_step_write; try done.
    + revert later Hlater. apply Forall_forall. by apply sinks_in_step_written.
    + revert later Hlater. by apply Forall_forall.
    + revert later Hlater. by apply Forall_forall.
  - by apply IH.
Qed.

Lemma sinks_in_step_attach (l : list Tap) (tap : Tap) :
  length (written tap) = 1%nat ->
  sinks_in_step l -> sinks_in_step (l ++ [tap]).
Proof.
  intros Hone. induction l as [|first rest IH]; simpl.
  - intros _. split_and!; [|done..]. by destruct (written tap).
  - intros (Hne & Hsteps & Hrest). split_and!; [done | | by apply IH].
    apply Forall_app. split; [done|]. apply Forall_singleton.
    unfold in_step. destruct (written tap) as [|c [|c' cs]]; try done.
    apply suffix_nil.
Qed.

Lemma sinks_in_step_filter (P : Tap -> Prop) `{!forall tap, Decision (P tap)}
    (l : list Tap) :
  sinks_in_step l -> sinks_in_step (filter P l).
Proof.
  induction l as [|tap rest IH]; simpl; [done|].
  intros (Hne & Hsteps & Hrest). rewrite filter_cons.
  destruct (decide (P tap)); [|by apply IH]. simpl.
  split_and!; [done | | by apply IH].
  apply Forall_forall. intros later [_ Hlater]%list_elem_of_filter.
  revert later Hlater. by apply Forall_forall.
Qed.

Lemma exec_fanout_synced (e : Event) (w : World) :
  fanout_synced w -> fanout_synced (exec e w).
Proof.
  intros [Hlive Hsync]. split; [by apply exec_sinks_live|].
  destruct e; simpl; try assumption; crunch; try assumption;
    first [ by apply sinks_in_step_write
          | by apply sinks_in_step_attach
          | by apply sinks_in_step_filter ].
Qed.

Lemma tap_ids_write (data : Chunk) (l : list Tap) :
  tap_id <$> map (write_live data) l = tap_id <$> l.
Proof.
  induction l as [|tap rest IH]; [done|].
  change (tap_id (write_live data tap) :: (tap_id <$> map (write_live data) rest)
          = tap_id tap :: (tap_id <$> rest)).
  rewrite IH. f_equal. unfold write_live. by destruct (negb (destroyed tap)).
Qed.

Lemma sinks_distinct_write (data : Chunk) (w : World) (made : nat) :
  NoDup (tap_id <$> taps w)
  /\ Forall (fun tap => (tap_id tap < made)%nat) (taps w) ->
  NoDup (tap_id <$> map (write_live data) (taps w))
  /\ Forall (fun tap => (tap_id tap < made)%nat) (map (write_live data) (taps w)).
Proof.
  intros [Hnd Hlt]. rewrite tap_ids_write. split; [done|].
  change (map (write_live data) (taps w)) with (write_live data <$> taps w).
  apply Forall_fmap. eapply Forall_impl; [exact Hlt|].
  intros tap Htap. simpl. unfold write_live. by destruct (negb (destroyed tap)).
Qed.

Lemma exec_sinks_distinct (e : Event) (w : World) :
  sinks_distinct w -> sinks_distinct (exec e w).
Proof.
  unfold sinks_distinct. intros [Hnd Hlt].
  destruct e; simpl; try (split; assumption); crunch; try (split; assumption);
    try (by apply sinks_distinct_write).
  - split.
    + rewrite fmap_app. simpl. apply NoDup_app. split_and!; [done | | apply NoDup_singleton].
      intros x Hx ->%list_elem_of_singleton.
      apply list_elem_of_fmap in Hx as (tap & Hid & Htap).
      pose proof (proj1 (Forall_forall _ _) Hlt tap Htap) as Hbelow. simpl in Hbelow. lia.
    + apply Forall_app. split.
      * eapply Forall_impl; [exact Hlt|]. intros tap Htap. simpl in *. lia.
      * apply Forall_singleton. simpl. lia.
  - split.
    + eapply sublist_NoDup; [exact Hnd|]. apply fmap_sublist, sublist_filter.

    + apply Forall_forall. intros t [_ Ht]%list_elem_of_filter.
      revert t Ht. by apply Forall_forall.
Qed.

(** X4.  In every state the service reaches, whatever the queue it was
    built with: while [playing] holds there is a current track, and the
    current track is also the last-played one.  So the fallback in
    [getState] always reports [lastPlayedTrack]; in particular [skipCurrent],
    which clears [currentTrack], does not change the track [getState]
    reports. *)
Theorem snapshot_reports_last_played (es : list Event) (q : list Track.t) :
  (playing (run es (initial q)) = true ->
   exists tr : Track.t, currentTrack (run es (initial q)) = Some tr)
  /\ (forall tr : Track.t,
        currentTrack (run es (initial q)) = Some tr ->
        lastPlayedTrack (run es (initial q)) = Some tr)
  /\ StreamState.current (getState (skipCurrent (run es (initial q))))
     = StreamState.current (getState (run es (initial q))).
Proof.
  assert (Hinv : current_known (run es (initial q))).
  { apply run_invariant; [|apply exec_current_known].
    split; simpl; [discriminate | intros tr; discriminate]. }
  destruct Hinv as [Hplaying Hlast]. split_and!.
  - intros Hp. destruct (Hplaying Hp) as [tr Htr]. by exists tr.
  - exact Hlast.
  - unfold getState, skipCurrent. fields.
    destruct (stopCurrent (run es (initial q))) eqn:Hstop; fields;
      destruct (currentTrack (run es (initial q))) as [tr|] eqn:Hcur; fields;
      try rewrite (Hlast tr eq_refl); reflexivity.
Qed.

Lemma snapshot_reports_last_played_witness :
  (exists tr : Track.t, currentTrack (run session_started (initial [])) = Some tr)
  /\ lastPlayedTrack (run session_started (initial []))
     = Some (Track.mk "id-1" "https://youtu.be/X" "Song A" None (Some 60) (Some 1000)
                      youtube ann)
  /\ StreamState.current (getState (skipCurrent (run session_started (initial []))))
     = Some (Track.mk "id-1" "https://youtu.be/X" "Song A" None (Some 60) (Some 1000)
                      youtube ann).
Proof.
  destruct (snapshot_reports_last_played session_started []) as (Hplaying & Hlast & Hskip).
  split_and!.
  - apply Hplaying. reflexivity.
  - apply Hlast. reflexivity.
  - rewrite Hskip. reflexivity.
Defined.

(** X5.  In every state the service reaches at most one of the two
    thumbnails is set.  When a stream has opened, [getCurrentThumbnail]
    answers the thumbnail of that track for the source of the track and
    nothing for the other source.  When [playNext] finds the queue empty with
    nothing playing, it answers nothing for either source. *)
Theorem thumbnail_of_one_source_at_most (es : list Event) (q : list Track.t) :
  (getCurrentThumbnail youtube (run es (initial q)) = None
   \/ getCurrentThumbnail soundcloud (run es (initial q)) = None)
  /\ (forall (n : nat) (st : Start),
        starts (run es (initial q)) !! n = Some st ->
        getCurrentThumbnail (Track.source (s_track st)) (streamReady n (run es (initial q)))
        = Track.thumbnail (s_track st)
        /\ forall other : Source,
             other <> Track.source (s_track st) ->
             getCurrentThumbnail other (streamReady n (run es (initial q))) = None)
  /\ (playing (run es (initial q)) = false ->
      queue (run es (initial q)) = [] ->
      forall (aw : bool) (source : Source),
        getCurrentThumbnail source (snd (playNext aw (run es (initial q)))) = None).
Proof.
  split_and!.
  - apply (run_invariant one_thumbnail); [by left | apply exec_one_thumbnail].
  - intros n st Hst. unfold streamReady. rewrite Hst.
    unfold getCurrentThumbnail, playTrack_resume, finally_starting.
    split.
    + destruct (awaited st), (Track.source (s_track st)); fields; reflexivity.
    + intros other Hother.
      destruct (awaited st), (Track.source (s_track st)), other; fields;
        try reflexivity; congruence.
  - intros Hplaying Hqueue aw source. unfold playNext. rewrite Hplaying, Hqueue.
    destruct source; reflexivity.
Qed.

Lemma thumbnail_of_one_source_at_most_witness :
  getCurrentThumbnail youtube (streamReady 0 (run session_with_thumbnail (initial [])))
  = Some "https://i.ytimg.com/vi/Z/default.jpg"
  /\ getCurrentThumbnail soundcloud
       (streamReady 0 (run session_with_thumbnail (initial [])))
     = None
  /\ getCurrentThumbnail youtube (snd (playNext false (initial []))) = None.
Proof.
  destruct (thumbnail_of_one_source_at_most session_with_thumbnail []) as (_ & Hready & _).
  destruct (thumbnail_of_one_source_at_most [] []) as (_ & _ & Hdrain).
  destruct (Hready 0%nat
              (mkStart (Track.mk "id-4" "https://youtu.be/Z" "Song D"
                                 (Some "https://i.ytimg.com/vi/Z/default.jpg")
                                 (Some 200) None youtube ann) true) eq_refl)
    as [Hown Hother].
  split_and!.
  - exact Hown.
  - apply Hother. discriminate.
  - apply Hdrain; reflexivity.
Defined.

(** X6.  In every state the service reaches, a set [skipping] flag is
    backed by a pending timer of [skipCurrent], and the flag is clear once
    that timer has fired.  While the flag is set, the ['error'] and ['end']
    callbacks of the encoder and the ['error'] callback of its output
    schedule nothing. *)
Theorem skipping_is_backed_by_its_timer (es : list Event) (q : list Track.t) :
  (skipping (run es (initial q)) = true ->
   exists n : nat,
     timers (run es (initial q)) !! n = Some TSkip
     /\ skipping (fire n (run es (initial q))) = false)
  /\ (skipping (run es (initial q)) = true ->
      timers (on_error (run es (initial q))) = timers (run es (initial q))
      /\ timers (on_end (run es (initial q))) = timers (run es (initial q))
      /\ timers (on_output_error (run es (initial q))) = timers (run es (initial q))).
Proof.
  assert (Hinv : skip_pending (run es (initial q))).
  { apply run_invariant; [intros ?; discriminate | apply exec_skip_pending]. }
  split.
  - intros Hskip. apply Hinv in Hskip.
    apply list_elem_of_lookup_1 in Hskip as [n Hn]. exists n. split; [done|].
    unfold fire. rewrite Hn. unfold run_timer, playNext, TrackQueue.dequeue. fields.
    repeat (case_match; simplify_eq/=); fields; reflexivity.
  - intros Hskip. unfold on_error, on_end, on_output_error, schedule_unless_skipping,
      sendSilence, broadcastChunk. fields. rewrite Hskip.
    split_and!; try reflexivity.
    destruct (0 <? Z.of_nat (length (taps (run es (initial q))))); fields;
      rewrite Hskip; reflexivity.
Qed.

Lemma skipping_is_backed_by_its_timer_witness :
  (exists n : nat,
     timers (run (session_started ++ [SkipCurrent]) (initial [])) !! n = Some TSkip
     /\ skipping (fire n (run (session_started ++ [SkipCurrent]) (initial []))) = false)
  /\ timers (on_end (run (session_started ++ [SkipCurrent]) (initial []))) = [TSkip].
Proof.
  destruct (skipping_is_backed_by_its_timer (session_started ++ [SkipCurrent]) [])
    as [Hpending Hquiet].
  split.
  - apply Hpending. reflexivity.
  - destruct (Hquiet eq_refl) as (_ & Hend & _). rewrite Hend. reflexivity.
Defined.

(** X7.  In every state the service reaches, a pending safety timeout
    belongs to a pipeline that exists and has produced no data, and the first
    data of a pipeline whose output is not destroyed clears its timeout.  So
    the timeout never runs against a pipeline that has started. *)
Theorem safety_timeout_spares_started_pipelines
    (es : list Event) (q : list Track.t) (n pipe : nat) :
  timers (run es (initial q)) !! n = Some (TSafety pipe) ->
  (exists p : Pipe,
     pipes (run es (initial q)) !! pipe = Some p /\ hasStarted p = false)
  /\ forall (chunk : Chunk) (now : Z) (p : Pipe),
       pipes (run es (initial q)) !! pipe = Some p -> out_destroyed p = false ->
       TSafety pipe ∉ timers (on_data pipe chunk now (run es (initial q))).
Proof.
  intros Hn.
  assert (Hinv : safety_unstarted (run es (initial q))).
  { apply run_invariant; [|apply exec_safety_unstarted].
    intros p Hp. simpl in Hp. by apply elem_of_nil in Hp. }
  split.
  - apply Hinv. by eapply list_elem_of_lookup_2.
  - intros chunk now p Hp Hout. unfold on_data. rewrite Hp, Hout.
    destruct (hasStarted p); fields;
      rewrite elem_of_filter_bool; intros [Hsame _]; simpl in Hsame;
      by rewrite Nat.eqb_refl in Hsame.
Qed.

Lemma safety_timeout_spares_started_pipelines_witness :
  (exists p : Pipe,
     pipes (run [Enqueue "id-1" payload_a; EnsurePlaying; StreamReady 0] (initial []))
       !! 0%nat = Some p
     /\ hasStarted p = false)
  /\ TSafety 0 ∉ timers (on_data 0 audio 1000
                          (run [Enqueue "id-1" payload_a; EnsurePlaying; StreamReady 0]
                               (initial []))).
Proof.
  destruct (safety_timeout_spares_started_pipelines
              [Enqueue "id-1" payload_a; EnsurePlaying; StreamReady 0] [] 0 0 eq_refl)
    as [Hunstarted Hcleared].
  split; [exact Hunstarted|].
  apply (Hcleared audio 1000 (mkPipe T1 false false false)); reflexivity.
Defined.

Lemma filter_other_ids (l : list Tap) (tap : nat) :
  NoDup (tap_id <$> l) -> tap ∈ tap_id <$> l ->
  S (length (filter (fun t => tap_id t ≠ tap) l)) = length l.
Proof.
  induction l as [|t l IH]; simpl; intros Hnd Hin.
  - by apply elem_of_nil in Hin.
  - apply NoDup_cons in Hnd as [Hfresh Hnd]. rewrite filter_cons.
    destruct (decide (tap_id t ≠ tap)) as [Hne|Heq].
    + simpl. f_equal. apply IH; [done|].
      apply elem_of_cons in Hin as [Hin|Hin]; [congruence | done].
    + apply dec_stable in Heq. subst tap. f_equal.
      assert (Hall : filter (fun t0 => tap_id t0 ≠ tap_id t) l = l); [|by rewrite Hall].
      clear IH Hin Hnd. induction l as [|t' l IH]; [done|].
      rewrite filter_cons. rewrite fmap_cons, not_elem_of_cons in Hfresh.
      destruct Hfresh as [Hne Hfresh].
      destruct (decide (tap_id t' ≠ tap_id t)) as [?|Hsame]; [|destruct Hsame; congruence].
      f_equal. by apply IH.
Qed.

Lemma filter_absent_id (l : list Tap) (tap : nat) :
  tap ∉ tap_id <$> l -> filter (fun t => tap_id t ≠ tap) l = l.
Proof.
  induction l as [|t l IH]; [done|].
  rewrite fmap_cons, not_elem_of_cons. intros [Hne Hrest].
  rewrite filter_cons.
  destruct (decide (tap_id t ≠ tap)) as [?|Hsame]; [|destruct Hsame; congruence].
  f_equal. by apply IH.
Qed.

Lemma reachable_sinks_distinct (es : list Event) (q : list Track.t) :
  sinks_distinct (run es (initial q)).
Proof.
  apply run_invariant; [|apply exec_sinks_distinct].
  split; simpl; [apply NoDup_nil_2 | apply Forall_nil_2].
Qed.

(** X8.  In every state the service reaches the attached sinks are
    pairwise distinct.  [attachClient] raises the [listeners] count that
    [getState] reports by one.  Closing an attached sink lowers it by one and
    removes that sink for good: it is not in the set afterwards, nor after a
    further [attachClient].  Closing a sink that is not attached changes
    nothing. *)
Theorem listeners_counts_open_connections
    (es : list Event) (q : list Track.t) (tap : nat) :
  NoDup (tap_id <$> taps (run es (initial q)))
  /\ StreamState.listeners (getState (attachClient (run es (initial q))))
     = S (StreamState.listeners (getState (run es (initial q))))
  /\ (tap ∈ tap_id <$> taps (run es (initial q)) ->
      S (StreamState.listeners (getState (clientClose tap (run es (initial q)))))
      = StreamState.listeners (getState (run es (initial q)))
      /\ (tap ∉ (tap_id <$> taps (clientClose tap (run es (initial q)))))
      /\ tap ∉ (tap_id <$> taps (attachClient (clientClose tap (run es (initial q))))))
  /\ (tap ∉ (tap_id <$> taps (run es (initial q))) ->
      taps (clientClose tap (run es (initial q))) = taps (run es (initial q))).
Proof.
  destruct (reachable_sinks_distinct es q) as [Hnd Hlt].
  split_and!.
  - exact Hnd.
  - unfold getState, attachClient. fields. rewrite length_app. simpl. lia.
  - intros Hin. split_and!.
    + unfold getState, clientClose. fields. by apply filter_other_ids.
    + unfold clientClose. fields. intros Hstill.
      apply list_elem_of_fmap in Hstill as (t & Hid & Ht).
      apply list_elem_of_filter in Ht as [Hne _]. congruence.
    + unfold attachClient, clientClose. fields. rewrite fmap_app, elem_of_app.
      intros [Hstill|Hnew].
      * apply list_elem_of_fmap in Hstill as (t & Hid & Ht).
        apply list_elem_of_filter in Ht as [Hne _]. congruence.
      * simpl in Hnew. apply list_elem_of_singleton in Hnew.
        apply list_elem_of_fmap in Hin as (t & Hid & Ht).
        pose proof (proj1 (Forall_forall _ _) Hlt t Ht) as Hbelow. simpl in Hbelow. lia.
  - intros Hout. unfold clientClose. fields. by apply filter_absent_id.
Qed.

Lemma listeners_counts_open_connections_witness :
  S (StreamState.listeners
       (getState (clientClose 0 (run (session_started ++ [AttachClient]) (initial [])))))
  = 2%nat
  /\ taps (clientClose 7 (run session_started (initial [])))
     = taps (run session_started (initial [])).
Proof.
  destruct (listeners_counts_open_connections (session_started ++ [AttachClient]) [] 0)
    as (_ & _ & Hclose & _).
  destruct (listeners_counts_open_connections session_started [] 7) as (_ & _ & _ & Hmiss).
  split.
  - destruct Hclose as (Hcount & _).
    + vm_compute. apply list_elem_of_here.
    + rewrite Hcount. reflexivity.
  - apply Hmiss. vm_compute. intros Hin. apply list_elem_of_singleton in Hin. discriminate.
Defined.

Lemma sinks_in_step_lookup (l : list Tap) (i j : nat) (older newer : Tap) :
  sinks_in_step l -> (i < j)%nat -> l !! i = Some older -> l !! j = Some newer ->
  in_step older newer.
Proof.
  revert i j. induction l as [|t l IH]; intros i j Hsync Hij Hi Hj; [done|].
  destruct Hsync as (_ & Hsteps & Hrest).
  destruct i as [|i], j as [|j]; try lia; simpl in *.
  - injection Hi as ->. apply (proj1 (Forall_forall _ _) Hsteps).
    by eapply list_elem_of_lookup_2.
  - apply (IH i j); [done | lia | done | done].
Qed.



Lemma sink_got_write (e : Event) (w : World) (data : Chunk) (tap' : Tap) :
  tap' ∈ map (write_live data) (taps w) ->
  sink_got e w tap' [] \/ sink_got e w tap' [data].
Proof.
  intros Hin. change (map (write_live data) (taps w)) with (write_live data <$> taps w) in Hin.
  apply list_elem_of_fmap in Hin as (tap & -> & Htap).
  unfold write_live. destruct (negb (destroyed tap)).
  - right. left. exists tap. by split_and!.
  - left. left. exists tap. split_and!; [done..|]. by rewrite app_nil_r.
Qed.

Lemma sink_got_same (e : Event) (w : World) (tap' : Tap) :
  tap' ∈ taps w -> sink_got e w tap' [].
Proof. intros Hin. left. exists tap'. split_and!; [done..|]. by rewrite app_nil_r. Qed.

(** What one event does to the set of sinks: nothing, one buffer written to
    every live sink, a sink attached, or a sink removed. *)
Lemma exec_taps_cases (e : Event) (w : World) (P : list Tap -> Prop) :
  P (taps w) ->
  (forall data : Chunk,
     silence data
     \/ (paused w = false /\ exists (pipe : nat) (now : Z), e = OutputData pipe data now) ->
     P (map (write_live data) (taps w))) ->
  (e = AttachClient ->
   P (taps w ++ [tap_write SILENCE_FRAME (mkTap (taps_made w) false [])])) ->
  (forall tap : nat,
     e = ClientClose tap -> P (filter (fun t => tap_id t ≠ tap) (taps w))) ->
  P (taps (exec e w)).
Proof.
  intros Hsame Hwrite Hattach Hclose.
  assert (Hframe : P (map (write_live SILENCE_FRAME) (taps w)))
    by (apply Hwrite; left; by left).
  assert (Hflush : P (map (write_live SILENCE_FLUSH) (taps w)))
    by (apply Hwrite; left; by right).
  destruct e; simpl; try assumption; crunch; try assumption.
  - by apply Hattach.
  - by apply Hclose.
  - apply Hwrite. right. split; [done|]. by eexists _, _.
  - apply Hwrite. right. split; [done|]. by eexists _, _.
Qed.

(** X10.  One event writes at most one buffer to a sink, and the buffer is
    a silence buffer unless the event is data from the encoder arriving while
    the service is not paused, in which case it is that data.  A sink of the
    state after the event was attached before and has the buffer appended,
    or was attached by the event and holds the buffer only.  In particular,
    while the service is paused nothing but silence reaches a listener. *)
Theorem only_encoder_data_is_audible (e : Event) (w : World) (tap' : Tap) :
  tap' ∈ taps (exec e w) ->
  exists extra : list Chunk,
    sink_got e w tap' extra
    /\ (length extra <= 1)%nat
    /\ forall c : Chunk,
         c ∈ extra ->
         silence c
         \/ (paused w = false /\ exists (pipe : nat) (now : Z), e = OutputData pipe c now).
Proof.
  apply (exec_taps_cases e w
           (fun l => tap' ∈ l ->
              exists extra : list Chunk,
                sink_got e w tap' extra /\ (length extra <= 1)%nat
                /\ forall c : Chunk, c ∈ extra ->
                     silence c
                     \/ (paused w = false
                         /\ exists (pipe : nat) (now : Z), e = OutputData pipe c now))).
  - intros Hold. exists []. split_and!; [by apply sink_got_same | simpl; lia |].
    intros c Hc. by apply elem_of_nil in Hc.
  - intros data Hdata Hnew. destruct (sink_got_write e w data tap' Hnew) as [Hgot|Hgot].
    + exists []. split_and!; [done | simpl; lia |]. intros c Hc. by apply elem_of_nil in Hc.
    + exists [data]. split_and!; [done | simpl; lia |].
      intros c Hc. apply list_elem_of_singleton in Hc. by subst c.
  - intros -> Hin. apply elem_of_app in Hin as [Hold|Hnew].
    + exists []. split_and!; [by apply sink_got_same | simpl; lia |].
      intros c Hc. by apply elem_of_nil in Hc.
    + apply list_elem_of_singleton in Hnew. subst tap'.
      exists [SILENCE_FRAME]. split_and!; [by right | simpl; lia |].
      intros c Hc. apply list_elem_of_singleton in Hc. subst c. left. by left.
  - intros tap -> Hin. apply list_elem_of_filter in Hin as [_ Hold].
    exists []. split_and!; [by apply sink_got_same | simpl; lia |].
    intros c Hc. by apply elem_of_nil in Hc.
Qed.

Lemma only_encoder_data_is_audible_witness :
  exists extra : list Chunk,
    sink_got (OutputData 0 audio 12000) (run session_paused (initial []))
             (mkTap 0 false [SILENCE_FRAME; audio; SILENCE_FLUSH; SILENCE_FRAME]) extra
    /\ (length extra <= 1)%nat
    /\ forall c : Chunk,
         c ∈ extra ->
         silence c
         \/ (paused (run session_paused (initial [])) = false
             /\ exists (pipe : nat) (now : Z),
                  OutputData 0 audio 12000 = OutputData pipe c now).
Proof.
  apply (only_encoder_data_is_audible (OutputData 0 audio 12000)
           (run session_paused (initial []))
           (mkTap 0 false [SILENCE_FRAME; audio; SILENCE_FLUSH; SILENCE_FRAME])).
  vm_compute. apply list_elem_of_here.
Defined.

Lemma reachable_owned (es : list Event) :
  NoDup (uuids es) -> exists used : list string, owned used (run es (initial [])).
Proof.
  intros Hnd. apply (run_owned es [] (initial []) initial_owned Hnd).
  intros x _. apply not_elem_of_nil.
Qed.

(** X12.  In a state the service reaches from an empty queue with ids that
    do not repeat, when the stream of a waiting start cannot be opened:
    nothing is playing, [getState] reports no current track, the queue is as
    it was and does not hold the failed track, which is dropped, the start
    no longer waits, and [playNext] is scheduled 1000 ms later. *)
Theorem failed_start_drops_the_track (es : list Event) (n : nat) (st : Start) :
  NoDup (uuids es) ->
  starts (run es (initial [])) !! n = Some st ->
  playing (streamFailed n (run es (initial []))) = false
  /\ StreamState.current (getState (streamFailed n (run es (initial [])))) = None
  /\ StreamState.queue (getState (streamFailed n (run es (initial []))))
     = StreamState.queue (getState (run es (initial [])))
  /\ (Track.id (s_track st)
      ∉ map Track.id (StreamState.queue (getState (streamFailed n (run es (initial []))))))
  /\ starts (streamFailed n (run es (initial []))) = delete n (starts (run es (initial [])))
  /\ timers (streamFailed n (run es (initial [])))
     = timers (run es (initial [])) ++ [TPlayNext 1000].
Proof.
  intros Hnd Hst. destruct (reachable_owned es Hnd) as [used Howned].
  unfold streamFailed, getState. rewrite Hst.
  unfold playNext_catch, finally_starting.
  destruct (awaited st); fields; split_and!; try reflexivity.
  all: unfold TrackQueue.snapshot;
    apply (taken_apart _ _ Howned); unfold taken_id; right; right; left;
    apply list_elem_of_fmap; exists st; split; [reflexivity|];
    by eapply list_elem_of_lookup_2.
Qed.

Lemma failed_start_drops_the_track_witness :
  StreamState.current (getState (streamFailed 0 (run session_starting (initial [])))) = None
  /\ ("id-1" ∉ map Track.id
        (StreamState.queue (getState (streamFailed 0 (run session_starting (initial []))))))
  /\ timers (streamFailed 0 (run session_starting (initial []))) = [TPlayNext 1000].
Proof.
  destruct (failed_start_drops_the_track session_starting 0 (mkStart T1 true))
    as (_ & Hcurrent & _ & Hgone & _ & Htimer).
  - vm_compute. apply NoDup_cons. split; [|apply NoDup_singleton].
    intros Hin. apply list_elem_of_singleton in Hin. discriminate.
  - reflexivity.
  - split_and!; [exact Hcurrent | exact Hgone | exact Htimer].
Defined.

Lemma sink_events_frame (es : list Event) (w : World) :
  forallb sink_event es = true ->
  pausedAt (run es w) = pausedAt w
  /\ signals (run es w) = signals w
  /\ currentFfmpegPid (run es w) = currentFfmpegPid w.
Proof.
  revert w. induction es as [|e es IH]; intros w Hes; [done|].
  simpl in Hes. apply andb_prop in Hes as [He Hes]. simpl.
  destruct (IH (exec e w) Hes) as (-> & -> & ->).
  destruct e; try discriminate; simpl; crunch; done.
Qed.

(** X13.  A pause followed by a resume moves the reported [startedAt]
    forward by the length of the pause.  In a state that is not paused and
    whose current (or last-played) track has the stamp [s]: after
    [setPaused(true)] at [t1], any activity of the silence timer and of
    listeners, and [setPaused(false)] at [t2], [getState] reports the track
    with [startedAt = s + totalPausedDuration + (t2 - t1)] and [paused]
    clear, and the encoder, when its pid is known, was sent SIGSTOP and then
    SIGCONT and nothing else.  The clock never reads [0]. *)
Theorem pause_shifts_timeline_by_its_length
    (w : World) (tr : Track.t) (s t1 t2 : Z) (es : list Event) :
  paused w = false ->
  match currentTrack w with Some cur => Some cur | None => lastPlayedTrack w end = Some tr ->
  Track.startedAt tr = Some s -> s <> 0 -> t1 <> 0 ->
  forallb sink_event es = true ->
  StreamState.current (getState (setPaused false t2 (run es (setPaused true t1 w))))
  = Some (Track.mk (Track.id tr) (Track.url tr) (Track.title tr) (Track.thumbnail tr)
                   (Track.duration tr) (Some (s + totalPausedDuration w + (t2 - t1)))
                   (Track.source tr) (Track.requestedBy tr))
  /\ StreamState.paused (getState (setPaused false t2 (run es (setPaused true t1 w))))
     = false
  /\ signals (setPaused false t2 (run es (setPaused true t1 w)))
     = signals w
       ++ match currentFfmpegPid w with
          | Some pid => if pid =? 0 then [] else [(pid, SIGSTOP); (pid, SIGCONT)]
          | None => []
          end.
Proof.
  intros Hp Htr Hs Hs0 Ht1 Hes.
  pose proof (sink_events_timeline es (setPaused true t1 w) Hes) as Htl.
  destruct (sink_events_frame es (setPaused true t1 w) Hes) as (Hat & Hsig & Hpid).
  assert (Hw1 : timeline (setPaused true t1 w)
                = (currentTrack w, lastPlayedTrack w, totalPausedDuration w, true)
                /\ pausedAt (setPaused true t1 w) = Some t1
                /\ currentFfmpegPid (setPaused true t1 w) = currentFfmpegPid w
                /\ signals (setPaused true t1 w)
                   = signals w
                     ++ if truthy_num (currentFfmpegPid w)
                        then [(default 0 (currentFfmpegPid w), SIGSTOP)] else []).
  { unfold timeline, setPaused, signal_encoder, flushWithSilence. rewrite Hp.
    simpl. destruct (truthy_num (currentFfmpegPid w)); fields;
      rewrite ?app_nil_r; done. }
  destruct Hw1 as (Hw1 & Hat1 & Hpid1 & Hsig1).
  rewrite Hw1 in Htl. rewrite Hat1 in Hat. rewrite Hpid1 in Hpid. rewrite Hsig1 in Hsig.
  unfold timeline in Htl. injection Htl as Hcur Hlast Htotal Hpaused.
  remember (run es (setPaused true t1 w)) as w2 eqn:Hw2. clear Hw2.
  assert (Hz : (t1 =? 0) = false) by (apply Z.eqb_neq; done).
  assert (Hsz : (s =? 0) = false) by (apply Z.eqb_neq; done).
  unfold getState, setPaused. rewrite Hpaused, Hat. simpl. rewrite Hz. simpl.
  unfold signal_encoder. fields. rewrite Hpid.
  destruct (truthy_num (currentFfmpegPid w)) eqn:Hknown; fields;
    rewrite Hcur, Hlast, Htotal, Htr, ?Hsig; simpl; rewrite Hs; simpl;
    rewrite Hsz; simpl.
  all: split_and!; [unfold Track.with_startedAt; do 3 f_equal; lia | reflexivity |].
  all: unfold truthy_num in Hknown; destruct (currentFfmpegPid w) as [pid|]; simpl in *;
    try discriminate; try (by rewrite app_nil_r).
  all: destruct (pid =? 0); simpl in *; try discriminate; try done.
  by rewrite <- app_assoc.
Qed.

Lemma pause_shifts_timeline_by_its_length_witness :
  StreamState.current
    (getState (setPaused false 26000
                 (run [SilenceTick; AttachClient]
                      (setPaused true 11000 (run session_started (initial []))))))
  = Some (Track.mk "id-1" "https://youtu.be/X" "Song A" None (Some 60) (Some 16000)
                   youtube ann)
  /\ signals (setPaused false 26000
                (run [SilenceTick; AttachClient]
                     (setPaused true 11000 (run session_started (initial [])))))
     = [(4242, SIGSTOP); (4242, SIGCONT)].
Proof.
  destruct (pause_shifts_timeline_by_its_length
              (run session_started (initial []))
              (Track.mk "id-1" "https://youtu.be/X" "Song A" None (Some 60) (Some 1000)
                        youtube ann)
              1000 11000 26000 [SilenceTick; AttachClient])
    as (Hcurrent & _ & Hsignals); try reflexivity; try lia.
  split; [exact Hcurrent | exact Hsignals].
Defined.

(** X11.  After any sequence of events on a service built with an empty
    queue, in which [randomUUID()] never returned the same id twice, the ids
    in the queue that [getState] reports are pairwise distinct.  So after
    [remove(id)] no queued track has that id, and [move] keeps the ids
    distinct. *)
Theorem queued_ids_stay_distinct (es : list Event) (trackId : string) (k : Z) :
  NoDup (uuids es) ->
  NoDup (map Track.id (StreamState.queue (getState (run es (initial [])))))
  /\ (trackId
      ∉ map Track.id
          (StreamState.queue (getState (exec (Remove trackId) (run es (initial []))))))
  /\ NoDup (map Track.id
              (StreamState.queue
                 (getState (exec (Move trackId k) (run es (initial [])))))).
Proof.
  intros Hnd. destruct (reachable_owned es Hnd) as [used Howned].
  pose proof (queued_once _ _ Howned) as Hq. unfold queued_ids in Hq.
  split_and!.
  - exact Hq.
  - simpl. unfold TrackQueue.snapshot. by apply remove_distinct.
  - simpl. unfold TrackQueue.snapshot.
    change (map Track.id) with (fmap (M:=list) Track.id).
    eapply NoDup_submseteq_inv; [|exact Hq].
    apply Permutation_submseteq, fmap_Permutation, move_permutation.
Qed.

Lemma queued_ids_stay_distinct_witness :
  NoDup (map Track.id
           (StreamState.queue
              (getState (run (session_starting ++ [Enqueue "id-3" payload_c])
                             (initial [])))))
  /\ "id-2" ∉ map Track.id
       (StreamState.queue
          (getState (exec (Remove "id-2")
                          (run (session_starting ++ [Enqueue "id-3" payload_c])
                               (initial []))))).
Proof.
  destruct (queued_ids_stay_distinct (session_starting ++ [Enqueue "id-3" payload_c])
              "id-2" 0) as (Hdistinct & Hgone & _).
  - vm_compute.
    repeat (apply NoDup_cons; split;
            [intros Hin; repeat (apply elem_of_cons in Hin as [Hin|Hin]; [discriminate|]);
             by apply elem_of_nil in Hin|]).
    apply NoDup_nil_2.
  - split; [exact Hdistinct | exact Hgone].
Defined.

(** ** The HTTP interface *)

Lemma set_queue_same (w : World) : set_queue (queue w) w = w.
Proof. by destruct w. Qed.

Lemma isPaused_setPaused (p : bool) (now : Z) (w : World) :
  isPaused (setPaused p now w) = p.
Proof.
  unfold isPaused, setPaused, signal_encoder, flushWithSilence.
  destruct p, (paused w) eqn:Hp; simpl; fields; repeat (case_match; fields); done.
Qed.

Lemma Array_includes_elem (x : string) (l : list string) :
  Array_includes x l = true <-> x ∈ l.
Proof.
  unfold Array_includes. rewrite existsb_exists. split.
  - intros (y & Hy & Heq). apply String.eqb_eq in Heq. subst y. by apply list_elem_of_In.
  - intros Hin. exists x. split; [by apply list_elem_of_In | apply String.eqb_refl].
Qed.

Lemma remove_unfound (trackId : string) (q : list Track.t) :
  fst (TrackQueue.remove trackId q) = false -> snd (TrackQueue.remove trackId q) = q.
Proof. unfold TrackQueue.remove. by case_match. Qed.

Lemma move_unfound (trackId : string) (k : Z) (q : list Track.t) :
  fst (TrackQueue.move trackId k q) = false -> snd (TrackQueue.move trackId k q) = q.
Proof.
  unfold TrackQueue.move. case_match; [done|].
  destruct (splice _ 1 [] q) as [[|track removed] q1]; done.
Qed.

Lemma deleteQueue_spec (trackId : string) (w : World) :
  deleteQueue trackId w
  = (mkReply (if fst (TrackQueue.remove trackId (queue w)) then 200 else 404)
             (if fst (TrackQueue.remove trackId (queue w)) then JsonOk
              else JsonMessage "Track not found in queue"),
     exec (Remove trackId) w).
Proof.
  unfold deleteQueue. simpl.
  destruct (TrackQueue.remove trackId (queue w)) as [[|] q]; reflexivity.
Qed.

Lemma patchQueue_spec (trackId : string) (k : Z) (w : World) :
  patchQueue trackId (JsNumber k) w
  = (mkReply (if fst (TrackQueue.move trackId k (queue w)) then 200 else 404)
             (if fst (TrackQueue.move trackId k (queue w)) then JsonOk
              else JsonMessage "Track not found in queue"),
     exec (Move trackId k) w).
Proof.
  unfold patchQueue. simpl.
  destruct (TrackQueue.move trackId k (queue w)) as [[|] q]; reflexivity.
Qed.

Lemma enqueue_and_play_spec (env : Env) (payload : Payload) (w : World) :
  enqueue_and_play env payload w
  = (mkReply 201 (JsonTrack (fst (TrackQueue.enqueue (env_uuid env) payload (queue w)))),
     run [Enqueue (env_uuid env) payload; EnsurePlaying] w).
Proof. reflexivity. Qed.

(** What [postQueue] comes to: a refusal that leaves the service alone, or
    a payload that is queued. *)
Lemma postQueue_cases (env : Env) (user : User) (url : JsValue) (w : World) :
  (exists reply : Reply,
     postQueue env user url w = (reply, w)
     /\ reply_status reply ∈ [400; 422; 500; 503])
  \/ (exists (s : string) (payload : Payload),
        url = JsString s /\ s <> EmptyString
        /\ postQueue env user url w = enqueue_and_play env payload w
        /\ p_requestedBy payload
           = mkRequester (user_id user) (user_displayName user) (user_avatar user)
        /\ p_startedAt payload = None
        /\ match p_source payload with
           | youtube =>
               play_validate env (trim s) = Returned yt_video
               /\ p_url payload
                  = normalizeYoutubeUrl (url_parse env) (url_serialize env) (trim s)
           | soundcloud =>
               play_validate env (trim s) = Returned so_track
               /\ p_url payload = trim s
               /\ soundcloudClientId (env_config env) <> EmptyString
           end).
Proof.
  assert (Hin : forall (n : Z) (b : Body), n ∈ [400; 422; 500; 503] ->
                exists reply : Reply,
                  (mkReply n b, w) = (reply, w) /\ reply_status reply ∈ [400; 422; 500; 503]).
  { intros n b Hn. by exists (mkReply n b). }
  unfold postQueue, unexpected.
  destruct url as [| |[|]|n|s]; try (left; apply Hin; listed).
  - destruct (n =? 0); left; apply Hin; listed.
  - destruct (s =? EmptyString)%string eqn:Hs; [left; apply Hin; listed|].
    apply String.eqb_neq in Hs.
    destruct (play_validate env (trim s)) as [[| |]|] eqn:Hkind;
      try (left; apply Hin; listed).
    + destruct (fetchYoutubeMetadata env _) as [info|]; [|left; apply Hin; listed].
      right. eexists s, _. split_and!; [done | done | reflexivity | done | done |].
      simpl. done.
    + destruct (truthy_str (Some (soundcloudClientId (env_config env)))) eqn:Hid; simpl;
        [|left; apply Hin; listed].
      destruct (play_soundcloud env (trim s)) as [[scTrack|]|];
        try (left; apply Hin; listed).
      right. eexists s, _. split_and!; [done | done | reflexivity | done | done |].
      simpl. split_and!; [done..|]. intros Hempty. rewrite Hempty in Hid. discriminate.
Qed.

Lemma authorized_cases (config : Config) (user : option User)
    (handler : User -> World -> Reply * World) (w : World) :
  (exists reply : Reply,
     authorized config user handler w = (reply, w)
     /\ ((user = None /\ reply = mkReply 401 (JsonMessage "Steam login required"))
         \/ (exists u : User,
               user = Some u
               /\ hasStreamAccess config (user_id u) (Boolean (isAdmin u)) = false
               /\ reply = mkReply 403 (JsonMessage "Account not allowed"))))
  \/ (exists u : User,
        user = Some u
        /\ hasStreamAccess config (user_id u) (Boolean (isAdmin u)) = true
        /\ authorized config user handler w = handler u w).
Proof.
  unfold authorized, requireAuth. destruct user as [u|].
  - destruct (hasStreamAccess config (user_id u) (Boolean (isAdmin u))) eqn:Haccess; simpl.
    + right. by exists u.
    + left. eexists. split; [reflexivity|]. right. by exists u.
  - left. eexists. split; [reflexivity|]. by left.
Qed.

(** A reply that leaves the service as it is. *)
Lemma nothing_done (env : Env) (route : Route) (reply : Reply) (w : World) :
  (exists es : list Event,
     snd (reply, w) = run es w
     /\ (length es <= 2)%nat
     /\ (forall x : string, x ∈ uuids es -> x = env_uuid env)
     /\ (guarded route = false -> es = [] \/ es = [AttachClient]))
  /\ (400 <= reply_status (fst (reply, w)) -> snd (reply, w) = w).
Proof.
  split; [|done]. exists []. split_and!; [done | simpl; lia | | by left].
  intros x Hx. by apply elem_of_nil in Hx.
Qed.

(** A reply together with the events [es] run on the service. *)
Lemma something_done (env : Env) (route : Route) (reply : Reply) (w : World)
    (es : list Event) :
  (length es <= 2)%nat ->
  (forall x : string, x ∈ uuids es -> x = env_uuid env) ->
  (guarded route = false -> es = [] \/ es = [AttachClient]) ->
  (400 <= reply_status reply -> run es w = w) ->
  (exists es' : list Event,
     snd (reply, run es w) = run es' w
     /\ (length es' <= 2)%nat
     /\ (forall x : string, x ∈ uuids es' -> x = env_uuid env)
     /\ (guarded route = false -> es' = [] \/ es' = [AttachClient]))
  /\ (400 <= reply_status (fst (reply, run es w)) -> snd (reply, run es w) = w).
Proof. intros Hlen Hids Hopen Hrefused. split; [by exists es | done]. Qed.

Lemma no_uuid (env : Env) (es : list Event) :
  uuids es = [] -> forall x : string, x ∈ uuids es -> x = env_uuid env.
Proof. intros -> x Hx. by apply elem_of_nil in Hx. Qed.

(** X14.  Every request acts on the service through its operations: the
    service after the request is the service before it after at most two of
    the events of the engine, and the only id an [enqueue] among them uses is
    the one drawn for the request; a route without [requireAuth] does
    nothing or attaches the listener.  A request answered with a status of
    400 or more leaves the service exactly as it was. *)
Theorem requests_act_through_the_service (env : Env) (req : Request) (w : World) :
  (exists es : list Event,
     snd (handle env req w) = run es w
     /\ (length es <= 2)%nat
     /\ (forall x : string, x ∈ uuids es -> x = env_uuid env)
     /\ (guarded (req_route req) = false -> es = [] \/ es = [AttachClient]))
  /\ (400 <= reply_status (fst (handle env req w)) -> snd (handle env req w) = w).
Proof.
  unfold handle. destruct req as [user route]. cbn [req_route req_user].
  destruct route as [| |p| |trackId|trackId index|url| |source];
    try apply nothing_done;
    try (match goal with
         | |- context [authorized _ _ ?h _] =>
             destruct (authorized_cases (env_config env) user h w)
               as [(reply & -> & _)|(u & _ & _ & ->)]; [apply nothing_done|]
         end).
  - unfold postPause. destruct p as [| |b| |]; cbv beta iota; try apply nothing_done.
    apply (something_done env _ _ w [SetPaused b (env_now env)]);
      [simpl; lia | by apply no_uuid | done | simpl; lia].
  - apply (something_done env _ _ w [SkipCurrent]);
      [simpl; lia | by apply no_uuid | done | simpl; lia].
  - rewrite deleteQueue_spec.
    apply (something_done env _ _ w [Remove trackId]);
      [simpl; lia | by apply no_uuid | done |].
    destruct (fst (TrackQueue.remove trackId (queue w))) eqn:Hfound; simpl; [lia|].
    intros _. rewrite (remove_unfound _ _ Hfound). apply set_queue_same.
  - destruct index as [| | |k|]; try (unfold patchQueue; cbv beta iota; apply nothing_done).
    rewrite patchQueue_spec.
    apply (something_done env _ _ w [Move trackId k]);
      [simpl; lia | by apply no_uuid | done |].
    destruct (fst (TrackQueue.move trackId k (queue w))) eqn:Hfound; simpl; [lia|].
    intros _. rewrite (move_unfound _ _ _ Hfound). apply set_queue_same.
  - destruct (postQueue_cases env u url w) as [(reply & -> & _)|(s & payload & _ & _ & -> & _)];
      [apply nothing_done|].
    rewrite enqueue_and_play_spec.
    apply (something_done env _ _ w [Enqueue (env_uuid env) payload; EnsurePlaying]);
      [simpl; lia | | done | simpl; lia].
    intros x Hx. simpl in Hx. by apply list_elem_of_singleton in Hx.
  - apply (something_done env _ _ w [AttachClient]);
      [simpl; lia | by apply no_uuid | by right | simpl; lia].
Qed.

Lemma requests_act_through_the_service_witness :
  snd (handle radio_env (mkRequest None (DeleteQueue "id-1"))
              (run session_starting (initial [])))
  = run session_starting (initial []).
Proof.
  apply requests_act_through_the_service. simpl. lia.
Defined.

(** X15.  The routes registered with [requireAuth] answer 401 to a request
    without a session user and 403 to a user who is neither an administrator
    nor on the allow list, and leave the service as it is in both cases.  A
    request to such a route answered with any other status comes from a user
    who is an administrator or on the allow list.  The other routes never
    answer 401 or 403. *)
Theorem guarded_routes_need_access (env : Env) (req : Request) (w : World) :
  (guarded (req_route req) = true -> req_user req = None ->
   handle env req w = (mkReply 401 (JsonMessage "Steam login required"), w))
  /\ (forall u : User,
        guarded (req_route req) = true -> req_user req = Some u ->
        Boolean (isAdmin u) = false -> user_id u ∉ allowedSteamIds (env_config env) ->
        handle env req w = (mkReply 403 (JsonMessage "Account not allowed"), w))
  /\ (guarded (req_route req) = true ->
      reply_status (fst (handle env req w)) <> 401 ->
      reply_status (fst (handle env req w)) <> 403 ->
      exists u : User,
        req_user req = Some u
        /\ (isAdmin u = Some true \/ user_id u ∈ allowedSteamIds (env_config env)))
  /\ (guarded (req_route req) = false ->
      reply_status (fst (handle env req w)) <> 401
      /\ reply_status (fst (handle env req w)) <> 403).
Proof.
  destruct req as [user route]. unfold handle. cbn [req_route req_user].
  split_and!.
  - intros Hguard ->. destruct route; try discriminate; reflexivity.
  - intros u Hguard -> Hadmin Hallowed.
    assert (Hno : hasStreamAccess (env_config env) (user_id u) (Boolean (isAdmin u)) = false).
    { unfold hasStreamAccess. rewrite Hadmin. apply not_true_is_false.
      by rewrite Array_includes_elem. }
    destruct route; try discriminate; unfold authorized, requireAuth; by rewrite Hno.
  - intros Hguard H401 H403.
    assert (Hgate : forall handler,
              reply_status (fst (authorized (env_config env) user handler w)) <> 401 ->
              reply_status (fst (authorized (env_config env) user handler w)) <> 403 ->
              exists u : User,
                user = Some u
                /\ (isAdmin u = Some true \/ user_id u ∈ allowedSteamIds (env_config env))).
    { intros handler Hno401 Hno403.
      destruct (authorized_cases (env_config env) user handler w)
        as [(reply & Heq & [[_ ->]|(u & _ & _ & ->)])|(u & -> & Haccess & _)].
      - by rewrite Heq in Hno401.
      - by rewrite Heq in Hno403.
      - exists u. split; [done|]. unfold hasStreamAccess, Boolean in Haccess.
        destruct (isAdmin u) as [[|]|]; simpl in Haccess; [by left | |];
          right; by apply Array_includes_elem. }
    destruct route; try discriminate; by eapply Hgate.
  - intros Hguard. destruct route; try discriminate; simpl; try (split; lia).
    unfold serveThumbnail.
    repeat (case_match; simpl; try (split; lia)).
Qed.

Lemma guarded_routes_need_access_witness :
  handle radio_env (mkRequest None PostSkip) (run session_started (initial []))
  = (mkReply 401 (JsonMessage "Steam login required"), run session_started (initial []))
  /\ handle radio_env (mkRequest (Some bob_user) PostSkip) (run session_started (initial []))
     = (mkReply 403 (JsonMessage "Account not allowed"), run session_started (initial [])).
Proof.
  destruct (guarded_routes_need_access radio_env (mkRequest None PostSkip)
              (run session_started (initial []))) as (Hanonymous & _).
  destruct (guarded_routes_need_access radio_env (mkRequest (Some bob_user) PostSkip)
              (run session_started (initial []))) as (_ & Hstranger & _).
  split.
  - apply Hanonymous; reflexivity.
  - apply (Hstranger bob_user); try reflexivity.
    simpl. intros Hin. apply list_elem_of_singleton in Hin. discriminate.
Defined.

(** X16.  The Steam verify callback refuses a profile exactly when its id
    is neither on the administrator list nor on the allow list.  The user it
    otherwise makes has the id, display name and first photo of the profile,
    is an administrator exactly when the id is on the administrator list,
    passes [requireAuth], and is told [canQueue] by [/api/me]. *)
Theorem login_admits_who_requireAuth_admits (config : Config) (profile : Profile) :
  (verify config profile = None
   <-> (profile_id profile ∉ adminSteamIds config)
       /\ (profile_id profile ∉ allowedSteamIds config))
  /\ forall user : User,
       verify config profile = Some user ->
       user_id user = profile_id profile
       /\ user_displayName user = profile_displayName profile
       /\ user_avatar user = head (photos profile)
       /\ (isAdmin user = Some true <-> profile_id profile ∈ adminSteamIds config)
       /\ requireAuth config (Some user) = inr user
       /\ getMe config (Some user) = mkReply 200 (JsonMe (Some user) true).
Proof.
  unfold verify, hasStreamAccess.
  destruct (Array_includes (profile_id profile) (adminSteamIds config)) eqn:Hadmin;
    destruct (Array_includes (profile_id profile) (allowedSteamIds config)) eqn:Hallowed;
    simpl.
  all: try apply Array_includes_elem in Hadmin.
  all: try apply Array_includes_elem in Hallowed.
  all: try (apply not_true_iff_false in Hadmin; rewrite Array_includes_elem in Hadmin).
  all: try (apply not_true_iff_false in Hallowed; rewrite Array_includes_elem in Hallowed).
  all: split; [split; [try discriminate; done | intros [? ?]; done] |].
  all: intros user Huser; try discriminate; injection Huser as <-; simpl.
  all: unfold requireAuth, getMe, hasStreamAccess; simpl.
  all: split_and!; try done.
  all: try (by rewrite (proj2 (Array_includes_elem _ _) Hallowed)).
  all: split; [discriminate | done].
Qed.

Lemma login_admits_who_requireAuth_admits_witness :
  requireAuth (mkConfig ["76561198000000001"] [] EmptyString false false)
              (Some (mkUser "76561198000000001" "Ann" None (Some true)))
  = inr (mkUser "76561198000000001" "Ann" None (Some true)).
Proof.
  destruct (login_admits_who_requireAuth_admits
              (mkConfig ["76561198000000001"] [] EmptyString false false)
              (mkProfile "76561198000000001" "Ann" [])) as [_ Huser].
  destruct (Huser (mkUser "76561198000000001" "Ann" None (Some true)) eq_refl)
    as (_ & _ & _ & _ & Hgate & _).
  exact Hgate.
Defined.



(** X18.  For a user with access, POST /api/pause with a boolean answers
    200 with that same boolean as [paused], whatever the state before, and
    the state [getState] reports afterwards has that [paused] flag; with
    anything but a boolean it answers 400 and leaves the service as it is. *)
Theorem pause_reply_echoes_request (env : Env) (u : User) (p : bool) (w : World) :
  hasStreamAccess (env_config env) (user_id u) (Boolean (isAdmin u)) = true ->
  handle env (mkRequest (Some u) (PostPause (JsBool p))) w
  = (mkReply 200 (JsonPaused p), setPaused p (env_now env) w)
  /\ StreamState.paused
       (getState (snd (handle env (mkRequest (Some u) (PostPause (JsBool p))) w))) = p
  /\ forall v : JsValue,
       (forall b : bool, v <> JsBool b) ->
       reply_status (fst (handle env (mkRequest (Some u) (PostPause v)) w)) = 400
       /\ snd (handle env (mkRequest (Some u) (PostPause v)) w) = w.
Proof.
  intros Haccess. unfold handle, authorized, requireAuth. cbn [req_route req_user].
  rewrite Haccess. cbn [negb]. unfold postPause. split_and!.
  - by rewrite isPaused_setPaused.
  - cbn [snd]. unfold getState. cbn [StreamState.paused].
    apply (isPaused_setPaused p (env_now env) w).
  - intros v Hv. destruct v as [| |b| |]; try done. by destruct (Hv b).
Qed.

Lemma pause_reply_echoes_request_witness :
  handle radio_env (mkRequest (Some ann_user) (PostPause (JsBool true)))
         (run session_started (initial []))
  = (mkReply 200 (JsonPaused true), setPaused true 11000 (run session_started (initial [])))
  /\ StreamState.paused
       (getState (snd (handle radio_env (mkRequest (Some ann_user) (PostPause (JsBool true)))
                              (run session_started (initial [])))))
     = true.
Proof.
  destruct (pause_reply_echoes_request radio_env ann_user true
              (run session_started (initial []))) as (Hreply & Hstate & _).
  - vm_compute. reflexivity.
  - split; [exact Hreply | exact Hstate].
Defined.

(** X19.  For a user with access, DELETE and PATCH on /api/queue/:trackId
    answer 200 when a queued track has the id and 404 when none has, and in
    the second case leave the service as it is.  What they do to the service
    is [remove(id)] and [move(id, index)].  PATCH with an index that is not a
    number answers 400 and leaves the service as it is. *)
Theorem queue_edits_report_unknown_ids
    (env : Env) (u : User) (trackId : string) (k : Z) (w : World) :
  hasStreamAccess (env_config env) (user_id u) (Boolean (isAdmin u)) = true ->
  (trackId ∈ map Track.id (queue w) ->
   reply_status (fst (handle env (mkRequest (Some u) (DeleteQueue trackId)) w)) = 200
   /\ reply_status
        (fst (handle env (mkRequest (Some u) (PatchQueue trackId (JsNumber k))) w)) = 200)
  /\ (trackId ∉ map Track.id (queue w) ->
      handle env (mkRequest (Some u) (DeleteQueue trackId)) w
      = (mkReply 404 (JsonMessage "Track not found in queue"), w)
      /\ handle env (mkRequest (Some u) (PatchQueue trackId (JsNumber k))) w
         = (mkReply 404 (JsonMessage "Track not found in queue"), w))
  /\ snd (handle env (mkRequest (Some u) (DeleteQueue trackId)) w)
     = exec (Remove trackId) w
  /\ snd (handle env (mkRequest (Some u) (PatchQueue trackId (JsNumber k))) w)
     = exec (Move trackId k) w
  /\ forall v : JsValue,
       (forall n : Z, v <> JsNumber n) ->
       reply_status (fst (handle env (mkRequest (Some u) (PatchQueue trackId v)) w)) = 400
       /\ snd (handle env (mkRequest (Some u) (PatchQueue trackId v)) w) = w.
Proof.
  intros Haccess. unfold handle, authorized, requireAuth. cbn [req_route req_user].
  rewrite Haccess. cbn [negb].
  rewrite deleteQueue_spec, patchQueue_spec, move_finds_what_remove_finds.
  split_and!; try reflexivity.
  - intros Hin.
    destruct (remove_first_match (queue w) trackId Hin) as (i & track & _ & _ & _ & ->).
    done.
  - intros Hout. rewrite (remove_absent (queue w) trackId Hout). cbn [fst].
    split; f_equal; simpl.
    + rewrite (remove_absent (queue w) trackId Hout). apply set_queue_same.
    + rewrite move_unfound; [apply set_queue_same|].
      by rewrite move_finds_what_remove_finds, (remove_absent (queue w) trackId Hout).
  - intros v Hv. destruct v as [| | |n|]; try done. by destruct (Hv n).
Qed.

Lemma queue_edits_report_unknown_ids_witness :
  reply_status (fst (handle radio_env (mkRequest (Some ann_user) (DeleteQueue "id-2"))
                            (run session_starting (initial [])))) = 200
  /\ handle radio_env (mkRequest (Some ann_user) (PatchQueue "id-1" (JsNumber 0)))
            (run session_starting (initial []))
     = (mkReply 404 (JsonMessage "Track not found in queue"),
        run session_starting (initial [])).
Proof.
  destruct (queue_edits_report_unknown_ids radio_env ann_user "id-2" 0
              (run session_starting (initial []))) as (Hknown & _).
  { vm_compute. reflexivity. }
  destruct (queue_edits_report_unknown_ids radio_env ann_user "id-1" 0
              (run session_starting (initial []))) as (_ & Hunknown & _).
  { vm_compute. reflexivity. }
  destruct Hknown as [Hdeleted _].
  { vm_compute. apply list_elem_of_here. }
  destruct Hunknown as [_ Hmissing].
  { vm_compute. intros Hin. apply list_elem_of_singleton in Hin. discriminate. }
  split; [exact Hdeleted | exact Hmissing].
Defined.

(** X20.  In every state the service reaches, at least one of the two
    thumbnail routes answers 404.  A thumbnail route answers 200, 404, 500 or
    502, and never changes the service.  When it answers 200, the body is the
    PNG made of what the current thumbnail of its source, a url that is not
    empty, was fetched as. *)
Theorem thumbnail_routes_serve_one_source
    (env : Env) (es : list Event) (q : list Track.t) (source : Source) :
  (reply_status (serveThumbnail env youtube (run es (initial q))) = 404
   \/ reply_status (serveThumbnail env soundcloud (run es (initial q))) = 404)
  /\ reply_status (serveThumbnail env source (run es (initial q))) ∈ [200; 404; 500; 502]
  /\ (reply_status (serveThumbnail env source (run es (initial q))) = 200 ->
      exists (url : string) (bytes image : list byte),
        getCurrentThumbnail source (run es (initial q)) = Some url
        /\ url <> EmptyString
        /\ fetch_image env url = Returned (true, bytes)
        /\ sharp_png env source bytes = Returned image
        /\ reply_body (serveThumbnail env source (run es (initial q))) = PngImage image)
  /\ snd (handle env (mkRequest None (GetThumbnail source)) (run es (initial q)))
     = run es (initial q).
Proof.
  split_and!.
  - assert (Hone : one_thumbnail (run es (initial q))).
    { apply run_invariant; [by left | apply exec_one_thumbnail]. }
    unfold serveThumbnail, getCurrentThumbnail. destruct Hone as [-> | ->]; auto.
  - unfold serveThumbnail.
    repeat (case_match; simpl); listed.
  - unfold serveThumbnail.
    destruct (getCurrentThumbnail source (run es (initial q))) as [url|] eqn:Hurl;
      simpl; [|discriminate].
    destruct (url =? EmptyString)%string eqn:Hempty; simpl; [discriminate|].
    apply String.eqb_neq in Hempty.
    destruct (fetch_image env url) as [[[|] bytes]|] eqn:Hfetch; simpl; try discriminate.
    destruct (sharp_png env source bytes) as [image|] eqn:Hpng; simpl; try discriminate.
    intros _. by exists url, bytes, image.
  - reflexivity.
Qed.

Lemma thumbnail_routes_serve_one_source_witness :
  exists (url : string) (bytes image : list byte),
    getCurrentThumbnail youtube (run (session_with_thumbnail ++ [StreamReady 0]) (initial []))
    = Some url
    /\ url <> EmptyString
    /\ fetch_image radio_env url = Returned (true, bytes)
    /\ sharp_png radio_env youtube bytes = Returned image
    /\ reply_body (serveThumbnail radio_env youtube
                     (run (session_with_thumbnail ++ [StreamReady 0]) (initial [])))
       = PngImage image.
Proof.
  destruct (thumbnail_routes_serve_one_source radio_env
              (session_with_thumbnail ++ [StreamReady 0]) [] youtube)
    as (_ & _ & Hserved & _).
  apply Hserved. vm_compute. reflexivity.
Defined.

(** ** Opening the audio stream *)

(** X21.  [createAudioStream] calls one opener, or two: SoundCloud tracks
    start with the SoundCloud opener, YouTube tracks with yt-dlp when
    [ytdlpFirst] is set and with ytdl-core otherwise.  A second opener is
    called only after the first threw, and the call ends as the last opener
    called ends.  yt-dlp is called exactly: for a SoundCloud track when the
    SoundCloud opener threw, whatever [disableYtDlp] says; for a YouTube
    track when [ytdlpFirst] is set, or when [disableYtDlp] is clear and
    ytdl-core threw.  With [disableYtDlp] set and [ytdlpFirst] clear, a
    YouTube track is opened by ytdl-core alone. *)
Theorem createAudioStream_fallback {Readable : Type} (config : Config)
    (streamWithSoundCloud streamWithYtdl streamWithYtDlp : string -> Await Readable)
    (track : Track.t) :
  (exists (first : Opener) (others : list Opener),
     fst (createAudioStream config streamWithSoundCloud streamWithYtdl streamWithYtDlp track)
     = first :: others
     /\ (length others <= 1)%nat
     /\ first = match Track.source track with
                | soundcloud => WithSoundCloud
                | youtube => if ytdlpFirst config then WithYtDlp else WithYtdl
                end)
  /\ (forall (i : nat) (opener : Opener),
        fst (createAudioStream config streamWithSoundCloud streamWithYtdl streamWithYtDlp
               track) !! i = Some opener ->
        if decide (S i = length (fst (createAudioStream config streamWithSoundCloud
                                        streamWithYtdl streamWithYtDlp track)))
        then snd (createAudioStream config streamWithSoundCloud streamWithYtdl
                    streamWithYtDlp track)
             = open_with streamWithSoundCloud streamWithYtdl streamWithYtDlp opener
                         (Track.url track)
        else threw (open_with streamWithSoundCloud streamWithYtdl streamWithYtDlp opener
                              (Track.url track)) = true)
  /\ (WithYtDlp ∈ fst (createAudioStream config streamWithSoundCloud streamWithYtdl
                          streamWithYtDlp track)
      <-> match Track.source track with
          | soundcloud => threw (streamWithSoundCloud (Track.url track)) = true
          | youtube =>
              ytdlpFirst config = true
              \/ (disableYtDlp config = false
                  /\ threw (streamWithYtdl (Track.url track)) = true)
          end)
  /\ (Track.source track = youtube -> ytdlpFirst config = false ->
      disableYtDlp config = true ->
      createAudioStream config streamWithSoundCloud streamWithYtdl streamWithYtDlp track
      = ([WithYtdl], streamWithYtdl (Track.url track))).
Proof.
  unfold createAudioStream.
  destruct (Track.source track), (ytdlpFirst config) eqn:Hfirst,
    (disableYtDlp config) eqn:Hdisable,
    (streamWithSoundCloud (Track.url track)) eqn:Hsc,
    (streamWithYtdl (Track.url track)) eqn:Hytdl; simpl.
  all: split_and!;
    [ eexists _, _; split_and!; [reflexivity | simpl; lia | reflexivity]
    | intros [|[|i]] opener Hopener; simpl in Hopener; try discriminate;
      injection Hopener as <-; simpl; try rewrite Hsc; try rewrite Hytdl; done
    | split;
      [ intros Hin;
        repeat (apply elem_of_cons in Hin as [Hin|Hin]; [try discriminate|]);
        try (by apply elem_of_nil in Hin); auto
      | intros Hwhy; destruct_or?; destruct_and?; try discriminate; listed ]
    | intros; try discriminate; try reflexivity ].
Qed.

Lemma createAudioStream_fallback_witness :
  createAudioStream no_ytdlp (fun _ => Thrown "no stream") (fun _ => Thrown "not YouTube")
                    (fun url => Returned url) T3
  = ([WithSoundCloud; WithYtDlp], Returned "https://soundcloud.com/artist/c")
  /\ createAudioStream no_ytdlp (fun _ => Thrown "no stream")
                       (fun _ => Thrown "not available") (fun url => Returned url) T1
     = ([WithYtdl], Thrown "not available").
Proof.
  destruct (createAudioStream_fallback no_ytdlp (fun _ => Thrown "no stream")
              (fun _ => Thrown "not available") (fun url : string => Returned url) T1)
    as (_ & _ & _ & Hdisabled).
  split; [reflexivity|].
  apply Hdisabled; reflexivity.
Defined.

(** ** Reading the environment *)

Lemma cut_comma_free (piece rest : string) :
  comma_free piece = true ->
  cut "," (piece ++ String "," rest) = (piece, Some rest).
Proof.
  induction piece as [|c piece IH]; simpl; [done|].
  intros [Hc Hpiece]%andb_true_iff. apply negb_true_iff in Hc. rewrite Hc.
  by rewrite (IH Hpiece).
Qed.

Lemma cut_comma_free_end (piece : string) :
  comma_free piece = true -> cut "," piece = (piece, None).
Proof.
  induction piece as [|c piece IH]; simpl; [done|].
  intros [Hc Hpiece]%andb_true_iff. apply negb_true_iff in Hc. rewrite Hc.
  by rewrite (IH Hpiece).
Qed.

Lemma cut_pieces (s head : string) (rest : option string) :
  cut "," s = (head, rest) ->
  comma_free head = true
  /\ forall r, rest = Some r -> (String.length r < String.length s)%nat.
Proof.
  revert head rest. induction s as [|c s IH]; simpl; intros head rest Hcut.
  - injection Hcut as <- <-. split; [done | discriminate].
  - destruct (Ascii.eqb c ",") eqn:Hc.
    + injection Hcut as <- <-. split; [done|]. intros r [= <-]. lia.
    + destruct (cut "," s) as [h t] eqn:Hs. injection Hcut as <- <-.
      destruct (IH h t eq_refl) as [Hh Ht]. split.
      * simpl. by rewrite Hc, Hh.
      * intros r Hr. specialize (Ht r Hr). lia.
Qed.

Lemma split_on_comma_free (fuel : nat) (s : string) :
  (String.length s <= fuel)%nat ->
  Forall (fun piece => comma_free piece = true) (split_on fuel "," s).
Proof.
  revert s. induction fuel as [|fuel IH]; intros s Hlen; simpl.
  - destruct s; [|simpl in Hlen; lia]. by apply Forall_singleton.
  - destruct (cut "," s) as [head [r|]] eqn:Hcut;
      destruct (cut_pieces s head _ Hcut) as [Hhead Hrest].
    + apply Forall_cons. split; [done|]. apply IH. specialize (Hrest r eq_refl). lia.
    + by apply Forall_singleton.
Qed.

Lemma length_appended (s t : string) :
  String.length (s ++ t) = (String.length s + String.length t)%nat.
Proof. induction s as [|c s IH]; simpl; [done|]. by rewrite IH. Qed.

Lemma split_on_join (fuel : nat) (piece : string) (pieces : list string) :
  Forall (fun piece => comma_free piece = true) (piece :: pieces) ->
  (String.length (String.concat "," (piece :: pieces)) <= fuel)%nat ->
  split_on fuel "," (String.concat "," (piece :: pieces)) = piece :: pieces.
Proof.
  revert fuel piece. induction pieces as [|next pieces IH]; intros fuel piece Hfree Hlen.
  - apply Forall_cons in Hfree as [Hfree _]. simpl in *.
    destruct fuel as [|fuel]; simpl; [done|].
    rewrite cut_comma_free_end; [done | exact Hfree].
  - apply Forall_cons in Hfree as [Hpiece Hfree].
    change (String.concat "," (piece :: next :: pieces))
      with (piece ++ String "," (String.concat "," (next :: pieces)))%string in *.
    rewrite length_appended in Hlen. cbn [String.length] in Hlen.
    destruct fuel as [|fuel]; [lia|]. simpl.
    rewrite (cut_comma_free _ _ Hpiece). f_equal. apply IH; [done | lia].
Qed.

Lemma trimStart_space_free (id : string) : space_free id = true -> trimStart id = id.
Proof.
  destruct id as [|c id]; simpl; [done|].
  intros [Hc _]%andb_true_iff. apply negb_true_iff in Hc. by rewrite Hc.
Qed.

Lemma trimEnd_space_free (id : string) : space_free id = true -> trimEnd id = id.
Proof.
  induction id as [|c id IH]; simpl; [done|].
  intros [Hc Hid]%andb_true_iff. rewrite (IH Hid).
  apply negb_true_iff in Hc. rewrite Hc. by destruct id.
Qed.

Lemma trim_space_free (id : string) : space_free id = true -> trim id = id.
Proof. intros Hid. unfold trim. by rewrite trimStart_space_free, trimEnd_space_free. Qed.

Lemma trimEnd_idempotent (s : string) : trimEnd (trimEnd s) = trimEnd s.
Proof.
  induction s as [|c s IH]; simpl; [done|].
  destruct (trimEnd s) as [|k kept] eqn:Hkept.
  - destruct (is_space c) eqn:Hc; simpl; [done|]. by rewrite Hc.
  - change (trimEnd (String c (String k kept)))
      with (match trimEnd (String k kept) with
            | EmptyString => if is_space c then EmptyString else String c EmptyString
            | String k' kept' => String c (String k' kept')
            end).
    by rewrite IH.
Qed.

Lemma trimStart_starts_plain (s : string) : starts_plain (trimStart s) = true.
Proof.
  induction s as [|c s IH]; simpl; [done|].
  destruct (is_space c) eqn:Hc; [done|]. simpl. by rewrite Hc.
Qed.

Lemma trimEnd_starts_plain (s : string) :
  starts_plain s = true -> starts_plain (trimEnd s) = true.
Proof.
  destruct s as [|c s]; simpl; [done|]. intros Hc.
  destruct (trimEnd s); simpl; [|done].
  apply negb_true_iff in Hc. rewrite Hc. simpl. by rewrite Hc.
Qed.

Lemma trimStart_of_starts_plain (s : string) : starts_plain s = true -> trimStart s = s.
Proof.
  destruct s as [|c s]; simpl; [done|]. intros Hc.
  apply negb_true_iff in Hc. by rewrite Hc.
Qed.

Lemma trim_idempotent (s : string) : trim (trim s) = trim s.
Proof.
  unfold trim.
  rewrite (trimStart_of_starts_plain (trimEnd (trimStart s))).
  - apply trimEnd_idempotent.
  - apply trimEnd_starts_plain, trimStart_starts_plain.
Qed.

Lemma trimStart_comma_free (s : string) :
  comma_free s = true -> comma_free (trimStart s) = true.
Proof.
  induction s as [|c s IH]; simpl; [done|].
  intros [Hc Hs]%andb_true_iff. destruct (is_space c); [by apply IH|].
  simpl. by rewrite Hc, Hs.
Qed.

Lemma trimEnd_comma_free (s : string) :
  comma_free s = true -> comma_free (trimEnd s) = true.
Proof.
  induction s as [|c s IH]; simpl; [done|].
  intros [Hc Hs]%andb_true_iff. specialize (IH Hs).
  destruct (trimEnd s) as [|k kept]; simpl in *.
  - destruct (is_space c); simpl; [done|]. by rewrite Hc.
  - by rewrite Hc, IH.
Qed.

Lemma trim_after_space (s : string) : trim (String " " s) = trim s.
Proof. reflexivity. Qed.

Lemma trim_plain_ids (ids : list string) :
  Forall plain_id ids ->
  List.filter (fun entry => negb (entry =? EmptyString)%string) (map trim ids) = ids.
Proof.
  intros Hids. induction Hids as [|id ids (Hne & _ & Hspace) _ IH]; [done|].
  simpl. rewrite (trim_space_free id Hspace).
  apply String.eqb_neq in Hne. rewrite Hne. simpl. by rewrite IH.
Qed.

Lemma trim_spaced_ids (ids : list string) :
  Forall plain_id ids ->
  List.filter (fun entry => negb (entry =? EmptyString)%string)
              (map trim (map (String " ") ids))
  = ids.
Proof.
  intros Hids. induction Hids as [|id ids (Hne & _ & Hspace) _ IH]; [done|].
  simpl map. rewrite trim_after_space, (trim_space_free id Hspace).
  simpl. apply String.eqb_neq in Hne. rewrite Hne. simpl. by rewrite IH.
Qed.

Lemma join_with_space (next : string) (more : list string) :
  String " " (String.concat ", " (next :: more))
  = String.concat "," (String " " next :: map (String " ") more).
Proof.
  revert next. induction more as [|m more IH]; intros next; [done|].
  change (String.concat ", " (next :: m :: more))
    with (next ++ String "," (String " " (String.concat ", " (m :: more))))%string.
  change (String.concat "," (String " " next :: map (String " ") (m :: more)))
    with (String " " (next ++ String ","
                        (String.concat "," (String " " m :: map (String " ") more))))%string.
  by rewrite IH.
Qed.

Lemma split_joined (ids : list string) :
  Forall plain_id ids -> ids <> [] ->
  split_commas (String.concat "," ids) = ids
  /\ exists first others,
       ids = first :: others
       /\ split_commas (String.concat ", " ids) = first :: map (String " ") others.
Proof.
  intros Hids Hsome. destruct ids as [|first others]; [done|]. split.
  - apply split_on_join; [|done].
    eapply Forall_impl; [exact Hids|]. by intros id (_ & Hfree & _).
  - exists first, others. split; [done|].
    apply Forall_cons in Hids as [(_ & Hfirst & _) Hothers].
    destruct others as [|next more].
    + unfold split_commas. by apply (split_on_join _ first []); [apply Forall_singleton|].
    + change (String.concat ", " (first :: next :: more))
        with (first ++ String "," (String " " (String.concat ", " (next :: more))))%string.
      rewrite join_with_space.
      change (first ++ String "," (String.concat ","
                                     (String " " next :: map (String " ") more)))%string
        with (String.concat "," (first :: map (String " ") (next :: more))).
      apply split_on_join; [|done].
      apply Forall_cons. split; [done|].
      apply Forall_fmap. eapply Forall_impl; [exact Hothers|].
      intros id (_ & Hfree & _). simpl. done.
Qed.


